(** * IR2Vec: vocabulary loading and symbolic embeddings

    A shallow embedding of [llvm/lib/Analysis/IR2Vec.cpp]: the [Embedding]
    arithmetic, the vocabulary reader of [IR2VecVocabAnalysis], the
    [Embedder] with its [SymbolicEmbedder] strategy and the two printer
    passes, followed by the properties established about them.

    Conventions.
    - A C++ [double] is a primitive binary64 [float]; the [float] options
      are widened to [double] where the source does so.
    - A failed [assert] and a read through an invalid iterator end the run
      with a [Fault]; every operation that can reach one returns an
      [outcome].  The module [Unchecked] has the vocabulary reader under
      the other reading of such a read: it yields a size that nothing
      determines, and the run goes on.
    - [std::map<std::string, Embedding>] is the list of its entries in
      increasing key order, so that [begin()] is the head of the list.
    - The two [DenseMap]s keyed by address are [gmap]s keyed by the
      position of the object in the function.
    - A [raw_ostream] is the list of what was written to it. *)

From Stdlib Require Import PrimFloat SpecFloat FloatOps FloatAxioms Sorted.
From stdpp Require Import gmap strings list fin_maps.

Local Open Scope string_scope.
Local Open Scope list_scope.

(* ===================================================================== *)
(** ** Faults and outcomes *)
(* ===================================================================== *)

Inductive Fault : Type :=
| AssertionFailure
| UndefinedBehaviour.

Inductive outcome (A : Type) : Type :=
| Ok (a : A)
| Crash (f : Fault).

Arguments Ok {A} a.
Arguments Crash {A} f.

Definition outcome_bind {A B : Type} (m : outcome A) (k : A -> outcome B)
  : outcome B :=
  match m with
  | Ok a => k a
  | Crash f => Crash f
  end.

(* ===================================================================== *)
(** ** Embedding *)
(* ===================================================================== *)

(** Modelled from the spec: [struct Embedding] is declared in the header;
    it is an ordered sequence of doubles. *)
Abbreviation Embedding := (list float).

(** [Embedding(Dimension, 0)]. *)
Definition Embedding_zero (Dimension : nat) : Embedding :=
  replicate Dimension 0%float.

(** [Embedding::operator+=]. *)
Definition Embedding_add_assign (this RHS : Embedding) : outcome Embedding :=
  if decide (length this = length RHS)
  then Ok (zip_with PrimFloat.add this RHS)
  else Crash AssertionFailure.

(** [Embedding::operator+]. *)
Definition Embedding_add (this RHS : Embedding) : outcome Embedding :=
  let Result := this in
  Embedding_add_assign Result RHS.

(** [Embedding::operator-=]. *)
Definition Embedding_sub_assign (this RHS : Embedding) : outcome Embedding :=
  if decide (length this = length RHS)
  then Ok (zip_with PrimFloat.sub this RHS)
  else Crash AssertionFailure.

(** [Embedding::operator-]. *)
Definition Embedding_sub (this RHS : Embedding) : outcome Embedding :=
  let Result := this in
  Embedding_sub_assign Result RHS.

(** [Embedding::operator*=]. *)
Definition Embedding_mul_assign (this : Embedding) (Factor : float)
  : Embedding :=
  map (fun Elem => PrimFloat.mul Elem Factor) this.

(** [Embedding::operator*]. *)
Definition Embedding_mul (this : Embedding) (Factor : float) : Embedding :=
  let Result := this in
  Embedding_mul_assign Result Factor.

(** [Embedding::scaleAndAdd]; [Factor] is the [float] argument widened. *)
Definition scaleAndAdd (this Src : Embedding) (Factor : float)
  : outcome Embedding :=
  if decide (length this = length Src)
  then Ok (zip_with
             (fun d s => PrimFloat.add d (PrimFloat.mul s Factor)) this Src)
  else Crash AssertionFailure.

(** [Embedding::approximatelyEquals]: the loop leaves with [false] at the
    first index whose difference exceeds [Tolerance]. *)
Fixpoint approximatelyEquals_loop (this RHS : Embedding) (Tolerance : float)
  : bool :=
  match this, RHS with
  | x :: this', y :: RHS' =>
      if PrimFloat.ltb Tolerance (PrimFloat.abs (PrimFloat.sub x y))
      then false
      else approximatelyEquals_loop this' RHS' Tolerance
  | _, _ => true
  end.

Definition approximatelyEquals (this RHS : Embedding) (Tolerance : float)
  : outcome bool :=
  if decide (length this = length RHS)
  then Ok (approximatelyEquals_loop this RHS Tolerance)
  else Crash AssertionFailure.

(* ===================================================================== *)
(** ** Vocab *)
(* ===================================================================== *)

(** Modelled from the spec: the declaration [ir2vec::Vocab] lives in the
    header; it is the mapping from unique string keys to [Embedding]s that
    the source reads with [find], [begin], [insert] and [empty], i.e. a
    [std::map<std::string, Embedding>].  The entries are kept in increasing
    key order. *)
Abbreviation Vocab := (list (string * Embedding)).

(** [Vocab::find]: [None] stands for [end()]. *)
Fixpoint Vocab_find (Key : string) (V : Vocab) : option Embedding :=
  match V with
  | [] => None
  | (k, v) :: V' => if String.eqb k Key then Some v else Vocab_find Key V'
  end.

(** [Vocab::begin]: [None] stands for [end()]. *)
Definition Vocab_begin (V : Vocab) : option (string * Embedding) := head V.

(** [Vocab::empty]. *)
Definition Vocab_empty (V : Vocab) : bool :=
  match V with
  | [] => true
  | _ :: _ => false
  end.

(** Placing an entry with a fresh key at its position in key order. *)
Fixpoint Vocab_emplace (Key : string) (E : Embedding) (V : Vocab) : Vocab :=
  match V with
  | [] => [(Key, E)]
  | (k, v) :: V' =>
      if String.ltb Key k
      then (Key, E) :: (k, v) :: V'
      else (k, v) :: Vocab_emplace Key E V'
  end.

(** [Vocab::insert(value)]: an entry whose key is present is left as it
    is. *)
Definition Vocab_insert (Entry : string * Embedding) (V : Vocab) : Vocab :=
  match Vocab_find Entry.1 V with
  | Some _ => V
  | None => Vocab_emplace Entry.1 Entry.2 V
  end.

(** [Vocab::insert(first, last)]. *)
Definition Vocab_insert_range (V : Vocab) (Range : list (string * Embedding))
  : Vocab :=
  foldl (fun V Entry => Vocab_insert Entry V) V Range.

(** Overwriting the mapped value of a present key. *)
Fixpoint Vocab_store (Key : string) (E : Embedding) (V : Vocab) : Vocab :=
  match V with
  | [] => []
  | (k, v) :: V' =>
      if String.eqb k Key then (k, E) :: V' else (k, v) :: Vocab_store Key E V'
  end.

(** [Vocab::operator[]]: a missing key gets a default-constructed (empty)
    [Embedding]. *)
Definition Vocab_subscript (Key : string) (V : Vocab) : Vocab :=
  match Vocab_find Key V with
  | Some _ => V
  | None => Vocab_emplace Key [] V
  end.

(* ===================================================================== *)
(** ** Errors *)
(* ===================================================================== *)

(** Modelled from the spec: the two [errc] codes of
    [llvm/Support/Errc.h] that the file uses. *)
Inductive errc : Type :=
| invalid_argument
| illegal_byte_sequence.

(** Modelled from the spec: [llvm::Error] of [llvm/Support/Error.h]:
    success, or one of the payloads this file creates or passes on (a
    string error with its code, a file error with the path and the code of
    the I/O failure, the error of the JSON parser). *)
Inductive Error : Type :=
| Error_success
| StringError (EC : errc) (Msg : string)
| FileError (Path : string) (EC : nat)
| ParseError (Msg : string).

(** [if (auto Err = ...)]: the contextual conversion of an [Error]. *)
Definition Error_to_bool (Err : Error) : bool :=
  match Err with
  | Error_success => false
  | _ => true
  end.

(* ===================================================================== *)
(** ** JSON values and their decoders *)
(* ===================================================================== *)

Module json.

(** Modelled from the spec: [llvm::json::Value] is declared in
    [llvm/Support/JSON.h]; a document is a tree of nulls, booleans,
    numbers, strings, arrays and objects, an object listing its members in
    the order its iteration yields them. *)
#[local] Unset Elimination Schemes.
Inductive Value : Type :=
| Null
| Boolean (b : bool)
| Number (d : float)
| Str (s : string)
| Array (a : list Value)
| Object (o : list (string * Value)).
#[local] Set Elimination Schemes.

(** [Value::getAsObject]. *)
Definition getAsObject (V : Value) : option (list (string * Value)) :=
  match V with
  | Object o => Some o
  | _ => None
  end.

(** [Object::get]: [None] stands for the null pointer. *)
Fixpoint get (Key : string) (Members : list (string * Value))
  : option Value :=
  match Members with
  | [] => None
  | (k, v) :: Members' => if String.eqb k Key then Some v else get Key Members'
  end.

(** Modelled from the spec: [fromJSON(const Value &, double &, Path)] of
    [llvm/Support/JSON.h]; only a number decodes. *)
Definition fromJSON_double (E : Value) : option float :=
  match E with
  | Number d => Some d
  | _ => None
  end.

(** Modelled from the spec: [fromJSON(const Value &, std::vector<double> &,
    Path)] of [llvm/Support/JSON.h]; an array of numbers decodes, element
    by element. *)
Definition fromJSON_vector (E : Value) : option (list float) :=
  match E with
  | Array a => mapM fromJSON_double a
  | _ => None
  end.

(** [fromJSON(const Value &, Embedding &, Path)], lines 60-68: [Out] is
    written only when the temporary decoded. *)
Definition fromJSON_Embedding (E : Value) (Out : Embedding)
  : bool * Embedding :=
  match fromJSON_vector E with
  | None => (false, Out)
  | Some TempOut => (true, TempOut)
  end.

(** Modelled from the spec: [fromJSON(const Value &, std::map<std::string,
    T> &, Path)] of [llvm/Support/JSON.h].  [Out] is cleared, then every
    member is decoded into the slot [Out[key]]; the first member that does
    not decode ends the loop with [false]. *)
Fixpoint fromJSON_members (Members : list (string * Value)) (Out : Vocab)
  : bool * Vocab :=
  match Members with
  | [] => (true, Out)
  | (k, E) :: Members' =>
      let Out := Vocab_subscript k Out in
      let Slot := default [] (Vocab_find k Out) in
      let '(Decoded, Slot) := fromJSON_Embedding E Slot in
      if Decoded
      then fromJSON_members Members' (Vocab_store k Slot Out)
      else (false, Out)
  end.

Definition fromJSON_map (E : Value) (Out : Vocab) : bool * Vocab :=
  match getAsObject E with
  | Some Members => fromJSON_members Members []
  | None => (false, Out)
  end.

End json.

(* ===================================================================== *)
(** ** The host IR, as the embedder queries it *)
(* ===================================================================== *)

(** Modelled from the spec: [llvm::Type] is the host compiler's; the
    embedder only asks it the predicates below. *)
Record Type_ : Type := mkType {
  isVoidTy : bool;
  isFloatingPointTy : bool;
  isIntegerTy : bool;
  isFunctionTy : bool;
  isStructTy : bool;
  isArrayTy : bool;
  isPointerTy : bool;
  isVectorTy : bool;
  isEmptyTy : bool;
  isLabelTy : bool;
  isTokenTy : bool;
  isMetadataTy : bool
}.

(** Modelled from the spec: [llvm::Value] as an operand: whether it is a
    [Function], its type, whether it is a [Constant]. *)
Record Value : Type := mkValue {
  isa_Function : bool;
  Value_getType : Type_;
  isa_Constant : bool
}.

(** Modelled from the spec: [llvm::Instruction]: opcode name, result type,
    operands in declaration order, and whether
    [instructionsWithoutDebug] skips it (debug and pseudo instructions). *)
Record Instruction : Type := mkInstruction {
  getOpcodeName : string;
  Instruction_getType : Type_;
  operands : list Value;
  isDebugOrPseudoInst : bool
}.

(** Modelled from the spec: [llvm::BasicBlock]: its instructions in order
    and the positions, in the function, of its control-flow successors. *)
Record BasicBlock : Type := mkBasicBlock {
  instructions : list Instruction;
  terminator_successors : list nat
}.

(** Modelled from the spec: [llvm::Function]: its basic blocks, the entry
    block first.  A declaration is a function without a body. *)
Record Function : Type := mkFunction {
  blocks : list BasicBlock
}.

Definition isDeclaration (F : Function) : bool :=
  match blocks F with
  | [] => true
  | _ :: _ => false
  end.

(** The address of a basic block of the function at hand is its position
    in [blocks]; the address of an instruction is the position of its block
    and its own position in the block. *)
Abbreviation BasicBlockAddr := nat (only parsing).
Abbreviation InstructionAddr := (nat * nat)%type (only parsing).

(** [BB.instructionsWithoutDebug()]: each remaining instruction with its
    position in the block. *)
Definition instructionsWithoutDebug (BB : BasicBlock)
  : list (nat * Instruction) :=
  List.filter (fun NI => negb (isDebugOrPseudoInst NI.2))
              (imap (fun N I => (N, I)) (instructions BB)).

(** The successors of the block at [B] that are blocks of [F]. *)
Definition successors (F : Function) (B : BasicBlockAddr)
  : list BasicBlockAddr :=
  match blocks F !! B with
  | Some BB =>
      List.filter (fun Succ => Nat.ltb Succ (length (blocks F)))
                  (terminator_successors BB)
  | None => []
  end.

(** Modelled from the spec: [depth_first(&F)] of
    [llvm/ADT/DepthFirstIterator.h] is the pre-order depth-first walk from
    the entry block: a block is yielded when it is first reached, and its
    successors are explored in order before the walk returns to the
    siblings.  [Pending] holds the blocks still to be looked at, [Visited]
    the blocks yielded so far, in the order they were yielded. *)
Fixpoint df_walk (F : Function) (Fuel : nat)
    (Pending Visited : list BasicBlockAddr) : list BasicBlockAddr :=
  match Fuel with
  | O => Visited
  | S Fuel =>
      match Pending with
      | [] => Visited
      | B :: Pending =>
          if bool_decide (B ∈ Visited)
          then df_walk F Fuel Pending Visited
          else df_walk F Fuel (successors F B ++ Pending) (Visited ++ [B])
      end
  end.

(** One unit for every block and every edge, and one for the entry: the
    walk looks at a block at most once per such unit. *)
Definition df_fuel (F : Function) : nat :=
  S (sum_list (map (fun B => S (length (successors F B)))
                   (seq 0 (length (blocks F))))).

Definition df_order (F : Function) : list BasicBlockAddr :=
  df_walk F (df_fuel F) [0] [].

(** The blocks [depth_first(&F)] yields, each with its address. *)
Definition depth_first (F : Function) : list (BasicBlockAddr * BasicBlock) :=
  omap (fun B => pair B <$> blocks F !! B) (df_order F).

(** Reachability from the entry block along control-flow edges. *)
Inductive reachable (F : Function) : BasicBlockAddr -> Prop :=
| reachable_entry : 0 < length (blocks F) -> reachable F 0
| reachable_step B Succ :
    reachable F B -> Succ ∈ successors F B -> reachable F Succ.

(* ===================================================================== *)
(** ** Options and the mutable store *)
(* ===================================================================== *)

Module ir2vec.

(** The [cl::opt] globals of namespace [llvm::ir2vec].  The three weights
    are [float] options; they are held here already widened to [double]. *)
Record Options : Type := mkOptions {
  VocabFile : string;
  OpcWeight : float;
  TypeWeight : float;
  ArgWeight : float
}.

End ir2vec.

(** [unsigned] holds a [size_t] modulo [2^32]. *)
Definition unsigned_of_size (Size : nat) : N := (N.of_nat Size mod 2 ^ 32)%N.

(** Modelled from the spec: the members of [Embedder] are declared in the
    header, and the type of the [STATISTIC] counter in
    [llvm/ADT/Statistic.h].  The store is what the [const] member functions
    of an [Embedder] write to: the counter of vocabulary misses, an
    observable count of occurrences, and the three caches, instruction to
    [Embedding], basic block to [Embedding], and the running function
    [Embedding]. *)
Record Store : Type := mkStore {
  VocabMissCounter : N;
  InstVecMap : gmap (nat * nat) Embedding;
  BBVecMap : gmap nat Embedding;
  FuncVector : Embedding
}.

Definition set_VocabMissCounter (n : N) (s : Store) : Store :=
  mkStore n (InstVecMap s) (BBVecMap s) (FuncVector s).
Definition set_InstVecMap (m : gmap (nat * nat) Embedding) (s : Store)
  : Store :=
  mkStore (VocabMissCounter s) m (BBVecMap s) (FuncVector s).
Definition set_BBVecMap (m : gmap nat Embedding) (s : Store) : Store :=
  mkStore (VocabMissCounter s) (InstVecMap s) m (FuncVector s).
Definition set_FuncVector (v : Embedding) (s : Store) : Store :=
  mkStore (VocabMissCounter s) (InstVecMap s) (BBVecMap s) v.

(** Computations over the store that may end in a [Fault]. *)
Definition M (A : Type) : Type := Store -> outcome (A * Store).

Definition ret {A : Type} (a : A) : M A := fun s => Ok (a, s).

Definition bind {A B : Type} (m : M A) (k : A -> M B) : M B :=
  fun s =>
    match m s with
    | Ok (a, s') => k a s'
    | Crash f => Crash f
    end.

Definition lift {A : Type} (o : outcome A) : M A :=
  fun s =>
    match o with
    | Ok a => Ok (a, s)
    | Crash f => Crash f
    end.

Definition gets {A : Type} (f : Store -> A) : M A := fun s => Ok (f s, s).

Definition modify (f : Store -> Store) : M unit := fun s => Ok (tt, f s).

Declare Scope M_scope.
Delimit Scope M_scope with M.
Notation "x <- m ;; k" := (bind m (fun x => k))
  (at level 100, m at next level, right associativity) : M_scope.
Notation "m ;; k" := (bind m (fun _ => k))
  (at level 100, right associativity) : M_scope.
Local Open Scope M_scope.

(** A range-based [for] whose body updates a local [Acc]. *)
Fixpoint for_each {A B : Type} (Range : list A) (Body : B -> A -> M B)
    (Acc : B) : M B :=
  match Range with
  | [] => ret Acc
  | x :: Range' => Acc' <- Body Acc x ;; for_each Range' Body Acc'
  end.

(** A reference to a mutable member, as the accessors return it: reading
    through it yields the member as it is at the time of the read. *)
Inductive Ref : Type -> Type :=
| Ref_InstVecMap : Ref (gmap (nat * nat) Embedding)
| Ref_BBVecMap : Ref (gmap nat Embedding)
| Ref_FuncVector : Ref Embedding
| Ref_BBVecMap_at (BB : BasicBlockAddr) : Ref Embedding.

Definition load {A : Type} (r : Ref A) (s : Store) : A :=
  match r with
  | Ref_InstVecMap => InstVecMap s
  | Ref_BBVecMap => BBVecMap s
  | Ref_FuncVector => FuncVector s
  | Ref_BBVecMap_at BB => default [] (BBVecMap s !! BB)
  end.

(** [BBVecMap[BB]]: a missing key gets a default-constructed (empty)
    [Embedding]. *)
Definition BBVecMap_subscript (BB : BasicBlockAddr) : M (Ref Embedding) :=
  fun s =>
    match BBVecMap s !! BB with
    | Some _ => Ok (Ref_BBVecMap_at BB, s)
    | None => Ok (Ref_BBVecMap_at BB, set_BBVecMap (<[BB := []]> (BBVecMap s)) s)
    end.

(* ===================================================================== *)
(** ** Embedder *)
(* ===================================================================== *)

(** Modelled from the spec: [enum class IR2VecKind] is declared in the
    header; there is one strategy, the symbolic one. *)
Inductive IR2VecKind : Type :=
| Symbolic.

Module Embedder.

(** Modelled from the spec: the members of [Embedder] are declared in the
    header; these are the ones the constructor here initialises and that
    stay fixed: the function, the vocabulary, the dimension (an
    [unsigned]) and the three weights. *)
Record t : Type := mk {
  F : Function;
  Vocabulary : Vocab;
  Dimension : N;
  OpcWeight : float;
  TypeWeight : float;
  ArgWeight : float
}.

(** Modelled from the spec: the two overloads of [computeEmbeddings] are
    pure virtual members of [Embedder], declared in the header; a
    computation strategy supplies them. *)
Class Strategy : Type := {
  computeEmbeddings : t -> M unit;
  computeEmbeddings_BB : t -> BasicBlockAddr -> BasicBlock -> M unit
}.

(** [Embedder::Embedder]: [Dimension] is read from the first entry of the
    vocabulary. *)
Definition ctor (Opts : ir2vec.Options) (F : Function) (Vocabulary : Vocab)
  : outcome t :=
  match Vocab_begin Vocabulary with
  | Some (_, v) =>
      Ok (mk F Vocabulary (unsigned_of_size (length v))
             (ir2vec.OpcWeight Opts) (ir2vec.TypeWeight Opts)
             (ir2vec.ArgWeight Opts))
  | None => Crash UndefinedBehaviour
  end.

(** [Embedder::lookupVocab]. *)
Definition lookupVocab (this : t) (Key : string) : M Embedding :=
  let Vec := Embedding_zero (N.to_nat (Dimension this)) in
  match Vocab_find Key (Vocabulary this) with
  | Some v => ret v
  | None =>
      modify (fun s => set_VocabMissCounter (N.succ (VocabMissCounter s)) s) ;;
      ret Vec
  end.

Section Accessors.
Context `{Strategy}.

(** [Embedder::getInstVecMap]. *)
Definition getInstVecMap (this : t)
  : M (Ref (gmap (nat * nat) Embedding)) :=
  Empty <- gets (fun s => bool_decide (InstVecMap s = ∅)) ;;
  (if Empty : bool then computeEmbeddings this else ret tt) ;;
  ret Ref_InstVecMap.

(** [Embedder::getBBVecMap]. *)
Definition getBBVecMap (this : t) : M (Ref (gmap nat Embedding)) :=
  Empty <- gets (fun s => bool_decide (BBVecMap s = ∅)) ;;
  (if Empty : bool then computeEmbeddings this else ret tt) ;;
  ret Ref_BBVecMap.

(** [Embedder::getBBVector]; [BB] is the address of the block and
    [Block] the block it designates. *)
Definition getBBVector (this : t) (BB : BasicBlockAddr) (Block : BasicBlock)
  : M (Ref Embedding) :=
  It <- gets (fun s => BBVecMap s !! BB) ;;
  match It with
  | Some _ => ret (Ref_BBVecMap_at BB)
  | None => computeEmbeddings_BB this BB Block ;; BBVecMap_subscript BB
  end.

(** [Embedder::getFunctionVector]. *)
Definition getFunctionVector (this : t) : M (Ref Embedding) :=
  computeEmbeddings this ;;
  ret Ref_FuncVector.

End Accessors.

End Embedder.

Module SymbolicEmbedder.

(** [SymbolicEmbedder::getTypeEmbedding]. *)
Definition getTypeEmbedding (this : Embedder.t) (Ty : Type_) : M Embedding :=
  if isVoidTy Ty then Embedder.lookupVocab this "voidTy"
  else if isFloatingPointTy Ty then Embedder.lookupVocab this "floatTy"
  else if isIntegerTy Ty then Embedder.lookupVocab this "integerTy"
  else if isFunctionTy Ty then Embedder.lookupVocab this "functionTy"
  else if isStructTy Ty then Embedder.lookupVocab this "structTy"
  else if isArrayTy Ty then Embedder.lookupVocab this "arrayTy"
  else if isPointerTy Ty then Embedder.lookupVocab this "pointerTy"
  else if isVectorTy Ty then Embedder.lookupVocab this "vectorTy"
  else if isEmptyTy Ty then Embedder.lookupVocab this "emptyTy"
  else if isLabelTy Ty then Embedder.lookupVocab this "labelTy"
  else if isTokenTy Ty then Embedder.lookupVocab this "tokenTy"
  else if isMetadataTy Ty then Embedder.lookupVocab this "metadataTy"
  else Embedder.lookupVocab this "unknownTy".

(** [SymbolicEmbedder::getOperandEmbedding]; [isa<PointerType>] of a type
    is its [isPointerTy]. *)
Definition getOperandEmbedding (this : Embedder.t) (Op : Value)
  : M Embedding :=
  if isa_Function Op then Embedder.lookupVocab this "function"
  else if isPointerTy (Value_getType Op)
  then Embedder.lookupVocab this "pointer"
  else if isa_Constant Op then Embedder.lookupVocab this "constant"
  else Embedder.lookupVocab this "variable".

(** The body of the loop over the operands of an instruction. *)
Definition operand_step (this : Embedder.t) (InstVector : Embedding)
    (Op : Value) : M Embedding :=
  OpVec <- getOperandEmbedding this Op ;;
  lift (Embedding_add_assign InstVector OpVec).

(** The body of the loop of [computeEmbeddings(BB)] up to the two stores:
    the vector of one instruction. *)
Definition instruction_vector (this : Embedder.t) (I : Instruction)
  : M Embedding :=
  let InstVector := Embedding_zero (N.to_nat (Embedder.Dimension this)) in
  OpcVec <- Embedder.lookupVocab this (getOpcodeName I) ;;
  InstVector <- lift (Embedding_add_assign InstVector OpcVec) ;;
  TyVec <- getTypeEmbedding this (Instruction_getType I) ;;
  InstVector <- lift (Embedding_add_assign InstVector TyVec) ;;
  for_each (operands I) (operand_step this) InstVector.

(** The body of the loop over the instructions of a block. *)
Definition instruction_step (this : Embedder.t) (BB : BasicBlockAddr)
    (BBVector : Embedding) (NI : nat * Instruction) : M Embedding :=
  InstVector <- instruction_vector this NI.2 ;;
  modify (fun s =>
    set_InstVecMap (<[(BB, NI.1) := InstVector]> (InstVecMap s)) s) ;;
  lift (Embedding_add_assign BBVector InstVector).

(** [SymbolicEmbedder::computeEmbeddings(const BasicBlock &)]. *)
Definition computeEmbeddings_BB (this : Embedder.t) (BB : BasicBlockAddr)
    (Block : BasicBlock) : M unit :=
  let BBVector := Embedding_zero (N.to_nat (Embedder.Dimension this)) in
  BBVector <- for_each (instructionsWithoutDebug Block)
                       (instruction_step this BB) BBVector ;;
  modify (fun s => set_BBVecMap (<[BB := BBVector]> (BBVecMap s)) s).

(** The body of the loop over the reachable blocks. *)
Definition block_step (this : Embedder.t) (_ : unit)
    (BB : BasicBlockAddr * BasicBlock) : M unit :=
  computeEmbeddings_BB this BB.1 BB.2 ;;
  Slot <- BBVecMap_subscript BB.1 ;;
  BBVec <- gets (load Slot) ;;
  FuncVec <- gets FuncVector ;;
  FuncVec <- lift (Embedding_add_assign FuncVec BBVec) ;;
  modify (set_FuncVector FuncVec).

(** [SymbolicEmbedder::computeEmbeddings()]. *)
Definition computeEmbeddings (this : Embedder.t) : M unit :=
  if isDeclaration (Embedder.F this)
  then ret tt
  else for_each (depth_first (Embedder.F this)) (block_step this) tt.

#[global] Instance strategy : Embedder.Strategy := {|
  Embedder.computeEmbeddings := computeEmbeddings;
  Embedder.computeEmbeddings_BB := computeEmbeddings_BB
|}.

(** Modelled from the spec: the constructor of [SymbolicEmbedder] is in
    the header; the function vector of a new engine is the zero vector of
    the vocabulary's dimension, and its two caches are empty.
    [Counter] is the value of the statistic at that time. *)
Definition ctor (Opts : ir2vec.Options) (F : Function) (Vocabulary : Vocab)
    (Counter : N) : outcome (Embedder.t * Store) :=
  outcome_bind (Embedder.ctor Opts F Vocabulary) (fun this =>
    Ok (this,
        mkStore Counter ∅ ∅
                (Embedding_zero (N.to_nat (Embedder.Dimension this))))).

End SymbolicEmbedder.

(** [Embedder::create]: the [switch] over the one strategy there is. *)
Definition Embedder_create (Opts : ir2vec.Options) (Mode : IR2VecKind)
    (F : Function) (Vocabulary : Vocab) (Counter : N)
  : outcome (option (Embedder.t * Store)) :=
  match Mode with
  | Symbolic =>
      outcome_bind (SymbolicEmbedder.ctor Opts F Vocabulary Counter)
                   (fun this => Ok (Some this))
  end.

(* ===================================================================== *)
(** ** IR2VecVocabResult and IR2VecVocabAnalysis *)
(* ===================================================================== *)

(** Modelled from the spec: [IR2VecVocabResult] is declared in the header:
    a vocabulary and a validity flag; the default-constructed result is
    the invalid one. *)
Record IR2VecVocabResult : Type := mkResult {
  Result_Vocabulary : Vocab;
  Valid : bool
}.

(** [IR2VecVocabResult::IR2VecVocabResult(ir2vec::Vocab &&)]. *)
Definition IR2VecVocabResult_of (Vocabulary : Vocab) : IR2VecVocabResult :=
  mkResult Vocabulary true.

(** [IR2VecVocabResult()], the invalid result. *)
Definition IR2VecVocabResult_invalid : IR2VecVocabResult := mkResult [] false.

(** [IR2VecVocabResult::getVocabulary]. *)
Definition getVocabulary (R : IR2VecVocabResult) : outcome Vocab :=
  if Valid R then Ok (Result_Vocabulary R) else Crash AssertionFailure.

(** [IR2VecVocabResult::getDimension]. *)
Definition getDimension (R : IR2VecVocabResult) : outcome N :=
  if Valid R
  then match Vocab_begin (Result_Vocabulary R) with
       | Some (_, v) => Ok (unsigned_of_size (length v))
       | None => Crash UndefinedBehaviour
       end
  else Crash AssertionFailure.

(** Modelled from the spec: what the analysis asks of its surroundings,
    which are not part of this file: the file system
    ([MemoryBuffer::getFileOrSTDIN], an error code or the content) and the
    JSON parser ([json::parse], the message of a parse error or the
    document). *)
Record Host : Type := mkHost {
  getFileOrSTDIN : string -> nat + string;
  json_parse : string -> string + json.Value
}.

(** Modelled from the spec: a call of [LLVMContext::emitError], with the
    fixed message of [run] or with the error [emitError] reports. *)
Inductive Diagnostic : Type :=
| Diag_message (Msg : string)
| Diag_reading (Err : Error).

Module IR2VecVocabAnalysis.

(** [IR2VecVocabAnalysis::parseVocabSection]: the returned [Error] with
    the final contents of the two reference parameters. *)
Definition parseVocabSection (Key : string) (ParsedVocabValue : json.Value)
    (TargetVocab : Vocab) (Dim : N) : outcome (Error * Vocab * N) :=
  match json.getAsObject ParsedVocabValue with
  | None =>
      Ok (StringError invalid_argument "JSON root is not an object",
          TargetVocab, Dim)
  | Some RootObj =>
      match json.get Key RootObj with
      | None =>
          Ok (StringError invalid_argument
                ("Missing '" +:+ Key +:+ "' section in vocabulary file"),
              TargetVocab, Dim)
      | Some SectionValue =>
          let '(Decoded, TargetVocab) :=
            json.fromJSON_map SectionValue TargetVocab in
          if negb Decoded
          then Ok (StringError illegal_byte_sequence
                     ("Unable to parse '" +:+ Key
                      +:+ "' section from vocabulary"),
                   TargetVocab, Dim)
          else
            match Vocab_begin TargetVocab with
            | None => Crash UndefinedBehaviour
            | Some (_, First) =>
                let Dim := unsigned_of_size (length First) in
                if (Dim =? 0)%N
                then Ok (StringError illegal_byte_sequence
                           ("Dimension of '" +:+ Key
                            +:+ "' section of the vocabulary is zero"),
                         TargetVocab, Dim)
                else if negb (forallb
                                (fun Entry : string * Embedding =>
                                   (N.of_nat (length Entry.2) =? Dim)%N)
                                TargetVocab)
                then Ok (StringError illegal_byte_sequence
                           ("All vectors in the '" +:+ Key
                            +:+ "' section of the vocabulary are not of the same dimension"),
                         TargetVocab, Dim)
                else Ok (Error_success, TargetVocab, Dim)
            end
      end
  end.

(** The lambda [scaleVocabSection] of [readVocabulary]. *)
Definition scaleVocabSection (V : Vocab) (Weight : float) : Vocab :=
  map (fun Entry : string * Embedding =>
         (Entry.1, Embedding_mul_assign Entry.2 Weight)) V.

(** [IR2VecVocabAnalysis::readVocabulary]: the returned [Error] with the
    final contents of the member [Vocabulary]. *)
Definition readVocabulary (H : Host) (Opts : ir2vec.Options)
    (Vocabulary : Vocab) : outcome (Error * Vocab) :=
  match getFileOrSTDIN H (ir2vec.VocabFile Opts) with
  | inl EC => Ok (FileError (ir2vec.VocabFile Opts) EC, Vocabulary)
  | inr Content =>
      match json_parse H Content with
      | inl Msg => Ok (ParseError Msg, Vocabulary)
      | inr ParsedVocabValue =>
          outcome_bind (parseVocabSection "Opcodes" ParsedVocabValue [] 0)
            (fun '(Err, OpcodeVocab, OpcodeDim) =>
          if Error_to_bool Err then Ok (Err, Vocabulary) else
          outcome_bind (parseVocabSection "Types" ParsedVocabValue [] 0)
            (fun '(Err, TypeVocab, TypeDim) =>
          if Error_to_bool Err then Ok (Err, Vocabulary) else
          outcome_bind (parseVocabSection "Arguments" ParsedVocabValue [] 0)
            (fun '(Err, ArgVocab, ArgDim) =>
          if Error_to_bool Err then Ok (Err, Vocabulary) else
          if negb ((OpcodeDim =? TypeDim)%N && (TypeDim =? ArgDim)%N)
          then Ok (StringError illegal_byte_sequence
                     "Vocabulary sections have different dimensions",
                   Vocabulary)
          else
            let OpcodeVocab :=
              scaleVocabSection OpcodeVocab (ir2vec.OpcWeight Opts) in
            let TypeVocab :=
              scaleVocabSection TypeVocab (ir2vec.TypeWeight Opts) in
            let ArgVocab :=
              scaleVocabSection ArgVocab (ir2vec.ArgWeight Opts) in
            let Vocabulary := Vocab_insert_range Vocabulary OpcodeVocab in
            let Vocabulary := Vocab_insert_range Vocabulary TypeVocab in
            let Vocabulary := Vocab_insert_range Vocabulary ArgVocab in
            Ok (Error_success, Vocabulary))))
      end
  end.

(** [IR2VecVocabAnalysis::run]: the result with the errors emitted to the
    context. *)
Definition run (H : Host) (Opts : ir2vec.Options) (Vocabulary : Vocab)
  : outcome (IR2VecVocabResult * list Diagnostic) :=
  if negb (Vocab_empty Vocabulary)
  then Ok (IR2VecVocabResult_of Vocabulary, [])
  else if String.eqb (ir2vec.VocabFile Opts) ""
  then Ok (IR2VecVocabResult_invalid,
           [Diag_message "IR2Vec vocabulary file path not specified"])
  else
    outcome_bind (readVocabulary H Opts Vocabulary) (fun '(Err, Vocabulary) =>
      if Error_to_bool Err
      then Ok (IR2VecVocabResult_invalid, [Diag_reading Err])
      else Ok (IR2VecVocabResult_of Vocabulary, [])).

End IR2VecVocabAnalysis.

(* ===================================================================== *)
(** ** Vocabulary of the statements *)
(* ===================================================================== *)

(** The section [Key] of a document as [parseVocabSection] decodes it, when
    it is present and decodes. *)
Definition decoded_section (Key : string) (Doc : json.Value) : option Vocab :=
  match json.getAsObject Doc with
  | None => None
  | Some RootObj =>
      match json.get Key RootObj with
      | None => None
      | Some SectionValue =>
          let '(Decoded, TargetVocab) := json.fromJSON_map SectionValue [] in
          if Decoded then Some TargetVocab else None
      end
  end.

(** What [parseVocabSection] has checked of a section it accepts. *)
Definition accepted (T : Vocab) (Dim : N) : Prop :=
  (exists k First,
      Vocab_begin T = Some (k, First) /\
      Dim = unsigned_of_size (length First)) /\
  Dim ≠ 0%N /\
  Forall (fun Entry : string * Embedding => N.of_nat (length Entry.2) = Dim) T.

(** The three sections of a vocabulary document. *)
Definition sections : list string := ["Opcodes"; "Types"; "Arguments"].

(** The dimension of a section: the size of its first entry, as an
    [unsigned]. *)
Definition section_dimension (T : Vocab) : option N :=
  match Vocab_begin T with
  | Some (_, First) => Some (unsigned_of_size (length First))
  | None => None
  end.

(** The defects of a document that loading is to reject: a section that
    is missing or does not decode, a section of dimension zero, a section
    with an entry whose length is not its dimension, two sections of
    different dimensions. *)
Inductive rejected (Doc : json.Value) : Prop :=
| rejected_missing Key :
    Key ∈ sections -> decoded_section Key Doc = None -> rejected Doc
| rejected_zero Key T :
    Key ∈ sections -> decoded_section Key Doc = Some T ->
    section_dimension T = Some 0%N -> rejected Doc
| rejected_ragged Key T Dim Entry :
    Key ∈ sections -> decoded_section Key Doc = Some T ->
    section_dimension T = Some Dim ->
    Entry ∈ T -> N.of_nat (length Entry.2) ≠ Dim -> rejected Doc
| rejected_mismatch Key1 Key2 T1 T2 Dim1 Dim2 :
    Key1 ∈ sections -> Key2 ∈ sections ->
    decoded_section Key1 Doc = Some T1 -> decoded_section Key2 Doc = Some T2 ->
    section_dimension T1 = Some Dim1 -> section_dimension T2 = Some Dim2 ->
    Dim1 ≠ Dim2 -> rejected Doc.

(** Every entry of the vocabulary of an embedder has its dimension. *)
Definition uniform (this : Embedder.t) : Prop :=
  Forall (fun Entry : string * Embedding =>
            length Entry.2 = N.to_nat (Embedder.Dimension this))
         (Embedder.Vocabulary this).

(** A type that [getTypeEmbedding] looks up as ["integerTy"]. *)
Definition classified_integer (Ty : Type_) : Prop :=
  isVoidTy Ty = false /\ isFloatingPointTy Ty = false /\
  isIntegerTy Ty = true.

(** An operand that [getOperandEmbedding] looks up as ["variable"]. *)
Definition classified_variable (Op : Value) : Prop :=
  isa_Function Op = false /\ isPointerTy (Value_getType Op) = false /\
  isa_Constant Op = false.

(** The three accessors without argument. *)
Inductive Accessor : Type :=
| Call_getInstVecMap
| Call_getBBVecMap
| Call_getFunctionVector.

Definition call (this : Embedder.t) (_ : unit) (a : Accessor) : M unit :=
  match a with
  | Call_getInstVecMap => _ <- Embedder.getInstVecMap this ;; ret tt
  | Call_getBBVecMap => _ <- Embedder.getBBVecMap this ;; ret tt
  | Call_getFunctionVector => _ <- Embedder.getFunctionVector this ;; ret tt
  end.

(** A sequence of accessor calls, in order. *)
Definition calls (this : Embedder.t) (l : list Accessor) : M unit :=
  for_each l (call this) tt.

(** The element-wise sum the loops accumulate, without the assertion. *)
Definition plus (a b : Embedding) : Embedding := zip_with PrimFloat.add a b.

(** The fuel the walk may still need: one unit per pending block, and one
    per block not yet visited and per edge leaving it. *)
Definition potential (F : Function) (Visited : list nat) : nat :=
  sum_list (map (fun B => S (length (successors F B)))
                (filter (fun B => B ∉ Visited)
                        (seq 0 (length (blocks F))))).

(** Only the statistic differs between two stores. *)
Definition counter_only (s s' : Store) : Prop :=
  InstVecMap s' = InstVecMap s /\
  BBVecMap s' = BBVecMap s /\
  FuncVector s' = FuncVector s.

(** What [computeEmbeddings(BB)] does to the members: the vector [v] is
    stored for the block, the instructions of the block that are not
    skipped get an entry, and nothing else changes. *)
Definition block_effect (BB : nat) (Block : BasicBlock) (v : Embedding)
    (s s' : Store) : Prop :=
  BBVecMap s' = <[BB := v]> (BBVecMap s) /\
  FuncVector s' = FuncVector s /\
  (forall B i, B ≠ BB -> InstVecMap s' !! (B, i) = InstVecMap s !! (B, i)) /\
  (forall i, is_Some (InstVecMap s' !! (BB, i)) <->
             is_Some (InstVecMap s !! (BB, i)) \/
             i ∈ (instructionsWithoutDebug Block).*1).

(** The members hold nothing for a block that is not reachable. *)
Definition only_reachable (this : Embedder.t) (s : Store) : Prop :=
  length (FuncVector s) = N.to_nat (Embedder.Dimension this) /\
  forall B, ¬ reachable (Embedder.F this) B ->
            BBVecMap s !! B = None /\ forall i, InstVecMap s !! (B, i) = None.

(* ===================================================================== *)
(** ** Sample inputs *)
(* ===================================================================== *)

Module Samples.

(** The defaults of the options: weights 1.0, 0.5 and 0.2 (the [float]
    nearest to 0.2, widened). *)
Definition Opts : ir2vec.Options :=
  ir2vec.mkOptions "vocab.json" 1%float 0.5%float 0x1.99999ap-3%float.

(** The vocabulary of the unit examples: ["add"], ["integerTy"] and
    ["variable"], of dimension 2. *)
Definition Vocabulary : Vocab :=
  [("add", [1%float; 0%float]);
   ("integerTy", [0%float; 1%float]);
   ("variable", [0%float; 1%float])].

Definition IntegerTy : Type_ :=
  mkType false false true false false false false false false false false
         false.

(** An operand that is neither a function, nor a pointer, nor a
    constant. *)
Definition VariableOp : Value := mkValue false IntegerTy false.

(** [%r = add i32 %a, %b]. *)
Definition AddInst : Instruction :=
  mkInstruction "add" IntegerTy [VariableOp; VariableOp] false.

(** A function whose body is one block holding [AddInst]. *)
Definition SingleBlock : Function :=
  mkFunction [mkBasicBlock [AddInst] []].

(** Two blocks, the entry branching to the second. *)
Definition TwoBlocks : Function :=
  mkFunction [mkBasicBlock [AddInst] [1]; mkBasicBlock [AddInst] []].

(** Three blocks; the third one branches to the second and has no
    predecessor. *)
Definition WithUnreachable : Function :=
  mkFunction [mkBasicBlock [AddInst] [1];
              mkBasicBlock [AddInst] [];
              mkBasicBlock [AddInst; AddInst] [1]].

(** An external declaration. *)
Definition ExternalDecl : Function := mkFunction [].

(** The engine [Embedder::create] builds for [F] against [Vocabulary]
    under [Opts], and its members right after construction. *)
Definition Engine (F : Function) : Embedder.t :=
  Embedder.mk F Vocabulary 2 (ir2vec.OpcWeight Opts) (ir2vec.TypeWeight Opts)
              (ir2vec.ArgWeight Opts).

Definition Fresh : Store := mkStore 0 ∅ ∅ [0%float; 0%float].

(** A host whose vocabulary file parses to [Doc]. *)
Definition host (Doc : json.Value) : Host :=
  mkHost (fun _ => inr "") (fun _ => inr Doc).

Definition numbers (l : list float) : json.Value :=
  json.Array (map json.Number l).

(** A document whose [Types] entry ["integerTy"] is [[2, 4]]. *)
Definition Doc : json.Value :=
  json.Object
    [("Opcodes", json.Object [("add", numbers [1%float; 0%float])]);
     ("Types", json.Object [("integerTy", numbers [2%float; 4%float])]);
     ("Arguments", json.Object [("variable", numbers [0%float; 5%float])])].

(** A document in which the key ["x"] occurs in all three sections. *)
Definition CollidingDoc : json.Value :=
  json.Object
    [("Opcodes", json.Object [("x", numbers [1%float; 1%float])]);
     ("Types", json.Object [("x", numbers [2%float; 4%float])]);
     ("Arguments", json.Object [("x", numbers [7%float; 9%float])])].

(** A document whose [Opcodes] section is the empty object and whose
    [Types] section is missing. *)
Definition EmptyOpcodesDoc : json.Value :=
  json.Object
    [("Opcodes", json.Object []);
     ("Arguments", json.Object [("variable", numbers [0%float; 5%float])])].

(** What loading [Doc] under [Opts] leaves in the vocabulary; the last
    number is five times the argument weight. *)
Definition Merged : Vocab :=
  [("add", [1%float; 0%float]);
   ("integerTy", [1%float; 2%float]);
   ("variable", [0%float; 0x1.0000004p+0%float])].

(** A document whose [Types] section has an entry of length 4 and one of
    length 3. *)
Definition RaggedDoc : json.Value :=
  json.Object
    [("Opcodes", json.Object [("add", numbers [1%float; 0%float; 0%float])]);
     ("Types",
      json.Object
        [("integerTy", numbers [1%float; 2%float; 3%float]);
         ("floatTy", numbers [1%float; 2%float; 3%float; 4%float])]);
     ("Arguments",
      json.Object [("variable", numbers [0%float; 5%float; 0%float])])].

End Samples.

(* ===================================================================== *)
(** ** The embedding as a function of the IR *)
(* ===================================================================== *)

(** The key [getTypeEmbedding] looks a type up under. *)
Definition type_key (Ty : Type_) : string :=
  if isVoidTy Ty then "voidTy"
  else if isFloatingPointTy Ty then "floatTy"
  else if isIntegerTy Ty then "integerTy"
  else if isFunctionTy Ty then "functionTy"
  else if isStructTy Ty then "structTy"
  else if isArrayTy Ty then "arrayTy"
  else if isPointerTy Ty then "pointerTy"
  else if isVectorTy Ty then "vectorTy"
  else if isEmptyTy Ty then "emptyTy"
  else if isLabelTy Ty then "labelTy"
  else if isTokenTy Ty then "tokenTy"
  else if isMetadataTy Ty then "metadataTy"
  else "unknownTy".

(** The key [getOperandEmbedding] looks an operand up under. *)
Definition operand_key (Op : Value) : string :=
  if isa_Function Op then "function"
  else if isPointerTy (Value_getType Op) then "pointer"
  else if isa_Constant Op then "constant"
  else "variable".

(** The keys looked up for one instruction, in the order of the lookups:
    the opcode, the type, then the operands. *)
Definition lookup_keys (I : Instruction) : list string :=
  getOpcodeName I :: type_key (Instruction_getType I)
    :: map operand_key (operands I).

(** What a lookup contributes: the entry of the key, or the zero vector. *)
Definition entry_or_zero (this : Embedder.t) (Key : string) : Embedding :=
  default (Embedding_zero (N.to_nat (Embedder.Dimension this)))
          (Vocab_find Key (Embedder.Vocabulary this)).

(** Whether the vocabulary has no entry for the key. *)
Definition missing (this : Embedder.t) (Key : string) : bool :=
  match Vocab_find Key (Embedder.Vocabulary this) with
  | Some _ => false
  | None => true
  end.

(** The number of keys of a list that the vocabulary does not have,
    counted with their repetitions. *)
Definition misses (this : Embedder.t) (Keys : list string) : N :=
  N.of_nat (length (List.filter (missing this) Keys)).

(** Whether what a lookup of the key yields has the dimension of the
    engine; the zero vector of a key that is not there has it. *)
Definition fits (this : Embedder.t) (Key : string) : bool :=
  bool_decide (length (entry_or_zero this Key)
               = N.to_nat (Embedder.Dimension this)).

(** A lookup and the addition of what it yields: the step that
    [computeEmbeddings(BB)] repeats for the opcode, the type and every
    operand of an instruction. *)
Definition lookup_step (this : Embedder.t) (InstVector : Embedding)
    (Key : string) : M Embedding :=
  Vec <- Embedder.lookupVocab this Key ;;
  lift (Embedding_add_assign InstVector Vec).

(** The instructions of a block that [instructionsWithoutDebug] keeps. *)
Definition countedInstructions (Block : BasicBlock) : list Instruction :=
  List.filter (fun I => negb (isDebugOrPseudoInst I)) (instructions Block).

(** The instruction at position [i] of a block, when
    [instructionsWithoutDebug] keeps it. *)
Definition counted_at (Block : BasicBlock) (i : nat) : option Instruction :=
  match instructions Block !! i with
  | Some Inst => if isDebugOrPseudoInst Inst then None else Some Inst
  | None => None
  end.

(** The vector of an instruction: the sum, from the zero vector, of what
    its lookups contribute, in their order. *)
Definition instruction_embedding (this : Embedder.t) (I : Instruction)
  : Embedding :=
  foldl plus (Embedding_zero (N.to_nat (Embedder.Dimension this)))
        (map (entry_or_zero this) (lookup_keys I)).

(** The vector of a block: the sum, from the zero vector, of the vectors
    of its instructions that are kept, in their order. *)
Definition block_embedding (this : Embedder.t) (Block : BasicBlock)
  : Embedding :=
  foldl plus (Embedding_zero (N.to_nat (Embedder.Dimension this)))
        (map (instruction_embedding this) (countedInstructions Block)).

(** The keys looked up for a block. *)
Definition block_keys (Block : BasicBlock) : list string :=
  concat (map lookup_keys (countedInstructions Block)).

(** The blocks the depth-first walk yields, in its order. *)
Definition walked_blocks (F : Function) : list BasicBlock :=
  (depth_first F).*2.

(** The vector of the function of an engine: the sum, from the zero
    vector, of the vectors of the blocks the walk yields, in its order. *)
Definition function_embedding (this : Embedder.t) : Embedding :=
  foldl plus (Embedding_zero (N.to_nat (Embedder.Dimension this)))
        (map (block_embedding this) (walked_blocks (Embedder.F this))).

(** The keys looked up for a function. *)
Definition function_keys (F : Function) : list string :=
  concat (map block_keys (walked_blocks F)).

(** The engine for another function, against the same vocabulary. *)
Definition with_function (this : Embedder.t) (F : Function) : Embedder.t :=
  Embedder.mk F (Embedder.Vocabulary this) (Embedder.Dimension this)
              (Embedder.OpcWeight this) (Embedder.TypeWeight this)
              (Embedder.ArgWeight this).

(** The function with the block at [B] replaced. *)
Definition replace_block (F : Function) (B : BasicBlockAddr)
    (Block : BasicBlock) : Function :=
  mkFunction (<[B := Block]> (blocks F)).

(** The requests an engine answers: the three accessors without argument
    and [getBBVector] for a block, given by its address and what it
    holds.  [getBBVector] takes the block by reference and never looks at
    the function of the engine, so the block of a request is any block,
    of that function or not. *)
Inductive Request : Type :=
| Request_getInstVecMap
| Request_getBBVecMap
| Request_getFunctionVector
| Request_getBBVector (BB : BasicBlockAddr) (Block : BasicBlock).

Definition request (this : Embedder.t) (_ : unit) (r : Request) : M unit :=
  match r with
  | Request_getInstVecMap => _ <- Embedder.getInstVecMap this ;; ret tt
  | Request_getBBVecMap => _ <- Embedder.getBBVecMap this ;; ret tt
  | Request_getFunctionVector => _ <- Embedder.getFunctionVector this ;; ret tt
  | Request_getBBVector BB Block =>
      _ <- Embedder.getBBVector this BB Block ;; ret tt
  end.

(** A sequence of requests, in order. *)
Definition requests (this : Embedder.t) (l : list Request) : M unit :=
  for_each l (request this) tt.

(** The order of the keys of a vocabulary, which is that of
    [std::string]: byte by byte, a proper prefix first. *)
Definition key_lt (Entry1 Entry2 : string * Embedding) : Prop :=
  String.ltb Entry1.1 Entry2.1 = true.

(** The keys of a vocabulary increase strictly, as [std::map] keeps
    them. *)
Definition key_sorted (V : Vocab) : Prop := StronglySorted key_lt V.

(* ===================================================================== *)
(** ** The printer passes *)
(* ===================================================================== *)

(** Modelled from the spec: what is written to a [raw_ostream], in order:
    a piece of text, a [double] through [format("%.2f", ...)] of
    [llvm/Support/Format.h], or an instruction through
    [Instruction::print]; how the last two are rendered is the business of
    the support library and of the IR printer. *)
Inductive Output : Type :=
| Out_text (s : string)
| Out_format_2f (Elem : float)
| Out_Instruction (I : Instruction).

(** The line feed that ends the lines of the printers. *)
Definition LF : string := String (Ascii.ascii_of_nat 10) EmptyString.

(** [Embedding::print]. *)
Definition Embedding_print (this : Embedding) : list Output :=
  [Out_text " ["]
  ++ flat_map (fun Elem => [Out_text " "; Out_format_2f Elem; Out_text " "])
              this
  ++ [Out_text ("]" +:+ LF)].

(** Modelled from the spec: a function of an [llvm::Module] as the printer
    reads it: the name of the function, the function, and the names of its
    basic blocks, by address. *)
Record ModuleFunction : Type := mkModuleFunction {
  Function_getName : string;
  Function_of : Function;
  BasicBlock_getName : BasicBlockAddr -> string
}.

Module IR2VecPrinterPass.

(** The loop over the blocks of the function: a block is printed when the
    block map has it. *)
Definition print_blocks (F : ModuleFunction)
    (find : BasicBlockAddr -> option Embedding) : list Output :=
  flat_map
    (fun BB : BasicBlockAddr * BasicBlock =>
       match find BB.1 with
       | Some Vec =>
           [Out_text "Basic block: "; Out_text (BasicBlock_getName F BB.1);
            Out_text (":" +:+ LF)]
           ++ Embedding_print Vec
       | None => []
       end)
    (imap (fun N Block => (N, Block)) (blocks (Function_of F))).

(** The loop over the instructions of the blocks of the function: an
    instruction is printed when the instruction map has it. *)
Definition print_instructions (F : ModuleFunction)
    (find : InstructionAddr -> option Embedding) : list Output :=
  flat_map
    (fun BB : BasicBlockAddr * BasicBlock =>
       flat_map
         (fun NI : nat * Instruction =>
            match find (BB.1, NI.1) with
            | Some Vec =>
                [Out_text "Instruction: "; Out_Instruction NI.2]
                ++ Embedding_print Vec
            | None => []
            end)
         (imap (fun N Inst => (N, Inst)) (instructions BB.2)))
    (imap (fun N Block => (N, Block)) (blocks (Function_of F))).

(** The body of the loop over the functions of the module: what has been
    written so far and the statistic, before and after. *)
Definition print_function (Opts : ir2vec.Options) (Vocab : Vocab)
    (OS : list Output) (Counter : N) (F : ModuleFunction)
  : outcome (list Output * N) :=
  outcome_bind
    (Embedder_create Opts Symbolic (Function_of F) Vocab Counter)
    (fun Emb =>
  match Emb with
  | None =>
      Ok (OS ++ [Out_text ("Error creating IR2Vec embeddings " +:+ LF)],
          Counter)
  | Some (Emb, s) =>
      let OS :=
        OS ++ [Out_text "IR2Vec embeddings for function ";
               Out_text (Function_getName F); Out_text (":" +:+ LF)] in
      let OS := OS ++ [Out_text "Function vector: "] in
      outcome_bind (Embedder.getFunctionVector Emb s) (fun '(FuncVec, s) =>
      let OS := OS ++ Embedding_print (load FuncVec s) in
      let OS := OS ++ [Out_text ("Basic block vectors:" +:+ LF)] in
      outcome_bind (Embedder.getBBVecMap Emb s) (fun '(BBMap, s) =>
      let OS := OS ++ print_blocks F (fun BB => load BBMap s !! BB) in
      let OS := OS ++ [Out_text ("Instruction vectors:" +:+ LF)] in
      outcome_bind (Embedder.getInstVecMap Emb s) (fun '(InstMap, s) =>
      let OS := OS ++ print_instructions F (fun I => load InstMap s !! I) in
      Ok (OS, VocabMissCounter s))))
  end).

(** The loop over the functions of the module. *)
Fixpoint print_functions (Opts : ir2vec.Options) (Vocab : Vocab)
    (M : list ModuleFunction) (OS : list Output) (Counter : N)
  : outcome (list Output * N) :=
  match M with
  | [] => Ok (OS, Counter)
  | F :: M' =>
      outcome_bind (print_function Opts Vocab OS Counter F)
        (fun '(OS, Counter) => print_functions Opts Vocab M' OS Counter)
  end.

(** [IR2VecPrinterPass::run]: what is written to the stream, and the
    statistic afterwards; [Result] is the result the analysis
    manager hands out. *)
Definition run (Opts : ir2vec.Options) (Result : IR2VecVocabResult)
    (M : list ModuleFunction) (Counter : N) : outcome (list Output * N) :=
  if Valid Result
  then outcome_bind (getVocabulary Result) (fun Vocab =>
         print_functions Opts Vocab M [] Counter)
  else Crash AssertionFailure.

End IR2VecPrinterPass.

Module IR2VecVocabPrinterPass.

(** [IR2VecVocabPrinterPass::run]: what is written to the stream. *)
Definition run (Result : IR2VecVocabResult)
  : outcome (list Output) :=
  if Valid Result
  then outcome_bind (getVocabulary Result) (fun Vocab =>
         Ok (flat_map
               (fun Entry : string * Embedding =>
                  [Out_text "Key: "; Out_text Entry.1; Out_text ": "]
                  ++ Embedding_print Entry.2)
               Vocab))
  else Crash AssertionFailure.

End IR2VecVocabPrinterPass.

(** The engine [Embedder::create] builds for a function against a
    vocabulary that has an entry. *)
Definition engine_of (Opts : ir2vec.Options) (Vocab : Vocab) (F : Function)
  : Embedder.t :=
  Embedder.mk F Vocab
    (match Vocab_begin Vocab with
     | Some (_, First) => unsigned_of_size (length First)
     | None => 0%N
     end)
    (ir2vec.OpcWeight Opts) (ir2vec.TypeWeight Opts) (ir2vec.ArgWeight Opts).

(** The vector the printer is to find for a block, and for an
    instruction: that of the embedding when the block is one the walk
    yields and the instruction one that is not skipped, none otherwise. *)
Definition expected_BBVec (this : Embedder.t) (BB : BasicBlockAddr)
  : option Embedding :=
  match blocks (Embedder.F this) !! BB with
  | Some Block =>
      if bool_decide (BB ∈ df_order (Embedder.F this))
      then Some (block_embedding this Block)
      else None
  | None => None
  end.

Definition expected_InstVec (this : Embedder.t) (Inst : InstructionAddr)
  : option Embedding :=
  match blocks (Embedder.F this) !! Inst.1 with
  | Some Block =>
      if bool_decide (Inst.1 ∈ df_order (Embedder.F this))
      then instruction_embedding this <$> counted_at Block Inst.2
      else None
  | None => None
  end.

(** What the printer is to write for one function. *)
Definition report (Opts : ir2vec.Options) (Vocab : Vocab)
    (F : ModuleFunction) : list Output :=
  let this := engine_of Opts Vocab (Function_of F) in
  [Out_text "IR2Vec embeddings for function ";
   Out_text (Function_getName F); Out_text (":" +:+ LF);
   Out_text "Function vector: "]
  ++ Embedding_print (function_embedding this)
  ++ [Out_text ("Basic block vectors:" +:+ LF)]
  ++ IR2VecPrinterPass.print_blocks F (expected_BBVec this)
  ++ [Out_text ("Instruction vectors:" +:+ LF)]
  ++ IR2VecPrinterPass.print_instructions F (expected_InstVec this).

(* ===================================================================== *)
(** ** Documents up to the order of the members *)
(* ===================================================================== *)

(** Two documents that differ at most in the order in which their
    objects, which have no two members of the same key, list their
    members. *)
Inductive reordered : json.Value -> json.Value -> Prop :=
| reordered_same V : reordered V V
| reordered_Object Members Members' :
    NoDup Members.*1 ->
    Members.*1 ≡ₚ Members'.*1 ->
    (forall Key V V',
        json.get Key Members = Some V -> json.get Key Members' = Some V' ->
        reordered V V') ->
    reordered (json.Object Members) (json.Object Members').

(* ===================================================================== *)
(** ** Further sample inputs *)
(* ===================================================================== *)

Module Fixtures.

(** A debug record, which [instructionsWithoutDebug] skips. *)
Definition DbgValue : Instruction :=
  mkInstruction "call"
    (mkType true false false false false false false false false false false
            false)
    [Samples.VariableOp] true.

(** The block of [Samples.SingleBlock], and the same block with debug
    records around its instruction. *)
Definition Plain : BasicBlock := mkBasicBlock [Samples.AddInst] [].

Definition WithDebug : BasicBlock :=
  mkBasicBlock [DbgValue; Samples.AddInst; DbgValue] [].

(** A block that branches to the entry, to stand in the place of the
    third block of [Samples.WithUnreachable]. *)
Definition Other : BasicBlock := mkBasicBlock [DbgValue] [0; 1].

(** An instruction whose opcode the vocabulary of the examples does not
    have. *)
Definition FooInst : Instruction :=
  mkInstruction "foo" Samples.IntegerTy [Samples.VariableOp] false.

(** A vocabulary whose first entry has three numbers and whose other
    entries have two. *)
Definition RaggedVocabulary : Vocab :=
  [("add", [1%float; 0%float; 0%float]);
   ("integerTy", [0%float; 1%float]);
   ("variable", [0%float; 1%float])].

(** A module of two functions: one with an unreachable block, and an
    external declaration. *)
Definition TwoFunctions : list ModuleFunction :=
  [mkModuleFunction "f" Samples.WithUnreachable (fun _ => "bb");
   mkModuleFunction "g" Samples.ExternalDecl (fun _ => "")].

(** A document with two entries in its [Types] section, and the same
    document with its first two sections and these two entries listed in
    the other order. *)
Definition TypesMembers : list (string * json.Value) :=
  [("integerTy", Samples.numbers [2%float; 4%float]);
   ("floatTy", Samples.numbers [6%float; 8%float])].

Definition TwoTypesRoot : list (string * json.Value) :=
  [("Opcodes", json.Object [("add", Samples.numbers [1%float; 0%float])]);
   ("Types", json.Object TypesMembers);
   ("Arguments",
    json.Object [("variable", Samples.numbers [0%float; 5%float])])].

Definition TwoTypes : json.Value := json.Object TwoTypesRoot.

Definition TwoTypesReordered : json.Value :=
  json.Object
    [("Types",
      json.Object
        [("floatTy", Samples.numbers [6%float; 8%float]);
         ("integerTy", Samples.numbers [2%float; 4%float])]);
     ("Opcodes", json.Object [("add", Samples.numbers [1%float; 0%float])]);
     ("Arguments",
      json.Object [("variable", Samples.numbers [0%float; 5%float])])].

(** [Samples.RaggedDoc] with one more member, which is no section and is
    the empty object. *)
Definition RaggedWithComment : json.Value :=
  json.Object
    [("Comment", json.Object []);
     ("Opcodes",
      json.Object [("add", Samples.numbers [1%float; 0%float; 0%float])]);
     ("Types",
      json.Object
        [("integerTy", Samples.numbers [1%float; 2%float; 3%float]);
         ("floatTy", Samples.numbers [1%float; 2%float; 3%float; 4%float])]);
     ("Arguments",
      json.Object
        [("variable", Samples.numbers [0%float; 5%float; 0%float])])].

End Fixtures.

(* ===================================================================== *)
(** ** The vocabulary reader without checked iterators *)
(* ===================================================================== *)

(** At line 297 [parseVocabSection] reads the size of the first entry of
    the decoded map.  For a map without entry the read goes through the
    end iterator: [IR2VecVocabAnalysis.parseVocabSection] ends the run
    there, as a standard library with checked iterators does.  Without
    such checks the run goes on with whatever the read has produced.  The
    procedures of this module are those of [IR2VecVocabAnalysis] with that
    one difference: the read of the first entry of an empty map for the
    section [Key] yields the size [Stray Key], which nothing determines.
    What is stated about them is stated for every [Stray]. *)
Module Unchecked.

Definition parseVocabSection (Stray : string -> nat) (Key : string)
    (ParsedVocabValue : json.Value) (TargetVocab : Vocab) (Dim : N)
  : Error * Vocab * N :=
  match json.getAsObject ParsedVocabValue with
  | None =>
      (StringError invalid_argument "JSON root is not an object",
       TargetVocab, Dim)
  | Some RootObj =>
      match json.get Key RootObj with
      | None =>
          (StringError invalid_argument
             ("Missing '" +:+ Key +:+ "' section in vocabulary file"),
           TargetVocab, Dim)
      | Some SectionValue =>
          let '(Decoded, TargetVocab) :=
            json.fromJSON_map SectionValue TargetVocab in
          if negb Decoded
          then (StringError illegal_byte_sequence
                  ("Unable to parse '" +:+ Key
                   +:+ "' section from vocabulary"),
                TargetVocab, Dim)
          else
            let Dim :=
              match Vocab_begin TargetVocab with
              | None => unsigned_of_size (Stray Key)
              | Some (_, First) => unsigned_of_size (length First)
              end in
            if (Dim =? 0)%N
            then (StringError illegal_byte_sequence
                    ("Dimension of '" +:+ Key
                     +:+ "' section of the vocabulary is zero"),
                  TargetVocab, Dim)
            else if negb (forallb
                            (fun Entry : string * Embedding =>
                               (N.of_nat (length Entry.2) =? Dim)%N)
                            TargetVocab)
            then (StringError illegal_byte_sequence
                    ("All vectors in the '" +:+ Key
                     +:+ "' section of the vocabulary are not of the same dimension"),
                  TargetVocab, Dim)
            else (Error_success, TargetVocab, Dim)
      end
  end.

Definition readVocabulary (Stray : string -> nat) (H : Host)
    (Opts : ir2vec.Options) (Vocabulary : Vocab) : Error * Vocab :=
  match getFileOrSTDIN H (ir2vec.VocabFile Opts) with
  | inl EC => (FileError (ir2vec.VocabFile Opts) EC, Vocabulary)
  | inr Content =>
      match json_parse H Content with
      | inl Msg => (ParseError Msg, Vocabulary)
      | inr ParsedVocabValue =>
          let '(Err, OpcodeVocab, OpcodeDim) :=
            parseVocabSection Stray "Opcodes" ParsedVocabValue [] 0 in
          if Error_to_bool Err then (Err, Vocabulary) else
          let '(Err, TypeVocab, TypeDim) :=
            parseVocabSection Stray "Types" ParsedVocabValue [] 0 in
          if Error_to_bool Err then (Err, Vocabulary) else
          let '(Err, ArgVocab, ArgDim) :=
            parseVocabSection Stray "Arguments" ParsedVocabValue [] 0 in
          if Error_to_bool Err then (Err, Vocabulary) else
          if negb ((OpcodeDim =? TypeDim)%N && (TypeDim =? ArgDim)%N)
          then (StringError illegal_byte_sequence
                  "Vocabulary sections have different dimensions",
                Vocabulary)
          else
            let OpcodeVocab :=
              IR2VecVocabAnalysis.scaleVocabSection
                OpcodeVocab (ir2vec.OpcWeight Opts) in
            let TypeVocab :=
              IR2VecVocabAnalysis.scaleVocabSection
                TypeVocab (ir2vec.TypeWeight Opts) in
            let ArgVocab :=
              IR2VecVocabAnalysis.scaleVocabSection
                ArgVocab (ir2vec.ArgWeight Opts) in
            let Vocabulary := Vocab_insert_range Vocabulary OpcodeVocab in
            let Vocabulary := Vocab_insert_range Vocabulary TypeVocab in
            let Vocabulary := Vocab_insert_range Vocabulary ArgVocab in
            (Error_success, Vocabulary)
      end
  end.

Definition run (Stray : string -> nat) (H : Host) (Opts : ir2vec.Options)
    (Vocabulary : Vocab) : IR2VecVocabResult * list Diagnostic :=
  if negb (Vocab_empty Vocabulary)
  then (IR2VecVocabResult_of Vocabulary, [])
  else if String.eqb (ir2vec.VocabFile Opts) ""
  then (IR2VecVocabResult_invalid,
        [Diag_message "IR2Vec vocabulary file path not specified"])
  else
    let '(Err, Vocabulary) := readVocabulary Stray H Opts Vocabulary in
    if Error_to_bool Err
    then (IR2VecVocabResult_invalid, [Diag_reading Err])
    else (IR2VecVocabResult_of Vocabulary, []).

End Unchecked.

(* ===================================================================== *)
(** ** The function vector over a sequence of requests *)
(* ===================================================================== *)





(* ===================================================================== *)
(** ** Facts about [Vocab] *)
(* ===================================================================== *)

Section VocabFacts.

Implicit Types (V R : Vocab) (Key k : string) (E v : Embedding).

Lemma Vocab_find_emplace_eq Key E V :
  Vocab_find Key V = None ->
  Vocab_find Key (Vocab_emplace Key E V) = Some E.
Proof.
  induction V as [|[k v] V IH]; simpl.
  - by rewrite String.eqb_refl.
  - destruct (String.eqb k Key) eqn:Hk; [done|]. intros Hf.
    destruct (String.ltb Key k); simpl.
    + by rewrite String.eqb_refl.
    + rewrite Hk. by apply IH.
Qed.

Lemma Vocab_find_emplace_ne Key k E V :
  Key ≠ k -> Vocab_find k (Vocab_emplace Key E V) = Vocab_find k V.
Proof.
  intros Hne. induction V as [|[k' v] V IH]; simpl.
  - by apply String.eqb_neq in Hne as ->.
  - destruct (String.ltb Key k'); simpl.
    + by apply String.eqb_neq in Hne as ->.
    + by rewrite IH.
Qed.

Lemma Vocab_find_insert Key E V k :
  Vocab_find k (Vocab_insert (Key, E) V) =
  match Vocab_find k V with
  | Some v => Some v
  | None => if String.eqb Key k then Some E else None
  end.
Proof.
  unfold Vocab_insert; simpl.
  destruct (String.eqb Key k) eqn:Hk.
  - apply String.eqb_eq in Hk; subst k.
    destruct (Vocab_find Key V) eqn:Hf; [by rewrite Hf|].
    by rewrite Vocab_find_emplace_eq.
  - apply String.eqb_neq in Hk.
    destruct (Vocab_find Key V); [by destruct (Vocab_find k V)|].
    rewrite Vocab_find_emplace_ne by done. by destruct (Vocab_find k V).
Qed.

(** Merging a range keeps what is there and adds, for a new key, the first
    entry of the range with that key. *)
Lemma Vocab_find_insert_range V R k :
  Vocab_find k (Vocab_insert_range V R) =
  match Vocab_find k V with
  | Some v => Some v
  | None => Vocab_find k R
  end.
Proof.
  revert V. induction R as [|[Key E] R IH]; intros V; simpl.
  - by destruct (Vocab_find k V).
  - unfold Vocab_insert_range in *; simpl. rewrite IH, Vocab_find_insert.
    destruct (Vocab_find k V); [done|].
    by destruct (String.eqb Key k).
Qed.

Lemma Vocab_find_scaleVocabSection V (Weight : float) k :
  Vocab_find k (IR2VecVocabAnalysis.scaleVocabSection V Weight) =
  (fun v => Embedding_mul_assign v Weight) <$> Vocab_find k V.
Proof.
  induction V as [|[k' v] V IH]; simpl; [done|].
  by destruct (String.eqb k' k).
Qed.

Lemma Vocab_find_Some_elem V k v :
  Vocab_find k V = Some v -> (k, v) ∈ V.
Proof.
  induction V as [|[k' v'] V IH]; simpl; [done|].
  destruct (String.eqb k' k) eqn:Hk.
  - apply String.eqb_eq in Hk. intros [= ->]. subst. by left.
  - intros Hf. right. by apply IH.
Qed.

Lemma Vocab_insert_range_nonempty V R :
  V ≠ [] ∨ R ≠ [] -> Vocab_insert_range V R ≠ [].
Proof.
  intros Hne Hnil.
  destruct Hne as [Hne|Hne].
  - destruct V as [|[k v] V]; [done|].
    pose proof (Vocab_find_insert_range ((k, v) :: V) R k) as Hf.
    rewrite Hnil in Hf. simpl in Hf. by rewrite String.eqb_refl in Hf.
  - destruct R as [|[k v] R]; [done|].
    pose proof (Vocab_find_insert_range V ((k, v) :: R) k) as Hf.
    rewrite Hnil in Hf. simpl in Hf. rewrite String.eqb_refl in Hf.
    by destruct (Vocab_find k V).
Qed.

End VocabFacts.

(* ===================================================================== *)
(** ** Facts about the vocabulary reader *)
(* ===================================================================== *)

Lemma fromJSON_map_decoded SectionValue T0 T :
  json.fromJSON_map SectionValue T0 = (true, T) ->
  json.fromJSON_map SectionValue [] = (true, T).
Proof.
  unfold json.fromJSON_map. by destruct (json.getAsObject SectionValue).
Qed.

Lemma forallb_dimension (T : Vocab) (Dim : N) :
  forallb (fun Entry : string * Embedding =>
             (N.of_nat (length Entry.2) =? Dim)%N) T = true ->
  Forall (fun Entry : string * Embedding => N.of_nat (length Entry.2) = Dim) T.
Proof.
  intros Hall. apply Forall_forall. intros Entry Hin.
  rewrite forallb_forall in Hall.
  apply N.eqb_eq, Hall. by apply list_elem_of_In.
Qed.

Lemma parseVocabSection_success Key Doc T0 D0 T Dim :
  IR2VecVocabAnalysis.parseVocabSection Key Doc T0 D0
    = Ok (Error_success, T, Dim) ->
  decoded_section Key Doc = Some T /\ accepted T Dim.
Proof.
  unfold IR2VecVocabAnalysis.parseVocabSection, decoded_section.
  destruct (json.getAsObject Doc) as [RootObj|]; [|done].
  destruct (json.get Key RootObj) as [SectionValue|]; [|done].
  destruct (json.fromJSON_map SectionValue T0) as [Decoded T1] eqn:Hdec.
  destruct Decoded; simpl; [|done].
  rewrite (fromJSON_map_decoded _ _ _ Hdec).
  destruct (Vocab_begin T1) as [[k First]|] eqn:Hbegin; [|done].
  destruct (unsigned_of_size (length First) =? 0)%N eqn:Hzero; [done|].
  destruct (forallb _ T1) eqn:Hall; simpl; [|done].
  intros [= <- <-]. split; [done|]. split; [by eauto|].
  split; [by apply N.eqb_neq|by apply forallb_dimension].
Qed.

(** The shape of every successful run of [readVocabulary]. *)
Lemma readVocabulary_success H Opts V0 V' :
  IR2VecVocabAnalysis.readVocabulary H Opts V0 = Ok (Error_success, V') ->
  exists Content Doc Opc Ty Arg Dim,
    getFileOrSTDIN H (ir2vec.VocabFile Opts) = inr Content /\
    json_parse H Content = inr Doc /\
    decoded_section "Opcodes" Doc = Some Opc /\
    decoded_section "Types" Doc = Some Ty /\
    decoded_section "Arguments" Doc = Some Arg /\
    accepted Opc Dim /\ accepted Ty Dim /\ accepted Arg Dim /\
    V' = Vocab_insert_range
           (Vocab_insert_range
              (Vocab_insert_range V0
                 (IR2VecVocabAnalysis.scaleVocabSection
                    Opc (ir2vec.OpcWeight Opts)))
              (IR2VecVocabAnalysis.scaleVocabSection
                 Ty (ir2vec.TypeWeight Opts)))
           (IR2VecVocabAnalysis.scaleVocabSection
              Arg (ir2vec.ArgWeight Opts)).
Proof.
  unfold IR2VecVocabAnalysis.readVocabulary.
  destruct (getFileOrSTDIN H _) as [EC|Content] eqn:Hfile; [done|].
  destruct (json_parse H Content) as [Msg|Doc] eqn:Hparse; [done|].
  destruct (IR2VecVocabAnalysis.parseVocabSection "Opcodes" Doc [] 0)
    as [[[E1 Opc] D1]|] eqn:H1; simpl; [|done].
  destruct E1; simpl; try done.
  destruct (IR2VecVocabAnalysis.parseVocabSection "Types" Doc [] 0)
    as [[[E2 Ty] D2]|] eqn:H2; simpl; [|done].
  destruct E2; simpl; try done.
  destruct (IR2VecVocabAnalysis.parseVocabSection "Arguments" Doc [] 0)
    as [[[E3 Arg] D3]|] eqn:H3; simpl; [|done].
  destruct E3; simpl; try done.
  destruct (D1 =? D2)%N eqn:H12; simpl; [|intros [=]].
  destruct (D2 =? D3)%N eqn:H23; simpl; [|intros [=]].
  apply N.eqb_eq in H12, H23. subst D2 D3.
  intros [= <-].
  apply parseVocabSection_success in H1 as [? ?], H2 as [? ?], H3 as [? ?].
  exists Content, Doc, Opc, Ty, Arg, D1. by split_and!.
Qed.

Lemma accepted_nonempty T Dim : accepted T Dim -> T ≠ [].
Proof. intros [(k & First & Hbegin & _) _] ->. done. Qed.

(** Where a key of the merged vocabulary comes from, when loading starts
    from the empty vocabulary. *)
Lemma Vocab_find_merged Opc Ty Arg (wo wt wa : float) k :
  Vocab_find k
    (Vocab_insert_range
       (Vocab_insert_range
          (Vocab_insert_range []
             (IR2VecVocabAnalysis.scaleVocabSection Opc wo))
          (IR2VecVocabAnalysis.scaleVocabSection Ty wt))
       (IR2VecVocabAnalysis.scaleVocabSection Arg wa)) =
  match Vocab_find k Opc with
  | Some v => Some (Embedding_mul_assign v wo)
  | None =>
      match Vocab_find k Ty with
      | Some v => Some (Embedding_mul_assign v wt)
      | None => (fun v => Embedding_mul_assign v wa) <$> Vocab_find k Arg
      end
  end.
Proof.
  rewrite !Vocab_find_insert_range, !Vocab_find_scaleVocabSection. simpl.
  destruct (Vocab_find k Opc); simpl; [done|].
  by destruct (Vocab_find k Ty).
Qed.

(* ===================================================================== *)
(** ** Facts about the depth-first walk *)
(* ===================================================================== *)

Section DepthFirst.

Variable F : Function.

Let N := length (blocks F).

Lemma successors_lt B Succ : Succ ∈ successors F B -> Succ < N.
Proof.
  unfold successors. destruct (blocks F !! B) as [BB|]; [|by intros ?%elem_of_nil].
  intros Hin%list_elem_of_In%List.filter_In. destruct Hin as [_ Hlt].
  by apply Nat.ltb_lt in Hlt.
Qed.

Lemma sum_filter_visit (w : nat -> nat) (U Visited : list nat) B :
  NoDup U -> B ∈ U -> B ∉ Visited ->
  sum_list (map w (filter (fun x => x ∉ Visited) U)) =
  sum_list (map w (filter (fun x => x ∉ Visited ++ [B]) U)) + w B.
Proof.
  intros Hnd Hin Hfresh.
  assert (Hsnoc : forall x, x ∉ Visited ++ [B] <-> (x ∉ Visited) /\ (x ≠ B)).
  { intros x. rewrite elem_of_app, list_elem_of_singleton. tauto. }
  assert (Hother : forall l : list nat, B ∉ l ->
            filter (fun x => x ∉ Visited ++ [B]) l =
            filter (fun x => x ∉ Visited) l).
  { intros l Hl. induction l as [|y l IH]; [done|].
    apply not_elem_of_cons in Hl as [Hy Hl].
    destruct (decide (y ∈ Visited)) as [Hv|Hv].
    - rewrite !filter_cons_False by (rewrite ?Hsnoc; tauto). by apply IH.
    - rewrite !filter_cons_True by (rewrite ?Hsnoc; auto). by rewrite IH. }
  induction U as [|x U IH]; [by apply elem_of_nil in Hin|].
  apply NoDup_cons in Hnd as [Hx Hnd].
  apply elem_of_cons in Hin as [<-|Hin].
  - rewrite filter_cons_True by done.
    rewrite (filter_cons_False _ B) by (rewrite Hsnoc; tauto).
    rewrite (Hother U Hx). simpl. lia.
  - assert (x ≠ B) as Hne by (intros ->; done).
    destruct (decide (x ∈ Visited)) as [Hv|Hv].
    + rewrite !filter_cons_False by (rewrite ?Hsnoc; tauto). by apply IH.
    + rewrite !filter_cons_True by (rewrite ?Hsnoc; auto).
      simpl. rewrite IH by done. lia.
Qed.

Lemma potential_visit Visited B :
  B < N -> B ∉ Visited ->
  potential F Visited = potential F (Visited ++ [B]) + S (length (successors F B)).
Proof.
  intros Hlt Hfresh. unfold potential. fold N.
  apply (sum_filter_visit (fun B => S (length (successors F B)))); [|  |done].
  - apply NoDup_seq.
  - apply elem_of_seq. lia.
Qed.

Lemma potential_nil :
  potential F [] =
  sum_list (map (fun B => S (length (successors F B))) (seq 0 N)).
Proof.
  unfold potential. fold N. f_equal. f_equal.
  induction (seq 0 N) as [|x l IHl]; [done|].
  rewrite filter_cons_True by apply not_elem_of_nil. by rewrite IHl.
Qed.

Lemma df_walk_mono Fuel Pending Visited B :
  B ∈ Visited -> B ∈ df_walk F Fuel Pending Visited.
Proof.
  revert Pending Visited.
  induction Fuel as [|Fuel IH]; intros Pending Visited Hin; simpl; [done|].
  destruct Pending as [|P Pending]; [done|].
  case_bool_decide; apply IH; [done|].
  apply elem_of_app. by left.
Qed.

Lemma df_walk_NoDup Fuel Pending Visited :
  NoDup Visited -> NoDup (df_walk F Fuel Pending Visited).
Proof.
  revert Pending Visited.
  induction Fuel as [|Fuel IH]; intros Pending Visited Hnd; simpl; [done|].
  destruct Pending as [|P Pending]; [done|].
  case_bool_decide; apply IH; [done|].
  apply NoDup_app. split_and!; [done| |apply NoDup_singleton].
  intros x Hx ->%list_elem_of_singleton. done.
Qed.

(** Everything the walk yields satisfies a property that holds of the
    blocks it starts from and is passed on to successors. *)
Lemma df_walk_sound (R : BasicBlockAddr -> Prop) Fuel Pending Visited :
  (forall B Succ, R B -> Succ ∈ successors F B -> R Succ) ->
  (forall B, B ∈ Pending -> R B) ->
  (forall B, B ∈ Visited -> R B) ->
  forall B, B ∈ df_walk F Fuel Pending Visited -> R B.
Proof.
  intros Hstep. revert Pending Visited.
  induction Fuel as [|Fuel IH]; intros Pending Visited HP HV; simpl; [done|].
  destruct Pending as [|P Pending]; [done|].
  case_bool_decide.
  - apply IH; [|done]. intros B HB. apply HP. by right.
  - apply IH.
    + intros B [HB|HB]%elem_of_app.
      * apply (Hstep P); [|done]. apply HP. by left.
      * apply HP. by right.
    + intros B [HB|HB%list_elem_of_singleton]%elem_of_app; [by apply HV|].
      subst B. apply HP. by left.
Qed.

(** With enough fuel the walk yields every pending block and is closed
    under successors. *)
Lemma df_walk_complete Fuel Pending Visited :
  potential F Visited + length Pending <= Fuel ->
  (forall B, B ∈ Pending -> B < N) ->
  (forall B Succ, B ∈ Visited -> Succ ∈ successors F B ->
                  Succ ∈ Visited \/ Succ ∈ Pending) ->
  let W := df_walk F Fuel Pending Visited in
  (forall B, B ∈ Pending -> B ∈ W) /\
  (forall B Succ, B ∈ W -> Succ ∈ successors F B -> Succ ∈ W).
Proof.
  revert Pending Visited.
  induction Fuel as [|Fuel IH]; intros Pending Visited Hfuel Hlt Hinv; simpl.
  - destruct Pending as [|P Pending]; [|simpl in Hfuel; lia].
    split; [by intros B ?%elem_of_nil|].
    intros B Succ HB HS. destruct (Hinv B Succ HB HS) as [?|?%elem_of_nil]; done.
  - destruct Pending as [|P Pending].
    { split; [by intros B ?%elem_of_nil|].
      intros B Succ HB HS.
      destruct (Hinv B Succ HB HS) as [?|?%elem_of_nil]; done. }
    simpl in Hfuel. case_bool_decide as HP.
    + destruct (IH Pending Visited) as [IH1 IH2].
      * lia.
      * intros B HB. apply Hlt. by right.
      * intros B Succ HB HS.
        destruct (Hinv B Succ HB HS) as [?|[->|?]%elem_of_cons]; auto.
      * split; [|done].
        intros B [->|HB]%elem_of_cons; [by apply df_walk_mono|by apply IH1].
    + assert (P < N) as HPlt by (apply Hlt; by left).
      pose proof (potential_visit Visited P HPlt HP) as Hpot.
      destruct (IH (successors F P ++ Pending) (Visited ++ [P])) as [IH1 IH2].
      * rewrite length_app. lia.
      * intros B [HB|HB]%elem_of_app; [by eapply successors_lt|].
        apply Hlt. by right.
      * intros B Succ [HB|HB%list_elem_of_singleton]%elem_of_app HS.
        -- destruct (Hinv B Succ HB HS) as [?|[->|?]%elem_of_cons].
           ++ left. apply elem_of_app. by left.
           ++ left. apply elem_of_app. right. by apply list_elem_of_singleton.
           ++ right. apply elem_of_app. by right.
        -- subst B. right. apply elem_of_app. by left.
      * split; [|done].
        intros B [->|HB]%elem_of_cons.
        -- apply df_walk_mono. apply elem_of_app. right.
           by apply list_elem_of_singleton.
        -- apply IH1. apply elem_of_app. by right.
Qed.

Lemma df_walk_all_visited Fuel Pending Visited :
  (forall B, B ∈ Pending -> B ∈ Visited) ->
  df_walk F Fuel Pending Visited = Visited.
Proof.
  revert Pending. induction Fuel as [|Fuel IH]; intros Pending HP; simpl; [done|].
  destruct Pending as [|P Pending]; [done|].
  rewrite bool_decide_eq_true_2 by (apply HP; by left).
  apply IH. intros B HB. apply HP. by right.
Qed.

Hypothesis has_body : isDeclaration F = false.

Lemma entry_lt : 0 < N.
Proof.
  unfold N. unfold isDeclaration in has_body.
  destruct (blocks F); [done|simpl; lia].
Qed.

Lemma df_order_NoDup : NoDup (df_order F).
Proof. by apply df_walk_NoDup, NoDup_nil. Qed.

Lemma df_order_lt B : B ∈ df_order F -> B < N.
Proof.
  apply (df_walk_sound (fun B => B < N)).
  - intros ? ? _. apply successors_lt.
  - intros ? ->%list_elem_of_singleton. apply entry_lt.
  - by intros ? ?%elem_of_nil.
Qed.

(** The walk yields exactly the blocks reachable from the entry. *)
Lemma df_order_reachable B : B ∈ df_order F <-> reachable F B.
Proof.
  split.
  - apply (df_walk_sound (reachable F)).
    + intros ? ? ? ?. by eapply reachable_step.
    + intros ? ->%list_elem_of_singleton. apply reachable_entry, entry_lt.
    + by intros ? ?%elem_of_nil.
  - destruct (df_walk_complete (df_fuel F) [0] []) as [Hentry Hclosed].
    + rewrite potential_nil. unfold df_fuel. fold N. simpl. lia.
    + intros ? ->%list_elem_of_singleton. apply entry_lt.
    + by intros ? ? ?%elem_of_nil.
    + induction 1 as [|B' Succ Hreach IH HS].
      * apply Hentry. by left.
      * by apply (Hclosed B').
Qed.

Lemma classic_reachable B : reachable F B \/ ¬ reachable F B.
Proof.
  destruct (decide (B ∈ df_order F)) as [Hin|Hout].
  - left. by apply df_order_reachable.
  - right. by rewrite <- df_order_reachable.
Qed.

Lemma depth_first_fst : (depth_first F).*1 = df_order F.
Proof.
  unfold depth_first.
  assert (Hlt : forall B, B ∈ df_order F -> B < N) by apply df_order_lt.
  induction (df_order F) as [|B l IH]; [done|]. simpl.
  destruct (lookup_lt_is_Some_2 (blocks F) B) as [BB HBB].
  { apply Hlt. by left. }
  rewrite HBB. simpl. f_equal. apply IH. intros ? ?. apply Hlt. by right.
Qed.

End DepthFirst.

(* ===================================================================== *)
(** ** Facts about the embedder *)
(* ===================================================================== *)

Lemma bind_Ok {A B : Type} (m : M A) (k : A -> M B) s a s' :
  m s = Ok (a, s') -> bind m k s = k a s'.
Proof. unfold bind. by intros ->. Qed.

Lemma bind_assoc {A B C : Type} (m : M A) (f : A -> M B) (g : B -> M C) s :
  bind (bind m f) g s = bind m (fun a => bind (f a) g) s.
Proof. unfold bind. by destruct (m s) as [[a s']|]. Qed.

Lemma BBVecMap_subscript_present BB v s :
  BBVecMap s !! BB = Some v ->
  BBVecMap_subscript BB s = Ok (Ref_BBVecMap_at BB, s).
Proof. unfold BBVecMap_subscript. by intros ->. Qed.

Lemma modify_Ok (f : Store -> Store) s : modify f s = Ok (tt, f s).
Proof. done. Qed.

Lemma gets_Ok {A : Type} (f : Store -> A) s : gets f s = Ok (f s, s).
Proof. done. Qed.

(** One step of a computation whose first action is known. *)
Lemma bind_eval {A B : Type} (m : M A) (k : A -> M B) s a s' r :
  m s = Ok (a, s') -> k a s' = r -> bind m k s = r.
Proof. unfold bind. by intros -> <-. Qed.

(** Running a straight-line computation, action by action; [leaf] settles
    the actions that are not a [bind]. *)
Ltac meval leaf :=
  lazymatch goal with
  | |- bind _ _ _ = _ => eapply bind_eval; [meval leaf | cbv beta; meval leaf]
  | |- _ => leaf
  end.

Ltac mstep_with H :=
  first [ erewrite (bind_Ok _ _ _ _ _ H)
        | rewrite bind_assoc; mstep_with H ].

Tactic Notation "mstep" uconstr(H) := mstep_with H.

Lemma lift_add_assign (a b : Embedding) s :
  length a = length b ->
  lift (Embedding_add_assign a b) s = Ok (plus a b, s).
Proof.
  intros Hlen. unfold lift, Embedding_add_assign. by rewrite decide_True.
Qed.

Lemma length_plus (a b : Embedding) :
  length a = length b -> length (plus a b) = length a.
Proof. intros Hlen. unfold plus. rewrite length_zip_with. lia. Qed.

Lemma counter_only_refl s : counter_only s s.
Proof. done. Qed.

Lemma counter_only_trans s1 s2 s3 :
  counter_only s1 s2 -> counter_only s2 s3 -> counter_only s1 s3.
Proof.
  intros (? & ? & ?) (? & ? & ?). unfold counter_only. split_and!; congruence.
Qed.

Section EmbedderFacts.

Variable this : Embedder.t.
Hypothesis vocabulary_uniform : uniform this.

Let d := N.to_nat (Embedder.Dimension this).

Lemma lookupVocab_length Key s :
  exists v s',
    Embedder.lookupVocab this Key s = Ok (v, s') /\
    length v = d /\ counter_only s s'.
Proof.
  unfold Embedder.lookupVocab.
  destruct (Vocab_find Key (Embedder.Vocabulary this)) as [v|] eqn:Hfind.
  - exists v, s. split_and!; [done| |done].
    apply Vocab_find_Some_elem in Hfind.
    unfold uniform in vocabulary_uniform.
    rewrite Forall_forall in vocabulary_uniform.
    apply (vocabulary_uniform _ Hfind).
  - eexists _, _. split_and!; [reflexivity| |done].
    apply length_replicate.
Qed.

Lemma getTypeEmbedding_length Ty s :
  exists v s',
    SymbolicEmbedder.getTypeEmbedding this Ty s = Ok (v, s') /\
    length v = d /\ counter_only s s'.
Proof.
  unfold SymbolicEmbedder.getTypeEmbedding.
  repeat match goal with
         | |- context [if ?b then _ else _] => destruct b
         end; apply lookupVocab_length.
Qed.

Lemma getOperandEmbedding_length Op s :
  exists v s',
    SymbolicEmbedder.getOperandEmbedding this Op s = Ok (v, s') /\
    length v = d /\ counter_only s s'.
Proof.
  unfold SymbolicEmbedder.getOperandEmbedding.
  repeat match goal with
         | |- context [if ?b then _ else _] => destruct b
         end; apply lookupVocab_length.
Qed.

Lemma operands_length Ops : forall InstVector s,
  length InstVector = d ->
  exists v s',
    for_each Ops (SymbolicEmbedder.operand_step this) InstVector s
      = Ok (v, s') /\
    length v = d /\ counter_only s s'.
Proof.
  induction Ops as [|Op Ops IH]; intros InstVector s Hlen; simpl.
  - by exists InstVector, s.
  - destruct (getOperandEmbedding_length Op s) as (o & s1 & Hop & Hlo & Hc1).
    unfold SymbolicEmbedder.operand_step at 1.
    mstep Hop. mstep (lift_add_assign InstVector o s1 ltac:(congruence)).
    destruct (IH (plus InstVector o) s1) as (v & s' & Hrest & Hlv & Hc2).
    { rewrite length_plus; congruence. }
    exists v, s'. split_and!; [done|done|by eapply counter_only_trans].
Qed.

Lemma instruction_vector_length I s :
  exists v s',
    SymbolicEmbedder.instruction_vector this I s = Ok (v, s') /\
    length v = d /\ counter_only s s'.
Proof.
  unfold SymbolicEmbedder.instruction_vector.
  assert (length (Embedding_zero d) = d) as Hzero by apply length_replicate.
  fold d.
  destruct (lookupVocab_length (getOpcodeName I) s)
    as (o & s1 & Hopc & Hlo & Hc1).
  mstep Hopc. mstep (lift_add_assign _ _ s1 (eq_trans Hzero (eq_sym Hlo))).
  destruct (getTypeEmbedding_length (Instruction_getType I) s1)
    as (t & s2 & Hty & Hlt & Hc2).
  mstep Hty.
  assert (length (plus (Embedding_zero d) o) = d) as Hl1
    by (rewrite length_plus; congruence).
  mstep (lift_add_assign _ _ s2 (eq_trans Hl1 (eq_sym Hlt))).
  destruct (operands_length (operands I)
              (plus (plus (Embedding_zero d) o) t) s2)
    as (v & s' & Hops & Hlv & Hc3).
  { rewrite length_plus; congruence. }
  exists v, s'. split_and!; [done|done|].
  eapply counter_only_trans; [|done]. by eapply counter_only_trans.
Qed.

Lemma instructions_effect BB L : forall BBVector s,
  length BBVector = d ->
  exists v s',
    for_each L (SymbolicEmbedder.instruction_step this BB) BBVector s
      = Ok (v, s') /\
    length v = d /\
    BBVecMap s' = BBVecMap s /\
    FuncVector s' = FuncVector s /\
    (forall B i, B ≠ BB -> InstVecMap s' !! (B, i) = InstVecMap s !! (B, i)) /\
    (forall i, is_Some (InstVecMap s' !! (BB, i)) <->
               is_Some (InstVecMap s !! (BB, i)) \/ i ∈ L.*1).
Proof.
  induction L as [|[n I] L IH]; intros BBVector s Hlen; simpl.
  - exists BBVector, s. split_and!; try done.
    intros i. split; [by left|]. by intros [?|?%elem_of_nil].
  - destruct (instruction_vector_length I s) as (iv & s1 & Hiv & Hliv & Hc).
    destruct Hc as (Hc1 & Hc2 & Hc3).
    unfold SymbolicEmbedder.instruction_step at 1. simpl.
    mstep Hiv.
    mstep (modify_Ok _ s1).
    mstep (lift_add_assign _ _
             (set_InstVecMap (<[(BB, n):=iv]> (InstVecMap s1)) s1)
             (eq_trans Hlen (eq_sym Hliv))).
    destruct (IH (plus BBVector iv)
                 (set_InstVecMap (<[(BB, n):=iv]> (InstVecMap s1)) s1))
      as (v & s' & Hrest & Hlv & Hbb & Hfv & Hother & Hthis).
    { rewrite length_plus; congruence. }
    simpl in *. exists v, s'. split_and!; try congruence.
    + intros B i HB. rewrite Hother by done.
      rewrite lookup_insert_ne by congruence. by rewrite Hc1.
    + intros i. rewrite Hthis, Hc1, elem_of_cons.
      destruct (decide (i = n)) as [->|Hne].
      * rewrite lookup_insert_eq. split; [by right; left|by left].
      * rewrite lookup_insert_ne by congruence. tauto.
Qed.

Lemma computeEmbeddings_BB_effect BB Block s :
  exists v s',
    SymbolicEmbedder.computeEmbeddings_BB this BB Block s = Ok (tt, s') /\
    length v = d /\ block_effect BB Block v s s'.
Proof.
  unfold SymbolicEmbedder.computeEmbeddings_BB. fold d.
  destruct (instructions_effect BB (instructionsWithoutDebug Block)
              (Embedding_zero d) s)
    as (v & s1 & Hrun & Hlv & Hbb & Hfv & Hother & Hthis).
  { apply length_replicate. }
  mstep Hrun.
  eexists v, _. split; [reflexivity|]. split; [done|].
  unfold block_effect. simpl. by rewrite Hbb.
Qed.

Lemma block_step_effect BB Block s :
  length (FuncVector s) = d ->
  exists v s',
    SymbolicEmbedder.block_step this tt (BB, Block) s = Ok (tt, s') /\
    length v = d /\
    BBVecMap s' = <[BB := v]> (BBVecMap s) /\
    FuncVector s' = plus (FuncVector s) v /\
    (forall B i, B ≠ BB -> InstVecMap s' !! (B, i) = InstVecMap s !! (B, i)) /\
    (forall i, is_Some (InstVecMap s' !! (BB, i)) <->
               is_Some (InstVecMap s !! (BB, i)) \/
               i ∈ (instructionsWithoutDebug Block).*1).
Proof.
  intros Hlen. unfold SymbolicEmbedder.block_step. simpl.
  destruct (computeEmbeddings_BB_effect BB Block s)
    as (v & s1 & Hrun & Hlv & Hbb & Hfv & Hother & Hthis).
  mstep Hrun.
  assert (BBVecMap s1 !! BB = Some v) as Hstored
    by (rewrite Hbb; apply lookup_insert_eq).
  mstep (BBVecMap_subscript_present _ _ _ Hstored).
  mstep (gets_Ok (load (Ref_BBVecMap_at BB)) s1).
  mstep (gets_Ok FuncVector s1).
  simpl. rewrite Hstored. simpl.
  mstep (lift_add_assign (FuncVector s1) v s1 ltac:(congruence)).
  eexists v, _. split; [reflexivity|]. simpl.
  split_and!; try done. by rewrite Hfv.
Qed.

Lemma blocks_effect L : forall s,
  NoDup L.*1 ->
  length (FuncVector s) = d ->
  exists s',
    for_each L (SymbolicEmbedder.block_step this) tt s = Ok (tt, s') /\
    length (FuncVector s') = d /\
    FuncVector s' =
      foldl plus (FuncVector s)
            (map (fun B => default [] (BBVecMap s' !! B)) L.*1) /\
    (forall B, B ∉ L.*1 -> BBVecMap s' !! B = BBVecMap s !! B) /\
    (forall B, B ∈ L.*1 -> is_Some (BBVecMap s' !! B)) /\
    (forall B i, B ∉ L.*1 -> InstVecMap s' !! (B, i) = InstVecMap s !! (B, i)) /\
    (forall B Block i,
        (B, Block) ∈ L -> i ∈ (instructionsWithoutDebug Block).*1 ->
        is_Some (InstVecMap s' !! (B, i))).
Proof.
  induction L as [|[BB Block] L IH]; intros s Hnd Hlen; simpl.
  - exists s. split_and!; try done.
    + by intros B ?%elem_of_nil.
    + by intros B Block i ?%elem_of_nil.
  - simpl in Hnd. apply NoDup_cons in Hnd as [Hfresh Hnd].
    destruct (block_step_effect BB Block s Hlen)
      as (v & s1 & Hrun & Hlv & Hbb & Hfv & Hother & Hthis).
    mstep Hrun.
    destruct (IH s1 Hnd) as (s' & Hrest & Hlen' & Hsum & Hkeep & Hset & Hikeep & Hiset).
    { rewrite Hfv, length_plus; congruence. }
    exists s'. split_and!; try done.
    + cbn [fmap list_fmap map foldl fst].
      rewrite (Hkeep BB Hfresh), Hbb, lookup_insert_eq.
      cbn [default from_option]. by rewrite Hsum, Hfv.
    + intros B [HB Hn]%not_elem_of_cons.
      rewrite (Hkeep B Hn), Hbb. by apply lookup_insert_ne.
    + intros B [->|HB]%elem_of_cons; [|by apply Hset].
      rewrite (Hkeep BB Hfresh), Hbb, lookup_insert_eq. by eexists.
    + intros B i [HB Hn]%not_elem_of_cons.
      rewrite (Hikeep B i Hn). by apply Hother.
    + intros B Block' i [[= -> ->]|Hin]%elem_of_cons Hi; [|by eapply Hiset].
      rewrite (Hikeep BB i Hfresh). apply Hthis. by right.
Qed.

End EmbedderFacts.

(* ===================================================================== *)
(** ** Properties of the embedder *)
(* ===================================================================== *)

Lemma ctor_inv Opts F Vocabulary Counter this s0 :
  SymbolicEmbedder.ctor Opts F Vocabulary Counter = Ok (this, s0) ->
  exists k First,
    Vocab_begin Vocabulary = Some (k, First) /\
    Embedder.F this = F /\
    Embedder.Vocabulary this = Vocabulary /\
    Embedder.Dimension this = unsigned_of_size (length First) /\
    s0 = mkStore Counter ∅ ∅
                 (Embedding_zero (N.to_nat (Embedder.Dimension this))).
Proof.
  unfold SymbolicEmbedder.ctor, Embedder.ctor.
  destruct (Vocab_begin Vocabulary) as [[k First]|]; simpl; [|done].
  intros [= <- <-]. by exists k, First.
Qed.

Lemma ctor_nonempty Opts F Vocabulary Counter :
  Vocabulary ≠ [] ->
  exists this s0,
    SymbolicEmbedder.ctor Opts F Vocabulary Counter = Ok (this, s0).
Proof.
  intros Hne. unfold SymbolicEmbedder.ctor, Embedder.ctor.
  destruct Vocabulary as [|[k First] V]; [done|]. simpl. by eexists _, _.
Qed.

(** [Embedder::create] builds the symbolic engine, and never returns the
    null pointer. *)
Lemma Embedder_create_Symbolic Opts Mode F Vocabulary Counter r :
  Embedder_create Opts Mode F Vocabulary Counter = Ok r <->
  exists this s0,
    r = Some (this, s0) /\
    SymbolicEmbedder.ctor Opts F Vocabulary Counter = Ok (this, s0).
Proof.
  destruct Mode. unfold Embedder_create.
  destruct (SymbolicEmbedder.ctor Opts F Vocabulary Counter)
    as [[this s0]|f]; simpl; split.
  - intros [= <-]. by exists this, s0.
  - by intros (this' & s0' & -> & [= <- <-]).
  - done.
  - by intros (this' & s0' & _ & ?).
Qed.

(** C6: against a non-empty vocabulary, [lookupVocab] returns the stored
    embedding of a key that is present and leaves the miss counter as it
    is; for an absent key it returns the zero vector of the vocabulary's
    dimension and adds exactly one to the miss counter; it fails in
    neither case. *)
Theorem lookupVocab_hit_or_miss Opts F Vocabulary Counter :
  Vocabulary ≠ [] ->
  exists this s0,
    SymbolicEmbedder.ctor Opts F Vocabulary Counter = Ok (this, s0) /\
    getDimension (IR2VecVocabResult_of Vocabulary)
      = Ok (Embedder.Dimension this) /\
    forall Key s,
      (forall v, Vocab_find Key Vocabulary = Some v ->
                 Embedder.lookupVocab this Key s = Ok (v, s)) /\
      (Vocab_find Key Vocabulary = None ->
       Embedder.lookupVocab this Key s =
         Ok (replicate (N.to_nat (Embedder.Dimension this)) 0%float,
             mkStore (VocabMissCounter s + 1) (InstVecMap s) (BBVecMap s)
                     (FuncVector s))).
Proof.
  intros Hne.
  destruct (ctor_nonempty Opts F Vocabulary Counter Hne) as (this & s0 & Hctor).
  exists this, s0. split; [done|].
  destruct (ctor_inv _ _ _ _ _ _ Hctor) as (k & First & Hb & _ & HV & HD & _).
  split.
  - unfold getDimension. simpl. by rewrite Hb, HD.
  - intros Key s. unfold Embedder.lookupVocab. rewrite HV. split.
    + by intros v ->.
    + intros ->. unfold bind, modify, ret, set_VocabMissCounter. simpl.
      by rewrite N.add_1_r.
Qed.

Lemma lookupVocab_hit_or_miss_witness :
  Samples.Vocabulary ≠ [] /\
  exists this s0,
    SymbolicEmbedder.ctor Samples.Opts Samples.SingleBlock
                          Samples.Vocabulary 0 = Ok (this, s0) /\
    getDimension (IR2VecVocabResult_of Samples.Vocabulary)
      = Ok (Embedder.Dimension this) /\
    forall Key s,
      (forall v, Vocab_find Key Samples.Vocabulary = Some v ->
                 Embedder.lookupVocab this Key s = Ok (v, s)) /\
      (Vocab_find Key Samples.Vocabulary = None ->
       Embedder.lookupVocab this Key s =
         Ok (replicate (N.to_nat (Embedder.Dimension this)) 0%float,
             mkStore (VocabMissCounter s + 1) (InstVecMap s) (BBVecMap s)
                     (FuncVector s))).
Proof.
  split; [discriminate|].
  apply (lookupVocab_hit_or_miss Samples.Opts Samples.SingleBlock
           Samples.Vocabulary 0).
  discriminate.
Defined.

(** The unit example of the specification: ["foo"] is unknown, ["add"] is
    known. *)
Example lookupVocab_foo_add :
  Embedder.lookupVocab (Samples.Engine Samples.SingleBlock) "foo"
                       Samples.Fresh
    = Ok ([0%float; 0%float], mkStore 1 ∅ ∅ [0%float; 0%float]) /\
  Embedder.lookupVocab (Samples.Engine Samples.SingleBlock) "add"
                       Samples.Fresh
    = Ok ([1%float; 0%float], Samples.Fresh).
Proof. split; reflexivity. Qed.

Lemma computeEmbeddings_declaration this s :
  isDeclaration (Embedder.F this) = true ->
  SymbolicEmbedder.computeEmbeddings this s = Ok (tt, s).
Proof. unfold SymbolicEmbedder.computeEmbeddings. by intros ->. Qed.

Lemma call_declaration this a s :
  isDeclaration (Embedder.F this) = true ->
  call this tt a s = Ok (tt, s).
Proof.
  intros Hdecl.
  destruct a; simpl;
    unfold Embedder.getInstVecMap, Embedder.getBBVecMap,
      Embedder.getFunctionVector, bind, gets, ret; simpl;
    try case_bool_decide;
    by rewrite ?(computeEmbeddings_declaration this s Hdecl).
Qed.

(** C9: for an external declaration the three accessors, called any
    number of times in any order, leave the engine as it was built:
    [getFunctionVector] yields the zero vector, and the instruction map
    and the block map are empty. *)
Theorem declaration_stays_zero Opts F Vocabulary Counter this s0
    (l : list Accessor) :
  isDeclaration F = true ->
  SymbolicEmbedder.ctor Opts F Vocabulary Counter = Ok (this, s0) ->
  calls this l s0 = Ok (tt, s0) /\
  Embedder.getFunctionVector this s0 = Ok (Ref_FuncVector, s0) /\
  load Ref_FuncVector s0
    = replicate (N.to_nat (Embedder.Dimension this)) 0%float /\
  Embedder.getInstVecMap this s0 = Ok (Ref_InstVecMap, s0) /\
  load Ref_InstVecMap s0 = ∅ /\
  Embedder.getBBVecMap this s0 = Ok (Ref_BBVecMap, s0) /\
  load Ref_BBVecMap s0 = ∅.
Proof.
  intros Hdecl Hctor.
  destruct (ctor_inv _ _ _ _ _ _ Hctor) as (k & First & _ & HF & _ & _ & ->).
  rewrite <- HF in Hdecl.
  split_and!; try done.
  - unfold calls. induction l as [|a l IH]; [done|]. simpl.
    by rewrite (bind_Ok _ _ _ _ _ (call_declaration this a _ Hdecl)).
  - unfold Embedder.getFunctionVector, bind. simpl.
    by rewrite computeEmbeddings_declaration.
  - unfold Embedder.getInstVecMap, bind, gets. simpl.
    rewrite bool_decide_eq_true_2 by done.
    by rewrite computeEmbeddings_declaration.
  - unfold Embedder.getBBVecMap, bind, gets. simpl.
    rewrite bool_decide_eq_true_2 by done.
    by rewrite computeEmbeddings_declaration.
Qed.

Lemma declaration_stays_zero_witness :
  calls (Samples.Engine Samples.ExternalDecl)
        [Call_getBBVecMap; Call_getFunctionVector; Call_getInstVecMap;
         Call_getFunctionVector] Samples.Fresh = Ok (tt, Samples.Fresh) /\
  Embedder.getFunctionVector (Samples.Engine Samples.ExternalDecl)
                             Samples.Fresh
    = Ok (Ref_FuncVector, Samples.Fresh) /\
  load Ref_FuncVector Samples.Fresh
    = replicate
        (N.to_nat (Embedder.Dimension (Samples.Engine Samples.ExternalDecl)))
        0%float /\
  Embedder.getInstVecMap (Samples.Engine Samples.ExternalDecl) Samples.Fresh
    = Ok (Ref_InstVecMap, Samples.Fresh) /\
  load Ref_InstVecMap Samples.Fresh = ∅ /\
  Embedder.getBBVecMap (Samples.Engine Samples.ExternalDecl) Samples.Fresh
    = Ok (Ref_BBVecMap, Samples.Fresh) /\
  load Ref_BBVecMap Samples.Fresh = ∅.
Proof.
  apply (declaration_stays_zero Samples.Opts Samples.ExternalDecl
           Samples.Vocabulary 0); reflexivity.
Defined.

Lemma depth_first_elem F B Block :
  (B, Block) ∈ depth_first F <-> B ∈ df_order F /\ blocks F !! B = Some Block.
Proof.
  unfold depth_first. rewrite list_elem_of_omap. split.
  - intros (B' & Hin & Hsome).
    destruct (blocks F !! B') as [Block'|] eqn:Hlook; [|done].
    simpl in Hsome. by injection Hsome as -> ->.
  - intros [Hin Hlook]. exists B. split; [done|]. by rewrite Hlook.
Qed.

(** One run of [computeEmbeddings()] on a function with a body: every
    reachable block gets its vector, the function vector grows by the sum
    of these vectors, taken in the order of the walk, and nothing is
    recorded for a block that is not reachable. *)
Lemma computeEmbeddings_effect this s :
  uniform this ->
  isDeclaration (Embedder.F this) = false ->
  length (FuncVector s) = N.to_nat (Embedder.Dimension this) ->
  exists s',
    SymbolicEmbedder.computeEmbeddings this s = Ok (tt, s') /\
    length (FuncVector s') = N.to_nat (Embedder.Dimension this) /\
    FuncVector s' =
      foldl plus (FuncVector s)
            (map (fun B => load (Ref_BBVecMap_at B) s')
                 (df_order (Embedder.F this))) /\
    (forall B, ¬ reachable (Embedder.F this) B ->
               BBVecMap s' !! B = BBVecMap s !! B) /\
    (forall B, reachable (Embedder.F this) B -> is_Some (BBVecMap s' !! B)) /\
    (forall B i, ¬ reachable (Embedder.F this) B ->
                 InstVecMap s' !! (B, i) = InstVecMap s !! (B, i)) /\
    (forall B Block i,
        reachable (Embedder.F this) B ->
        blocks (Embedder.F this) !! B = Some Block ->
        i ∈ (instructionsWithoutDebug Block).*1 ->
        is_Some (InstVecMap s' !! (B, i))).
Proof.
  intros Huni Hbody Hlen. unfold SymbolicEmbedder.computeEmbeddings.
  rewrite Hbody.
  pose proof (depth_first_fst _ Hbody) as Hfst.
  destruct (blocks_effect this Huni (depth_first (Embedder.F this)) s)
    as (s' & Hrun & Hlen' & Hsum & Hkeep & Hset & Hikeep & Hiset);
    [rewrite Hfst; by apply df_order_NoDup|done|].
  rewrite Hfst in *.
  exists s'. split_and!; try done.
  - intros B HB. apply Hkeep. by rewrite df_order_reachable.
  - intros B HB. apply Hset. by rewrite df_order_reachable.
  - intros B i HB. apply Hikeep. by rewrite df_order_reachable.
  - intros B Block i HB Hlook Hi. apply (Hiset B Block); [|done].
    apply depth_first_elem. by rewrite df_order_reachable.
Qed.

Lemma computeEmbeddings_only_reachable this s :
  uniform this ->
  isDeclaration (Embedder.F this) = false ->
  only_reachable this s ->
  exists s',
    SymbolicEmbedder.computeEmbeddings this s = Ok (tt, s') /\
    only_reachable this s'.
Proof.
  intros Huni Hbody [Hlen Hinv].
  destruct (computeEmbeddings_effect this s Huni Hbody Hlen)
    as (s' & Hrun & Hlen' & _ & Hkeep & _ & Hikeep & _).
  exists s'. split; [done|]. split; [done|].
  intros B HB. destruct (Hinv B HB) as [Hb Hi]. split.
  - by rewrite Hkeep.
  - intros i. by rewrite Hikeep.
Qed.

Lemma call_only_reachable this a s :
  uniform this ->
  isDeclaration (Embedder.F this) = false ->
  only_reachable this s ->
  exists s', call this tt a s = Ok (tt, s') /\ only_reachable this s'.
Proof.
  intros Huni Hbody Hinv.
  destruct (computeEmbeddings_only_reachable this s Huni Hbody Hinv)
    as (s' & Hrun & Hinv').
  destruct a; simpl;
    unfold Embedder.getInstVecMap, Embedder.getBBVecMap,
      Embedder.getFunctionVector, bind, gets, ret; simpl;
    try case_bool_decide; rewrite ?Hrun; eauto.
Qed.

Lemma calls_only_reachable this l : forall s,
  uniform this ->
  isDeclaration (Embedder.F this) = false ->
  only_reachable this s ->
  exists s', calls this l s = Ok (tt, s') /\ only_reachable this s'.
Proof.
  unfold calls. induction l as [|a l IH]; intros s Huni Hbody Hinv; simpl.
  - by exists s.
  - destruct (call_only_reachable this a s Huni Hbody Hinv)
      as (s1 & Hcall & Hinv1).
    rewrite (bind_Ok _ _ _ _ _ Hcall). by apply IH.
Qed.

(** The function with an unreachable third block: the walk yields the
    first two blocks, the function vector is the sum of their vectors, and
    the third block and its two instructions are in neither map. *)
Example unreachable_block_is_skipped :
  df_order Samples.WithUnreachable = [0; 1] /\
  exists s1,
    Embedder.getFunctionVector (Samples.Engine Samples.WithUnreachable)
                               Samples.Fresh = Ok (Ref_FuncVector, s1) /\
    load Ref_FuncVector s1 = [2%float; 6%float] /\
    BBVecMap s1 !! 0 = Some [1%float; 3%float] /\
    BBVecMap s1 !! 1 = Some [1%float; 3%float] /\
    BBVecMap s1 !! 2 = None /\
    InstVecMap s1 !! (2, 0) = None /\
    InstVecMap s1 !! (2, 1) = None.
Proof.
  split; [reflexivity|].
  eexists. split; [vm_compute; reflexivity|].
  split_and!; vm_compute; reflexivity.
Qed.

(** C1: [getFunctionVector] adds the block vectors to the member
    [FuncVector] without resetting it first.  On the one-instruction
    function the first request yields [[1, 3]] and the second one
    [[2, 6]]; the two results are not approximately equal, not even with a
    tolerance of one half. *)
Theorem getFunctionVector_accumulates :
  exists s1 s2,
    SymbolicEmbedder.ctor Samples.Opts Samples.SingleBlock
                          Samples.Vocabulary 0
      = Ok (Samples.Engine Samples.SingleBlock, Samples.Fresh) /\
    Embedder.getFunctionVector (Samples.Engine Samples.SingleBlock)
                               Samples.Fresh = Ok (Ref_FuncVector, s1) /\
    load Ref_FuncVector s1 = [1%float; 3%float] /\
    Embedder.getFunctionVector (Samples.Engine Samples.SingleBlock) s1
      = Ok (Ref_FuncVector, s2) /\
    load Ref_FuncVector s2 = [2%float; 6%float] /\
    approximatelyEquals (load Ref_FuncVector s1) (load Ref_FuncVector s2)
                        0.5%float = Ok false.
Proof.
  eexists _, _. split; [reflexivity|].
  split; [vm_compute; reflexivity|].
  split; [vm_compute; reflexivity|].
  split; [vm_compute; reflexivity|].
  split; vm_compute; reflexivity.
Qed.

(** Every request adds the sum of the block vectors to what the previous
    requests left in [FuncVector]. *)
Theorem getFunctionVector_adds_to_previous this s :
  uniform this ->
  isDeclaration (Embedder.F this) = false ->
  length (FuncVector s) = N.to_nat (Embedder.Dimension this) ->
  exists s',
    Embedder.getFunctionVector this s = Ok (Ref_FuncVector, s') /\
    load Ref_FuncVector s' =
      foldl plus (load Ref_FuncVector s)
            (map (fun B => load (Ref_BBVecMap_at B) s')
                 (df_order (Embedder.F this))).
Proof.
  intros Huni Hbody Hlen.
  destruct (computeEmbeddings_effect this s Huni Hbody Hlen)
    as (s' & Hrun & _ & Hsum & _).
  exists s'. unfold Embedder.getFunctionVector.
  by rewrite (bind_Ok _ _ _ _ _ Hrun).
Qed.

Lemma getFunctionVector_adds_to_previous_witness :
  exists s',
    Embedder.getFunctionVector (Samples.Engine Samples.SingleBlock)
                               Samples.Fresh = Ok (Ref_FuncVector, s') /\
    load Ref_FuncVector s' =
      foldl plus (load Ref_FuncVector Samples.Fresh)
            (map (fun B => load (Ref_BBVecMap_at B) s')
                 (df_order
                    (Embedder.F (Samples.Engine Samples.SingleBlock)))).
Proof.
  apply (getFunctionVector_adds_to_previous
           (Samples.Engine Samples.SingleBlock) Samples.Fresh).
  - repeat constructor.
  - reflexivity.
  - reflexivity.
Defined.

(** C3, as the code has it: on an empty block map, [getBBVector] computes
    the requested block and nothing else.  Afterwards the block map holds
    the one entry of that block, the instruction map has gained the
    instructions of that block only, and the function vector is as
    before. *)
Theorem getBBVector_computes_one_block this BB Block s :
  uniform this ->
  BBVecMap s = ∅ ->
  exists v s',
    Embedder.getBBVector this BB Block s = Ok (Ref_BBVecMap_at BB, s') /\
    BBVecMap s' = {[BB := v]} /\
    load (Ref_BBVecMap_at BB) s' = v /\
    FuncVector s' = FuncVector s /\
    (forall B i, B ≠ BB -> InstVecMap s' !! (B, i) = InstVecMap s !! (B, i)) /\
    (forall i, is_Some (InstVecMap s' !! (BB, i)) <->
               is_Some (InstVecMap s !! (BB, i)) \/
               i ∈ (instructionsWithoutDebug Block).*1).
Proof.
  intros Huni Hempty. unfold Embedder.getBBVector.
  mstep (gets_Ok (fun s => BBVecMap s !! BB) s).
  rewrite Hempty, lookup_empty.
  destruct (computeEmbeddings_BB_effect this Huni BB Block s)
    as (v & s' & Hrun & _ & Hbb & Hfv & Hother & Hthis).
  rewrite Hempty in Hbb.
  assert (BBVecMap s' !! BB = Some v) as Hstored
    by (rewrite Hbb; apply lookup_insert_eq).
  simpl. mstep Hrun. rewrite (BBVecMap_subscript_present _ _ _ Hstored).
  exists v, s'. split_and!; try done.
  simpl. by rewrite Hstored.
Qed.

Lemma getBBVector_computes_one_block_witness :
  exists v s',
    Embedder.getBBVector (Samples.Engine Samples.TwoBlocks) 0
      (mkBasicBlock [Samples.AddInst] [1]) Samples.Fresh
      = Ok (Ref_BBVecMap_at 0, s') /\
    BBVecMap s' = {[0 := v]} /\
    load (Ref_BBVecMap_at 0) s' = v /\
    FuncVector s' = FuncVector Samples.Fresh /\
    (forall B i, B ≠ 0 ->
                 InstVecMap s' !! (B, i) = InstVecMap Samples.Fresh !! (B, i)) /\
    (forall i, is_Some (InstVecMap s' !! (0, i)) <->
               is_Some (InstVecMap Samples.Fresh !! (0, i)) \/
               i ∈ (instructionsWithoutDebug
                      (mkBasicBlock [Samples.AddInst] [1])).*1).
Proof.
  apply (getBBVector_computes_one_block (Samples.Engine Samples.TwoBlocks) 0
           (mkBasicBlock [Samples.AddInst] [1]) Samples.Fresh).
  - repeat constructor.
  - reflexivity.
Defined.

(** C3, as stated, fails: on the function of two reachable blocks,
    requesting the vector of the entry block from a new engine leaves the
    second block, and its instruction, without a vector. *)
Lemma getBBVector_leaves_other_blocks :
  SymbolicEmbedder.ctor Samples.Opts Samples.TwoBlocks Samples.Vocabulary 0
    = Ok (Samples.Engine Samples.TwoBlocks, Samples.Fresh) /\
  blocks Samples.TwoBlocks !! 0 = Some (mkBasicBlock [Samples.AddInst] [1]) /\
  reachable Samples.TwoBlocks 0 /\
  reachable Samples.TwoBlocks 1 /\
  BBVecMap Samples.Fresh = ∅ /\
  exists s',
    Embedder.getBBVector (Samples.Engine Samples.TwoBlocks) 0
      (mkBasicBlock [Samples.AddInst] [1]) Samples.Fresh
      = Ok (Ref_BBVecMap_at 0, s') /\
    BBVecMap s' !! 0 = Some [1%float; 3%float] /\
    BBVecMap s' !! 1 = None /\
    InstVecMap s' !! (1, 0) = None.
Proof.
  assert (reachable Samples.TwoBlocks 0) as Hentry
    by (apply reachable_entry; simpl; lia).
  split_and!; try reflexivity; try done.
  - apply (reachable_step _ 0); [done|]. vm_compute. by left.
  - eexists. split; [vm_compute; reflexivity|].
    split_and!; vm_compute; reflexivity.
Qed.

Lemma lookupVocab_found this Key v s :
  Vocab_find Key (Embedder.Vocabulary this) = Some v ->
  Embedder.lookupVocab this Key s = Ok (v, s).
Proof. unfold Embedder.lookupVocab. by intros ->. Qed.

Lemma getTypeEmbedding_integer this Ty v s :
  classified_integer Ty ->
  Vocab_find "integerTy" (Embedder.Vocabulary this) = Some v ->
  SymbolicEmbedder.getTypeEmbedding this Ty s = Ok (v, s).
Proof.
  intros (Hvoid & Hfloat & Hint) Hfind.
  unfold SymbolicEmbedder.getTypeEmbedding. rewrite Hvoid, Hfloat, Hint.
  by apply lookupVocab_found.
Qed.

Lemma getOperandEmbedding_variable this Op v s :
  classified_variable Op ->
  Vocab_find "variable" (Embedder.Vocabulary this) = Some v ->
  SymbolicEmbedder.getOperandEmbedding this Op s = Ok (v, s).
Proof.
  intros (Hfun & Hptr & Hconst) Hfind.
  unfold SymbolicEmbedder.getOperandEmbedding. rewrite Hfun, Hptr, Hconst.
  by apply lookupVocab_found.
Qed.

(** A function of one block: the walk yields that block, whatever its
    terminator branches to. *)
Lemma df_order_one_block Block :
  df_order (mkFunction [Block]) = [0].
Proof.
  unfold df_order, df_fuel.
  change (df_walk ?F (S ?n) [0] [])
    with (if bool_decide (0 ∈ @nil nat)
          then df_walk F n [] []
          else df_walk F n (successors F 0 ++ []) ([] ++ [0])).
  rewrite bool_decide_eq_false_2 by apply not_elem_of_nil.
  apply df_walk_all_visited. intros B HB. apply list_elem_of_singleton.
  rewrite app_nil_r in HB.
  apply successors_lt in HB. simpl in HB. lia.
Qed.

(** C4: for a function whose body is one block holding one instruction,
    an [add] of integer type with two variable operands, against a
    vocabulary of dimension 2 that maps ["add"] to [[1, 0]], ["integerTy"]
    to [[0, 1]] and ["variable"] to [[0, 1]], the instruction vector, the
    block vector and the function vector of a newly built engine are all
    [[1, 3]]. *)
Theorem single_add_instruction_vectors
    Opts Vocabulary Counter this s0 Ty Op1 Op2 Succs :
  SymbolicEmbedder.ctor Opts
    (mkFunction
       [mkBasicBlock [mkInstruction "add" Ty [Op1; Op2] false] Succs])
    Vocabulary Counter = Ok (this, s0) ->
  Embedder.Dimension this = 2%N ->
  Vocab_find "add" Vocabulary = Some [1%float; 0%float] ->
  Vocab_find "integerTy" Vocabulary = Some [0%float; 1%float] ->
  Vocab_find "variable" Vocabulary = Some [0%float; 1%float] ->
  classified_integer Ty ->
  classified_variable Op1 ->
  classified_variable Op2 ->
  SymbolicEmbedder.instruction_vector
    this (mkInstruction "add" Ty [Op1; Op2] false) s0
    = Ok ([1%float; 3%float], s0) /\
  exists s1,
    Embedder.getFunctionVector this s0 = Ok (Ref_FuncVector, s1) /\
    load Ref_InstVecMap s1 = {[(0, 0) := [1%float; 3%float]]} /\
    load Ref_BBVecMap s1 = {[0 := [1%float; 3%float]]} /\
    load (Ref_BBVecMap_at 0) s1 = [1%float; 3%float] /\
    load Ref_FuncVector s1 = [1%float; 3%float].
Proof.
  intros Hctor Hdim Hadd Hint Hvar HTy HOp1 HOp2.
  destruct (ctor_inv _ _ _ _ _ _ Hctor) as (k & First & _ & HF & HV & _ & ->).
  rewrite <- HV in Hadd, Hint, Hvar. rewrite Hdim. clear Hctor.
  assert (Hinst : forall s,
    SymbolicEmbedder.instruction_vector
      this (mkInstruction "add" Ty [Op1; Op2] false) s
      = Ok ([1%float; 3%float], s)).
  { intros s.
    unfold SymbolicEmbedder.instruction_vector, SymbolicEmbedder.operand_step.
    rewrite Hdim. cbn [for_each operands getOpcodeName Instruction_getType].
    meval ltac:(first
      [ apply lookupVocab_found; eassumption
      | apply getTypeEmbedding_integer; eassumption
      | apply getOperandEmbedding_variable; eassumption
      | reflexivity ]). }
  split; [apply Hinst|].
  exists (mkStore Counter {[(0, 0) := [1%float; 3%float]]}
                  {[0 := [1%float; 3%float]]} [1%float; 3%float]).
  split; [|by simpl; rewrite lookup_singleton_eq].
  unfold Embedder.getFunctionVector, Embedder.computeEmbeddings,
    SymbolicEmbedder.strategy, SymbolicEmbedder.computeEmbeddings.
  rewrite HF. unfold depth_first. rewrite df_order_one_block.
  cbn [isDeclaration blocks omap list_omap lookup list_lookup fmap option_fmap
       option_map for_each].
  unfold SymbolicEmbedder.block_step, SymbolicEmbedder.computeEmbeddings_BB,
    instructionsWithoutDebug.
  rewrite Hdim.
  cbn [fst snd instructions imap List.filter isDebugOrPseudoInst negb
       for_each].
  unfold SymbolicEmbedder.instruction_step. cbn [fst snd].
  meval ltac:(first [ apply Hinst | reflexivity ]).
Qed.

Lemma single_add_instruction_vectors_witness :
  SymbolicEmbedder.instruction_vector
    (Samples.Engine Samples.SingleBlock)
    (mkInstruction "add" Samples.IntegerTy
                   [Samples.VariableOp; Samples.VariableOp] false)
    Samples.Fresh
    = Ok ([1%float; 3%float], Samples.Fresh) /\
  exists s1,
    Embedder.getFunctionVector (Samples.Engine Samples.SingleBlock)
                               Samples.Fresh = Ok (Ref_FuncVector, s1) /\
    load Ref_InstVecMap s1 = {[(0, 0) := [1%float; 3%float]]} /\
    load Ref_BBVecMap s1 = {[0 := [1%float; 3%float]]} /\
    load (Ref_BBVecMap_at 0) s1 = [1%float; 3%float] /\
    load Ref_FuncVector s1 = [1%float; 3%float].
Proof.
  apply (single_add_instruction_vectors
           Samples.Opts Samples.Vocabulary 0
           (Samples.Engine Samples.SingleBlock) Samples.Fresh
           Samples.IntegerTy Samples.VariableOp Samples.VariableOp []);
    try reflexivity; repeat split.
Defined.

(* ===================================================================== *)
(** ** Properties of the vocabulary reader *)
(* ===================================================================== *)

Example readVocabulary_Doc :
  IR2VecVocabAnalysis.readVocabulary (Samples.host Samples.Doc)
                                     Samples.Opts []
    = Ok (Error_success, Samples.Merged) /\
  IR2VecVocabAnalysis.run (Samples.host Samples.Doc) Samples.Opts []
    = Ok (IR2VecVocabResult_of Samples.Merged, []).
Proof. split; reflexivity. Qed.

(** The merged vocabulary of a successful run that started from the empty
    vocabulary, key by key. *)
Lemma readVocabulary_find H Opts Content Doc Opc Ty Arg V' Key :
  getFileOrSTDIN H (ir2vec.VocabFile Opts) = inr Content ->
  json_parse H Content = inr Doc ->
  decoded_section "Opcodes" Doc = Some Opc ->
  decoded_section "Types" Doc = Some Ty ->
  decoded_section "Arguments" Doc = Some Arg ->
  IR2VecVocabAnalysis.readVocabulary H Opts [] = Ok (Error_success, V') ->
  Vocab_find Key V' =
  match Vocab_find Key Opc with
  | Some v => Some (Embedding_mul_assign v (ir2vec.OpcWeight Opts))
  | None =>
      match Vocab_find Key Ty with
      | Some v => Some (Embedding_mul_assign v (ir2vec.TypeWeight Opts))
      | None =>
          (fun v => Embedding_mul_assign v (ir2vec.ArgWeight Opts))
            <$> Vocab_find Key Arg
      end
  end.
Proof.
  intros Hfile Hparse HOpc HTy HArg Hrun.
  apply readVocabulary_success in Hrun
    as (Content' & Doc' & Opc' & Ty' & Arg' & Dim & Hfile' & Hparse'
        & HOpc' & HTy' & HArg' & _ & _ & _ & ->).
  rewrite Hfile in Hfile'. injection Hfile' as <-.
  rewrite Hparse in Hparse'. injection Hparse' as <-.
  rewrite HOpc in HOpc'. injection HOpc' as <-.
  rewrite HTy in HTy'. injection HTy' as <-.
  rewrite HArg in HArg'. injection HArg' as <-.
  apply Vocab_find_merged.
Qed.

(** C2, as the code has it: when a key occurs in more than one section,
    the merged vocabulary maps it to the scaled embedding of the section
    merged first among those that contain it (Opcodes before Types before
    Arguments): [insert] leaves an entry that is there as it is. *)
Theorem merge_keeps_first_section H Opts Content Doc Opc Ty Arg V' :
  getFileOrSTDIN H (ir2vec.VocabFile Opts) = inr Content ->
  json_parse H Content = inr Doc ->
  decoded_section "Opcodes" Doc = Some Opc ->
  decoded_section "Types" Doc = Some Ty ->
  decoded_section "Arguments" Doc = Some Arg ->
  IR2VecVocabAnalysis.readVocabulary H Opts [] = Ok (Error_success, V') ->
  forall Key,
    (forall vo,
        Vocab_find Key Opc = Some vo ->
        is_Some (Vocab_find Key Ty) \/ is_Some (Vocab_find Key Arg) ->
        Vocab_find Key V'
          = Some (map (fun x => PrimFloat.mul x (ir2vec.OpcWeight Opts)) vo)) /\
    (forall vt,
        Vocab_find Key Opc = None ->
        Vocab_find Key Ty = Some vt ->
        is_Some (Vocab_find Key Arg) ->
        Vocab_find Key V'
          = Some (map (fun x => PrimFloat.mul x (ir2vec.TypeWeight Opts)) vt)).
Proof.
  intros Hfile Hparse HOpc HTy HArg Hrun Key.
  rewrite (readVocabulary_find _ _ _ _ _ _ _ _ Key
             Hfile Hparse HOpc HTy HArg Hrun).
  split.
  - by intros vo -> _.
  - by intros vt -> -> _.
Qed.

Lemma merge_keeps_first_section_witness :
  (forall vo,
      Vocab_find "x" [("x", [1%float; 1%float])] = Some vo ->
      is_Some (Vocab_find "x" [("x", [2%float; 4%float])]) \/
      is_Some (Vocab_find "x" [("x", [7%float; 9%float])]) ->
      Vocab_find "x" [("x", [1%float; 1%float])]
        = Some (map (fun x => PrimFloat.mul x
                                (ir2vec.OpcWeight Samples.Opts)) vo)) /\
  (forall vt,
      Vocab_find "x" [("x", [1%float; 1%float])] = None ->
      Vocab_find "x" [("x", [2%float; 4%float])] = Some vt ->
      is_Some (Vocab_find "x" [("x", [7%float; 9%float])]) ->
      Vocab_find "x" [("x", [1%float; 1%float])]
        = Some (map (fun x => PrimFloat.mul x
                                (ir2vec.TypeWeight Samples.Opts)) vt)).
Proof.
  apply (merge_keeps_first_section
           (Samples.host Samples.CollidingDoc) Samples.Opts ""
           Samples.CollidingDoc
           [("x", [1%float; 1%float])] [("x", [2%float; 4%float])]
           [("x", [7%float; 9%float])] [("x", [1%float; 1%float])]
           eq_refl eq_refl eq_refl eq_refl eq_refl eq_refl "x").
Defined.

(** C2, as stated, fails: with ["x"] in all three sections the merged
    vocabulary holds the Opcodes entry, scaled by the opcode weight, and
    neither the Types nor the Arguments entry. *)
Lemma merge_does_not_overwrite :
  decoded_section "Opcodes" Samples.CollidingDoc
    = Some [("x", [1%float; 1%float])] /\
  decoded_section "Types" Samples.CollidingDoc
    = Some [("x", [2%float; 4%float])] /\
  decoded_section "Arguments" Samples.CollidingDoc
    = Some [("x", [7%float; 9%float])] /\
  exists V',
    IR2VecVocabAnalysis.readVocabulary
      (Samples.host Samples.CollidingDoc) Samples.Opts []
      = Ok (Error_success, V') /\
    Vocab_find "x" V'
      = Some (Embedding_mul [1%float; 1%float]
                            (ir2vec.OpcWeight Samples.Opts)) /\
    approximatelyEquals
      (default [] (Vocab_find "x" V'))
      (Embedding_mul [7%float; 9%float] (ir2vec.ArgWeight Samples.Opts))
      0x1p-20%float = Ok false /\
    approximatelyEquals
      (default [] (Vocab_find "x" V'))
      (Embedding_mul [2%float; 4%float] (ir2vec.TypeWeight Samples.Opts))
      0x1p-20%float = Ok false.
Proof.
  split_and!; try reflexivity.
  eexists. split; [reflexivity|]. split_and!; reflexivity.
Qed.

(** C8: on success the merged vocabulary is the three sections, each with
    every vector multiplied element-wise by the weight of its section, then
    merged in the order Opcodes, Types, Arguments.  So an Opcodes entry is
    there multiplied by the opcode weight, a Types entry whose key is not
    an Opcodes key multiplied by the type weight, an Arguments entry whose
    key is in neither multiplied by the argument weight, and every merged
    entry arises in one of these ways. *)
Theorem sections_are_scaled_before_merge H Opts Content Doc Opc Ty Arg V' :
  getFileOrSTDIN H (ir2vec.VocabFile Opts) = inr Content ->
  json_parse H Content = inr Doc ->
  decoded_section "Opcodes" Doc = Some Opc ->
  decoded_section "Types" Doc = Some Ty ->
  decoded_section "Arguments" Doc = Some Arg ->
  IR2VecVocabAnalysis.readVocabulary H Opts [] = Ok (Error_success, V') ->
  let scaled (w : float) (V : Vocab) : Vocab :=
    map (fun Entry : string * Embedding =>
           (Entry.1, map (fun x => PrimFloat.mul x w) Entry.2)) V in
  V' = Vocab_insert_range
         (Vocab_insert_range
            (Vocab_insert_range [] (scaled (ir2vec.OpcWeight Opts) Opc))
            (scaled (ir2vec.TypeWeight Opts) Ty))
         (scaled (ir2vec.ArgWeight Opts) Arg) /\
  (forall Key v,
      Vocab_find Key Opc = Some v ->
      Vocab_find Key V'
        = Some (map (fun x => PrimFloat.mul x (ir2vec.OpcWeight Opts)) v)) /\
  (forall Key v,
      Vocab_find Key Ty = Some v -> Vocab_find Key Opc = None ->
      Vocab_find Key V'
        = Some (map (fun x => PrimFloat.mul x (ir2vec.TypeWeight Opts)) v)) /\
  (forall Key v,
      Vocab_find Key Arg = Some v ->
      Vocab_find Key Opc = None -> Vocab_find Key Ty = None ->
      Vocab_find Key V'
        = Some (map (fun x => PrimFloat.mul x (ir2vec.ArgWeight Opts)) v)) /\
  (forall Key v',
      Vocab_find Key V' = Some v' ->
      (exists v, Vocab_find Key Opc = Some v /\
                 v' = map (fun x => PrimFloat.mul x (ir2vec.OpcWeight Opts)) v)
      \/
      (exists v, Vocab_find Key Ty = Some v /\
                 v' = map (fun x => PrimFloat.mul x (ir2vec.TypeWeight Opts)) v)
      \/
      (exists v, Vocab_find Key Arg = Some v /\
                 v' = map (fun x => PrimFloat.mul x (ir2vec.ArgWeight Opts)) v)).
Proof.
  intros Hfile Hparse HOpc HTy HArg Hrun scaled.
  pose proof (fun Key => readVocabulary_find _ _ _ _ _ _ _ _ Key
                           Hfile Hparse HOpc HTy HArg Hrun) as Hfind.
  split_and!.
  - apply readVocabulary_success in Hrun
      as (Content' & Doc' & Opc' & Ty' & Arg' & Dim & Hfile' & Hparse'
          & HOpc' & HTy' & HArg' & _ & _ & _ & ->).
    rewrite Hfile in Hfile'. injection Hfile' as <-.
    rewrite Hparse in Hparse'. injection Hparse' as <-.
    rewrite HOpc in HOpc'. injection HOpc' as <-.
    rewrite HTy in HTy'. injection HTy' as <-.
    rewrite HArg in HArg'. by injection HArg' as <-.
  - intros Key v Hv. by rewrite Hfind, Hv.
  - intros Key v Hv Hno. by rewrite Hfind, Hno, Hv.
  - intros Key v Hv Hno Hnt. by rewrite Hfind, Hno, Hnt, Hv.
  - intros Key v'. rewrite Hfind.
    destruct (Vocab_find Key Opc) as [vo|]; [intros [= <-]; left; eauto|].
    destruct (Vocab_find Key Ty) as [vt|]; [intros [= <-]; right; left; eauto|].
    destruct (Vocab_find Key Arg) as [va|]; [|done].
    intros [= <-]. right. right. eauto.
Qed.

(** The example of the specification: the Types entry [[2, 4]] loaded with
    type weight 0.5 is [[1, 2]] in the merged vocabulary. *)
Lemma sections_are_scaled_before_merge_witness :
  ir2vec.TypeWeight Samples.Opts = 0.5%float /\
  Vocab_find "integerTy" [("integerTy", [2%float; 4%float])]
    = Some [2%float; 4%float] /\
  exists V',
    IR2VecVocabAnalysis.readVocabulary (Samples.host Samples.Doc)
                                       Samples.Opts []
      = Ok (Error_success, V') /\
    Vocab_find "integerTy" V' = Some [1%float; 2%float].
Proof.
  split; [reflexivity|]. split; [reflexivity|].
  eexists. split; [reflexivity|].
  refine (proj1 (proj2 (proj2
    (sections_are_scaled_before_merge
       (Samples.host Samples.Doc) Samples.Opts "" Samples.Doc
       [("add", [1%float; 0%float])] [("integerTy", [2%float; 4%float])]
       [("variable", [0%float; 5%float])] _
       eq_refl eq_refl eq_refl eq_refl eq_refl eq_refl)))
    "integerTy" [2%float; 4%float] eq_refl eq_refl).
Defined.

(** A document whose [Opcodes] section is the empty object and whose
    [Types] section is missing.  With checked iterators the run ends at
    the read of the first entry of the empty [Opcodes] map, before the
    missing section is reported. *)
Example empty_section_before_missing_section :
  decoded_section "Opcodes" Samples.EmptyOpcodesDoc = Some [] /\
  decoded_section "Types" Samples.EmptyOpcodesDoc = None /\
  IR2VecVocabAnalysis.parseVocabSection "Types" Samples.EmptyOpcodesDoc [] 0
    = Ok (StringError invalid_argument
            "Missing 'Types' section in vocabulary file", [], 0%N) /\
  IR2VecVocabAnalysis.readVocabulary
    (Samples.host Samples.EmptyOpcodesDoc) Samples.Opts []
    = Crash UndefinedBehaviour /\
  IR2VecVocabAnalysis.run
    (Samples.host Samples.EmptyOpcodesDoc) Samples.Opts []
    = Crash UndefinedBehaviour.
Proof. split_and!; reflexivity. Qed.

Lemma Opcodes_section : "Opcodes" ∈ sections.
Proof. unfold sections. set_solver. Qed.

Lemma Types_section : "Types" ∈ sections.
Proof. unfold sections. set_solver. Qed.

Lemma Arguments_section : "Arguments" ∈ sections.
Proof. unfold sections. set_solver. Qed.

Lemma parseVocabSection_returns Key Doc T0 D0 :
  decoded_section Key Doc ≠ Some [] ->
  exists Err T Dim,
    IR2VecVocabAnalysis.parseVocabSection Key Doc T0 D0 = Ok (Err, T, Dim) /\
    (Err = Error_success \/ Error_to_bool Err = true).
Proof.
  unfold IR2VecVocabAnalysis.parseVocabSection, decoded_section.
  destruct (json.getAsObject Doc) as [RootObj|]; [|by eexists _, _, _; eauto].
  destruct (json.get Key RootObj) as [SectionValue|];
    [|by eexists _, _, _; eauto].
  destruct (json.fromJSON_map SectionValue T0) as [Decoded T1] eqn:Hdec.
  destruct Decoded; simpl; [|by eexists _, _, _; eauto].
  rewrite (fromJSON_map_decoded _ _ _ Hdec). intros Hne.
  destruct T1 as [|[k First] T1]; [done|]. simpl.
  destruct (unsigned_of_size (length First) =? 0)%N;
    [by eexists _, _, _; eauto|].
  destruct ((N.of_nat (length First) =? unsigned_of_size (length First))%N
            && forallb _ T1); simpl; by eexists _, _, _; eauto.
Qed.

(** When none of the three sections decodes to the empty map,
    [readVocabulary] returns, and it leaves the member [Vocabulary] as it
    was unless it returns success. *)
Lemma readVocabulary_returns H Opts V0 :
  (forall Content Doc Key,
      getFileOrSTDIN H (ir2vec.VocabFile Opts) = inr Content ->
      json_parse H Content = inr Doc ->
      Key ∈ sections ->
      decoded_section Key Doc ≠ Some []) ->
  exists Err V',
    IR2VecVocabAnalysis.readVocabulary H Opts V0 = Ok (Err, V') /\
    (Err = Error_success \/ (Error_to_bool Err = true /\ V' = V0)).
Proof.
  intros Hne. unfold IR2VecVocabAnalysis.readVocabulary.
  destruct (getFileOrSTDIN H _) as [EC|Content] eqn:Hfile;
    [by eexists _, _; eauto|].
  destruct (json_parse H Content) as [Msg|Doc] eqn:Hparse;
    [by eexists _, _; eauto|].
  assert (Hne' : forall Key, Key ∈ sections ->
                             decoded_section Key Doc ≠ Some [])
    by (intros Key; by apply (Hne Content Doc Key)).
  destruct (parseVocabSection_returns "Opcodes" Doc [] 0
              (Hne' _ Opcodes_section)) as (E1 & Opc & D1 & -> & [->|HE1]);
    simpl; [|rewrite HE1; by eexists _, _; eauto].
  destruct (parseVocabSection_returns "Types" Doc [] 0
              (Hne' _ Types_section)) as (E2 & Ty & D2 & -> & [->|HE2]);
    simpl; [|rewrite HE2; by eexists _, _; eauto].
  destruct (parseVocabSection_returns "Arguments" Doc [] 0
              (Hne' _ Arguments_section)) as (E3 & Arg & D3 & -> & [->|HE3]);
    simpl; [|rewrite HE3; by eexists _, _; eauto].
  destruct ((D1 =? D2)%N && (D2 =? D3)%N); simpl; by eexists _, _; eauto.
Qed.

(** Loading rejects a document in which none of the three sections
    decodes to the empty map and which has one of the defects [rejected]
    lists, whatever other members it has: it returns an error, the member
    [Vocabulary] is as before, and [run] hands out the invalid result with
    the error emitted. *)
Theorem readVocabulary_rejects H Opts Content Doc :
  getFileOrSTDIN H (ir2vec.VocabFile Opts) = inr Content ->
  json_parse H Content = inr Doc ->
  (forall Key, Key ∈ sections -> decoded_section Key Doc ≠ Some []) ->
  rejected Doc ->
  exists Err,
    IR2VecVocabAnalysis.readVocabulary H Opts [] = Ok (Err, []) /\
    Error_to_bool Err = true /\
    (ir2vec.VocabFile Opts ≠ "" ->
     IR2VecVocabAnalysis.run H Opts []
       = Ok (IR2VecVocabResult_invalid, [Diag_reading Err])).
Proof.
  intros Hfile Hparse Hne Hrej.
  destruct (readVocabulary_returns H Opts []) as (Err & V' & Hrun & Hres).
  { intros Content' Doc' Key Hfile' Hparse'.
    rewrite Hfile in Hfile'. injection Hfile' as <-.
    rewrite Hparse in Hparse'. injection Hparse' as <-. apply Hne. }
  destruct Hres as [->|[HErr ->]].
  - exfalso.
    apply readVocabulary_success in Hrun
      as (Content' & Doc' & Opc & Ty & Arg & Dim & Hfile' & Hparse'
          & HOpc & HTy & HArg & AOpc & ATy & AArg & _).
    rewrite Hfile in Hfile'. injection Hfile' as <-.
    rewrite Hparse in Hparse'. injection Hparse' as <-.
    assert (Hall : forall Key, Key ∈ sections ->
              exists T, decoded_section Key Doc = Some T /\ accepted T Dim).
    { intros Key HKey. unfold sections in HKey.
      repeat (apply elem_of_cons in HKey as [->|HKey]); eauto.
      by apply elem_of_nil in HKey. }
    assert (Hdim : forall T, accepted T Dim -> section_dimension T = Some Dim).
    { intros T [(k & First & Hb & ->) _]. unfold section_dimension.
      by rewrite Hb. }
    destruct Hrej as [Key HKey Hnone|Key T HKey Hdec Hzero
                     |Key T D Entry HKey Hdec HD Hin Hlen
                     |K1 K2 T1 T2 D1 D2 HK1 HK2 Hd1 Hd2 HD1 HD2 Hdiff];
      try (destruct (Hall Key HKey) as (T' & Hdec' & Hacc)).
    + congruence.
    + rewrite Hdec in Hdec'. injection Hdec' as <-.
      rewrite (Hdim _ Hacc) in Hzero. destruct Hacc as (_ & Hnz & _).
      congruence.
    + rewrite Hdec in Hdec'. injection Hdec' as <-.
      rewrite (Hdim _ Hacc) in HD. injection HD as <-.
      destruct Hacc as (_ & _ & Hall').
      rewrite Forall_forall in Hall'. by apply Hlen, Hall'.
    + destruct (Hall K1 HK1) as (T1' & Hd1' & Hacc1).
      destruct (Hall K2 HK2) as (T2' & Hd2' & Hacc2).
      rewrite Hd1 in Hd1'. injection Hd1' as <-.
      rewrite Hd2 in Hd2'. injection Hd2' as <-.
      rewrite (Hdim _ Hacc1) in HD1. rewrite (Hdim _ Hacc2) in HD2.
      congruence.
  - exists Err. split_and!; [done|done|].
    intros Hpath. unfold IR2VecVocabAnalysis.run. simpl.
    apply String.eqb_neq in Hpath. rewrite Hpath, Hrun. simpl.
    by rewrite HErr.
Qed.

(** A document with a ragged [Types] section and a member that is no
    section and is the empty object. *)
Lemma readVocabulary_rejects_witness :
  exists Err,
    IR2VecVocabAnalysis.readVocabulary
      (Samples.host Fixtures.RaggedWithComment) Samples.Opts []
      = Ok (Err, []) /\
    Error_to_bool Err = true /\
    (ir2vec.VocabFile Samples.Opts ≠ "" ->
     IR2VecVocabAnalysis.run
       (Samples.host Fixtures.RaggedWithComment) Samples.Opts []
       = Ok (IR2VecVocabResult_invalid, [Diag_reading Err])).
Proof.
  apply (readVocabulary_rejects (Samples.host Fixtures.RaggedWithComment)
           Samples.Opts "" Fixtures.RaggedWithComment eq_refl eq_refl).
  - intros Key HKey. unfold sections in HKey.
    repeat (apply elem_of_cons in HKey as [->|HKey]);
      [by vm_compute..|by apply elem_of_nil in HKey].
  - apply (rejected_ragged _ "Types"
             [("floatTy", [1%float; 2%float; 3%float; 4%float]);
              ("integerTy", [1%float; 2%float; 3%float])]
             4%N ("integerTy", [1%float; 2%float; 3%float])).
    + unfold sections. right. by left.
    + reflexivity.
    + reflexivity.
    + right. by left.
    + discriminate.
Defined.

(** C10: [parseVocabSection] reads the size of the first entry of the
    decoded section before anything checks that there is one.  For a
    section that is the empty object the read is undefined; whenever the
    procedure returns for a section that decodes, the zero-dimension error
    included, the section has an entry; and a successful [readVocabulary]
    has three non-empty sections and a non-empty vocabulary. *)
Theorem first_entry_is_read_unguarded :
  (forall Key RootObj T0 D0,
      json.get Key RootObj = Some (json.Object []) ->
      IR2VecVocabAnalysis.parseVocabSection Key (json.Object RootObj) T0 D0
        = Crash UndefinedBehaviour) /\
  (forall Key Doc T0 D0 Err T Dim T',
      IR2VecVocabAnalysis.parseVocabSection Key Doc T0 D0 = Ok (Err, T, Dim) ->
      decoded_section Key Doc = Some T' ->
      T' ≠ [] /\
      (Dim = 0%N -> Err = StringError illegal_byte_sequence
                      ("Dimension of '" +:+ Key
                       +:+ "' section of the vocabulary is zero"))) /\
  (forall H Opts V0 V',
      IR2VecVocabAnalysis.readVocabulary H Opts V0 = Ok (Error_success, V') ->
      exists Content Doc Opc Ty Arg,
        getFileOrSTDIN H (ir2vec.VocabFile Opts) = inr Content /\
        json_parse H Content = inr Doc /\
        decoded_section "Opcodes" Doc = Some Opc /\ Opc ≠ [] /\
        decoded_section "Types" Doc = Some Ty /\ Ty ≠ [] /\
        decoded_section "Arguments" Doc = Some Arg /\ Arg ≠ [] /\
        V' ≠ []).
Proof.
  split_and!.
  - intros Key RootObj T0 D0 Hget.
    unfold IR2VecVocabAnalysis.parseVocabSection. simpl. by rewrite Hget.
  - intros Key Doc T0 D0 Err T Dim T'.
    unfold IR2VecVocabAnalysis.parseVocabSection, decoded_section.
    destruct (json.getAsObject Doc) as [RootObj|]; [|done].
    destruct (json.get Key RootObj) as [SectionValue|]; [|done].
    destruct (json.fromJSON_map SectionValue T0) as [Decoded T1] eqn:Hdec.
    destruct Decoded; simpl.
    + rewrite (fromJSON_map_decoded _ _ _ Hdec).
      destruct T1 as [|[k First] T1]; [done|]. simpl.
      intros Hrun [= <-]. split; [done|].
      destruct (unsigned_of_size (length First) =? 0)%N eqn:Hz.
      * by injection Hrun as <- _ _.
      * apply N.eqb_neq in Hz.
        destruct (_ && _); simpl in Hrun; injection Hrun as _ _ <-; done.
    + unfold json.fromJSON_map in *.
      destruct (json.getAsObject SectionValue) as [Members|]; [|done].
      rewrite Hdec. done.
  - intros H Opts V0 V' Hrun.
    apply readVocabulary_success in Hrun
      as (Content & Doc & Opc & Ty & Arg & Dim & Hfile & Hparse
          & HOpc & HTy & HArg & AOpc & ATy & AArg & ->).
    exists Content, Doc, Opc, Ty, Arg.
    pose proof (accepted_nonempty _ _ AOpc).
    pose proof (accepted_nonempty _ _ ATy).
    pose proof (accepted_nonempty _ _ AArg) as HneArg.
    split_and!; try done.
    apply Vocab_insert_range_nonempty. right.
    destruct Arg; [done|]. done.
Qed.

Lemma first_entry_is_read_unguarded_witness :
  IR2VecVocabAnalysis.parseVocabSection "Opcodes" Samples.EmptyOpcodesDoc [] 0
    = Crash UndefinedBehaviour /\
  exists Content Doc Opc Ty Arg,
    getFileOrSTDIN (Samples.host Samples.Doc)
                   (ir2vec.VocabFile Samples.Opts) = inr Content /\
    json_parse (Samples.host Samples.Doc) Content = inr Doc /\
    decoded_section "Opcodes" Doc = Some Opc /\ Opc ≠ [] /\
    decoded_section "Types" Doc = Some Ty /\ Ty ≠ [] /\
    decoded_section "Arguments" Doc = Some Arg /\ Arg ≠ [] /\
    Samples.Merged ≠ [].
Proof.
  split.
  - apply (proj1 first_entry_is_read_unguarded "Opcodes"). reflexivity.
  - apply (proj2 (proj2 first_entry_is_read_unguarded)
             (Samples.host Samples.Doc) Samples.Opts []).
    reflexivity.
Defined.

Lemma elem_of_Vocab_emplace Key E (V : Vocab) (Entry : string * Embedding) :
  Entry ∈ Vocab_emplace Key E V <-> Entry = (Key, E) \/ Entry ∈ V.
Proof.
  induction V as [|[k v] V IH]; simpl.
  - rewrite list_elem_of_singleton, elem_of_nil. tauto.
  - destruct (String.ltb Key k).
    + by rewrite elem_of_cons.
    + rewrite !elem_of_cons, IH. tauto.
Qed.

Lemma elem_of_Vocab_insert_range (V R : Vocab) (Entry : string * Embedding) :
  Entry ∈ Vocab_insert_range V R -> Entry ∈ V \/ Entry ∈ R.
Proof.
  revert V. induction R as [|[Key E] R IH]; intros V; simpl; [by left|].
  unfold Vocab_insert_range in *. simpl. intros Hin.
  apply IH in Hin as [Hin|Hin]; [|right; by right].
  unfold Vocab_insert in Hin. simpl in Hin.
  destruct (Vocab_find Key V); [by left|].
  apply elem_of_Vocab_emplace in Hin as [->|Hin]; [right; by left|by left].
Qed.

Lemma accepted_scaled T Dim (Weight : float) :
  accepted T Dim ->
  Forall (fun Entry : string * Embedding => N.of_nat (length Entry.2) = Dim)
         (IR2VecVocabAnalysis.scaleVocabSection T Weight).
Proof.
  intros (_ & _ & Hall). unfold IR2VecVocabAnalysis.scaleVocabSection.
  rewrite Forall_forall in *. intros Entry Hin.
  apply list_elem_of_fmap in Hin as ([k v] & -> & Hin). simpl.
  unfold Embedding_mul_assign. rewrite length_map. apply (Hall _ Hin).
Qed.

Lemma accepted_lt T Dim : accepted T Dim -> (Dim < 2 ^ 32)%N.
Proof.
  intros ((k & First & _ & ->) & _). unfold unsigned_of_size.
  by apply N.mod_lt.
Qed.

(** A vocabulary that [readVocabulary] has loaded into the empty member
    has one dimension: it is not zero, it is the length of every vector of
    the vocabulary and the value [getDimension] returns, and an engine built
    against this vocabulary finds it uniform. *)
Theorem loaded_vocabulary_has_one_dimension H Opts V' :
  IR2VecVocabAnalysis.readVocabulary H Opts [] = Ok (Error_success, V') ->
  exists Dim,
    Dim ≠ 0%N /\
    getDimension (IR2VecVocabResult_of V') = Ok Dim /\
    Forall (fun Entry : string * Embedding => N.of_nat (length Entry.2) = Dim)
           V' /\
    forall Opts' F Counter this s0,
      SymbolicEmbedder.ctor Opts' F V' Counter = Ok (this, s0) ->
      Embedder.Dimension this = Dim /\ uniform this.
Proof.
  intros Hrun.
  apply readVocabulary_success in Hrun
    as (Content & Doc & Opc & Ty & Arg & Dim & _ & _ & _ & _ & _
        & AOpc & ATy & AArg & ->).
  set (V' := Vocab_insert_range _ _).
  assert (Hall : Forall (fun Entry : string * Embedding =>
                           N.of_nat (length Entry.2) = Dim) V').
  { apply Forall_forall. intros Entry Hin.
    pose proof (accepted_scaled _ _ (ir2vec.OpcWeight Opts) AOpc) as HO.
    pose proof (accepted_scaled _ _ (ir2vec.TypeWeight Opts) ATy) as HT.
    pose proof (accepted_scaled _ _ (ir2vec.ArgWeight Opts) AArg) as HA.
    rewrite Forall_forall in HO, HT, HA.
    apply elem_of_Vocab_insert_range in Hin as [Hin|Hin]; [|by apply HA].
    apply elem_of_Vocab_insert_range in Hin as [Hin|Hin]; [|by apply HT].
    apply elem_of_Vocab_insert_range in Hin as [Hin|Hin]; [|by apply HO].
    by apply elem_of_nil in Hin. }
  assert (Hdim : forall k v, Vocab_begin V' = Some (k, v) ->
                             unsigned_of_size (length v) = Dim).
  { intros k v Hb. unfold unsigned_of_size.
    assert ((k, v) ∈ V') as Hin.
    { destruct V' as [|e V'']; [done|]. injection Hb as ->. by left. }
    rewrite Forall_forall in Hall. specialize (Hall _ Hin). simpl in Hall.
    rewrite Hall. apply N.mod_small. by eapply accepted_lt. }
  assert (V' ≠ []) as Hne.
  { apply Vocab_insert_range_nonempty. right.
    pose proof (accepted_nonempty _ _ AArg). by destruct Arg. }
  exists Dim. split_and!.
  - by destruct AOpc as (_ & ? & _).
  - unfold getDimension. simpl.
    destruct (Vocab_begin V') as [[k v]|] eqn:Hb.
    + by rewrite (Hdim k v).
    + by destruct V'.
  - done.
  - intros Opts' F Counter this s0 Hctor.
    destruct (ctor_inv _ _ _ _ _ _ Hctor) as (k & First & Hb & _ & HV & HD & _).
    rewrite (Hdim _ _ Hb) in HD. split; [done|].
    unfold uniform. rewrite HV, HD.
    eapply Forall_impl; [exact Hall|]. simpl. intros Entry <-. lia.
Qed.

Lemma loaded_vocabulary_has_one_dimension_witness :
  exists Dim,
    Dim ≠ 0%N /\
    getDimension (IR2VecVocabResult_of Samples.Merged) = Ok Dim /\
    Forall (fun Entry : string * Embedding => N.of_nat (length Entry.2) = Dim)
           Samples.Merged /\
    forall Opts' F Counter this s0,
      SymbolicEmbedder.ctor Opts' F Samples.Merged Counter = Ok (this, s0) ->
      Embedder.Dimension this = Dim /\ uniform this.
Proof.
  apply (loaded_vocabulary_has_one_dimension
           (Samples.host Samples.Doc) Samples.Opts Samples.Merged).
  reflexivity.
Defined.

(* ===================================================================== *)
(** ** Properties of the [Embedding] arithmetic *)
(* ===================================================================== *)

(** [scaleAndAdd] is [+=] of the scaled source: the two agree on every
    input, the failed assertion included. *)
Theorem scaleAndAdd_adds_scaled_source (this Src : Embedding) (Factor : float) :
  scaleAndAdd this Src Factor
    = Embedding_add_assign this (Embedding_mul Src Factor).
Proof.
  unfold scaleAndAdd, Embedding_add_assign, Embedding_mul, Embedding_mul_assign.
  rewrite length_map.
  destruct (decide (length this = length Src)); [|done].
  f_equal. revert Src e. induction this as [|x this IH]; intros [|y Src] Hlen;
    simpl in *; try done.
  f_equal. apply IH. lia.
Qed.

Lemma approximatelyEquals_loop_true (this RHS : Embedding) (Tolerance : float) :
  length this = length RHS ->
  approximatelyEquals_loop this RHS Tolerance = true <->
  forall i x y, this !! i = Some x -> RHS !! i = Some y ->
    PrimFloat.ltb Tolerance (PrimFloat.abs (PrimFloat.sub x y)) = false.
Proof.
  revert RHS. induction this as [|x this IH]; intros [|y RHS] Hlen;
    simpl in *; try done.
  destruct (PrimFloat.ltb Tolerance (PrimFloat.abs (PrimFloat.sub x y)))
    eqn:Hcmp.
  - split; [done|]. intros Hall.
    specialize (Hall 0 x y eq_refl eq_refl). congruence.
  - rewrite IH by lia. split.
    + intros Hall [|i] x' y'; simpl.
      * by intros [= <-] [= <-].
      * apply Hall.
    + intros Hall i x' y'. apply (Hall (S i)).
Qed.

(** [approximatelyEquals] fails its assertion exactly when the sizes
    differ; otherwise it answers [true] exactly when no pair of elements
    at the same index has a difference whose absolute value exceeds the
    tolerance. *)
Theorem approximatelyEquals_within_tolerance
    (this RHS : Embedding) (Tolerance : float) :
  (length this ≠ length RHS ->
   approximatelyEquals this RHS Tolerance = Crash AssertionFailure) /\
  (length this = length RHS ->
   exists b,
     approximatelyEquals this RHS Tolerance = Ok b /\
     (b = true <->
      forall i x y, this !! i = Some x -> RHS !! i = Some y ->
        PrimFloat.ltb Tolerance (PrimFloat.abs (PrimFloat.sub x y)) = false)).
Proof.
  unfold approximatelyEquals. split; intros Hlen.
  - by rewrite decide_False.
  - rewrite decide_True by done. eexists. split; [done|].
    by apply approximatelyEquals_loop_true.
Qed.

Lemma SFcompare_refl (s : spec_float) :
  s ≠ S754_nan -> SFcompare s s = Some Eq.
Proof.
  destruct s as [b|b| |b m e]; intros Hne; simpl; try done.
  - by destruct b.
  - rewrite Z.compare_refl, Pos.compare_refl. by destruct b.
Qed.

Lemma is_nan_Prim2SF (x : float) :
  PrimFloat.is_nan x = true -> Prim2SF x = S754_nan.
Proof.
  unfold PrimFloat.is_nan. rewrite FloatAxioms.eqb_spec. unfold SFeqb.
  destruct (Prim2SF x) as [b|b| |b m e] eqn:Hx; [| |done|];
    by rewrite SFcompare_refl.
Qed.

(** A comparison against a difference that involves a NaN, or against a
    NaN tolerance, is never [true]. *)
Lemma nan_never_exceeds (x y Tolerance : float) :
  PrimFloat.is_nan x = true \/ PrimFloat.is_nan y = true \/
  PrimFloat.is_nan Tolerance = true ->
  PrimFloat.ltb Tolerance (PrimFloat.abs (PrimFloat.sub x y)) = false.
Proof.
  intros Hnan. rewrite FloatAxioms.ltb_spec, FloatAxioms.abs_spec, FloatAxioms.sub_spec. unfold SFltb.
  destruct Hnan as [H|[H|H]]; apply is_nan_Prim2SF in H; rewrite H;
    unfold SF64sub, SFsub; [| |done].
  - by destruct (Prim2SF Tolerance).
  - destruct (Prim2SF x); by destruct (Prim2SF Tolerance).
Qed.

(** A NaN never makes [approximatelyEquals] answer [false]: two vectors
    of the same size are approximately equal, for whatever tolerance,
    when at every index one of the two elements is a NaN; and any two
    vectors of the same size are approximately equal for a NaN
    tolerance. *)
Theorem approximatelyEquals_passes_nan
    (this RHS : Embedding) (Tolerance : float) :
  length this = length RHS ->
  (forall i x y, this !! i = Some x -> RHS !! i = Some y ->
     PrimFloat.is_nan x = true \/ PrimFloat.is_nan y = true) \/
  PrimFloat.is_nan Tolerance = true ->
  approximatelyEquals this RHS Tolerance = Ok true.
Proof.
  intros Hlen Hnan. unfold approximatelyEquals. rewrite decide_True by done.
  f_equal. apply approximatelyEquals_loop_true; [done|].
  intros i x y Hx Hy. apply nan_never_exceeds.
  destruct Hnan as [Hnan|Hnan]; [|by right; right].
  destruct (Hnan i x y Hx Hy); [by left|by right; left].
Qed.

Lemma approximatelyEquals_passes_nan_witness :
  approximatelyEquals [PrimFloat.nan; 1%float] [2%float; PrimFloat.nan]
                      0%float = Ok true.
Proof.
  apply (approximatelyEquals_passes_nan
           [PrimFloat.nan; 1%float] [2%float; PrimFloat.nan] 0%float).
  - reflexivity.
  - left. intros [|[|i]] x y; simpl; try done.
    + intros [= <-] _. by left.
    + intros _ [= <-]. by right.
Defined.

Lemma SFabs_binary_round_aux prec emax (sx sy : bool) mx ex lx :
  SFabs (binary_round_aux prec emax sx mx ex lx)
    = SFabs (binary_round_aux prec emax sy mx ex lx).
Proof.
  unfold binary_round_aux.
  destruct (shr_fexp prec emax mx ex lx) as [mrs' e'].
  destruct (shr_fexp prec emax _ e' loc_Exact) as [mrs'' e''].
  destruct (shr_m mrs''); [done| |done].
  by destruct (Z.leb e'' (Z.sub emax prec)).
Qed.

Lemma SFabs_binary_normalize_opp prec emax m e szero :
  SFabs (binary_normalize prec emax (Z.opp m) e szero)
    = SFabs (binary_normalize prec emax m e szero).
Proof.
  destruct m as [|m|m]; simpl; [done| |]; unfold binary_round;
    destruct (shl_align m e _) as [mz ez]; apply SFabs_binary_round_aux.
Qed.

(** The absolute value of a difference does not depend on the order of
    the operands. *)
Lemma SFabs_SFsub_comm prec emax (x y : spec_float) :
  SFabs (SFsub prec emax x y) = SFabs (SFsub prec emax y x).
Proof.
  destruct x as [sx|sx| |sx mx ex], y as [sy|sy| |sy my ey]; simpl;
    try done; try (by destruct sx, sy).
  rewrite (Z.min_comm ey ex), <- SFabs_binary_normalize_opp.
  by rewrite Z.opp_sub_distr, Z.add_comm, Z.add_opp_r.
Qed.

Lemma float_abs_sub_comm (x y : float) :
  PrimFloat.abs (PrimFloat.sub x y) = PrimFloat.abs (PrimFloat.sub y x).
Proof.
  apply Prim2SF_inj.
  rewrite !FloatAxioms.abs_spec, !FloatAxioms.sub_spec.
  apply SFabs_SFsub_comm.
Qed.

(** The absolute value of the difference of a number with itself is a
    NaN or the positive zero. *)
Lemma SFabs_SFsub_diag prec emax (x : spec_float) :
  SFabs (SFsub prec emax x x) = S754_nan \/
  SFabs (SFsub prec emax x x) = S754_zero false.
Proof.
  destruct x as [sx|sx| |sx mx ex]; simpl.
  - right. by destruct sx.
  - left. by destruct sx.
  - by left.
  - right. by rewrite Z.sub_diag.
Qed.

Lemma approximatelyEquals_loop_comm (this RHS : Embedding) Tolerance :
  approximatelyEquals_loop this RHS Tolerance
    = approximatelyEquals_loop RHS this Tolerance.
Proof.
  revert RHS. induction this as [|x this IH]; intros [|y RHS]; simpl;
    try done.
  by rewrite (float_abs_sub_comm y x), IH.
Qed.

Lemma approximatelyEquals_loop_diag (this : Embedding) Tolerance :
  PrimFloat.ltb Tolerance 0 = false ->
  approximatelyEquals_loop this this Tolerance = true.
Proof.
  intros Htol. induction this as [|x this IH]; simpl; [done|].
  rewrite IH.
  assert (PrimFloat.ltb Tolerance (PrimFloat.abs (PrimFloat.sub x x)) = false)
    as ->; [|done].
  rewrite FloatAxioms.ltb_spec in *.
  rewrite FloatAxioms.abs_spec, FloatAxioms.sub_spec.
  destruct (SFabs_SFsub_diag prec emax (Prim2SF x)) as [Hd|Hd];
    unfold SF64sub; rewrite Hd.
  - unfold SFltb. by destruct (Prim2SF Tolerance).
  - exact Htol.
Qed.

(** [approximatelyEquals] is symmetric, the failed assertion included,
    and every vector is approximately equal to itself for every tolerance
    that is not negative, whatever the vector holds. *)
Theorem approximatelyEquals_symmetric_reflexive :
  (forall (this RHS : Embedding) Tolerance,
      approximatelyEquals this RHS Tolerance
        = approximatelyEquals RHS this Tolerance) /\
  (forall (this : Embedding) Tolerance,
      PrimFloat.ltb Tolerance 0 = false ->
      approximatelyEquals this this Tolerance = Ok true).
Proof.
  split.
  - intros this RHS Tolerance. unfold approximatelyEquals.
    destruct (decide (length this = length RHS)) as [Hlen|Hlen].
    + rewrite decide_True by done. f_equal.
      apply approximatelyEquals_loop_comm.
    + by rewrite decide_False.
  - intros this Tolerance Htol. unfold approximatelyEquals.
    rewrite decide_True by done. f_equal.
    by apply approximatelyEquals_loop_diag.
Qed.

Lemma SFadd_comm prec emax (x y : spec_float) :
  SFadd prec emax x y = SFadd prec emax y x.
Proof.
  destruct x as [sx|sx| |sx mx ex], y as [sy|sy| |sy my ey]; simpl;
    try done; try (by destruct sx, sy).
  by rewrite (Z.min_comm ey ex), Z.add_comm.
Qed.

Lemma float_add_comm (x y : float) : PrimFloat.add x y = PrimFloat.add y x.
Proof.
  apply Prim2SF_inj. rewrite !FloatAxioms.add_spec. apply SFadd_comm.
Qed.

(** [operator+] does not depend on the order of its operands: the two
    sums are the same vector, or both fail the assertion. *)
Theorem Embedding_add_commutes (this RHS : Embedding) :
  Embedding_add this RHS = Embedding_add RHS this.
Proof.
  unfold Embedding_add, Embedding_add_assign.
  destruct (decide (length this = length RHS)) as [Hlen|Hlen].
  - rewrite decide_True by done. f_equal. clear Hlen.
    revert RHS. induction this as [|x this IH]; intros [|y RHS]; simpl;
      try done.
    by rewrite float_add_comm, IH.
  - by rewrite decide_False.
Qed.

Lemma is_finite_Prim2SF (x : float) :
  PrimFloat.is_finite x = true ->
  (exists s, Prim2SF x = S754_zero s) \/
  (exists s m e, Prim2SF x = S754_finite s m e).
Proof.
  unfold PrimFloat.is_finite, PrimFloat.is_nan, PrimFloat.is_infinity.
  rewrite !FloatAxioms.eqb_spec, FloatAxioms.abs_spec.
  destruct (Prim2SF x) as [s|s| |s m e] eqn:Hx.
  - intros _. left. by exists s.
  - rewrite orb_true_r. done.
  - done.
  - intros _. right. by exists s, m, e.
Qed.

Lemma SFsub_diag_finite prec emax (x : spec_float) :
  (exists s, x = S754_zero s) \/ (exists s m e, x = S754_finite s m e) ->
  SFsub prec emax x x = S754_zero false.
Proof.
  intros [(s & ->)|(s & m & e & ->)]; simpl.
  - by destruct s.
  - by rewrite Z.sub_diag.
Qed.

Lemma float_sub_diag (x : float) :
  PrimFloat.is_finite x = true -> PrimFloat.sub x x = 0%float.
Proof.
  intros Hfin. apply Prim2SF_inj. rewrite FloatAxioms.sub_spec.
  unfold SF64sub. by rewrite SFsub_diag_finite by by apply is_finite_Prim2SF.
Qed.

(** [operator-] of a vector with itself is the zero vector of its size,
    when no element of the vector is an infinity or a NaN. *)
Theorem Embedding_sub_self (this : Embedding) :
  Forall (fun Elem => PrimFloat.is_finite Elem = true) this ->
  Embedding_sub this this = Ok (Embedding_zero (length this)).
Proof.
  intros Hfin. unfold Embedding_sub, Embedding_sub_assign, Embedding_zero.
  rewrite decide_True by done. f_equal.
  induction Hfin as [|x this Hx Hfin IH]; simpl; [done|].
  by rewrite (float_sub_diag x Hx), IH.
Qed.

Lemma Embedding_sub_self_witness :
  Embedding_sub [1%float; 0.5%float; (-2)%float]
                [1%float; 0.5%float; (-2)%float]
    = Ok (Embedding_zero (length [1%float; 0.5%float; (-2)%float])).
Proof.
  apply (Embedding_sub_self [1%float; 0.5%float; (-2)%float]).
  repeat constructor.
Defined.

(* ===================================================================== *)
(** ** The values the embedder computes *)
(* ===================================================================== *)

Lemma getTypeEmbedding_key this Ty :
  SymbolicEmbedder.getTypeEmbedding this Ty
    = Embedder.lookupVocab this (type_key Ty).
Proof.
  unfold SymbolicEmbedder.getTypeEmbedding, type_key.
  repeat match goal with
         | |- context [if ?b then _ else _] => destruct b; [reflexivity|]
         end.
  reflexivity.
Qed.

Lemma getOperandEmbedding_key this Op :
  SymbolicEmbedder.getOperandEmbedding this Op
    = Embedder.lookupVocab this (operand_key Op).
Proof.
  unfold SymbolicEmbedder.getOperandEmbedding, operand_key.
  repeat match goal with
         | |- context [if ?b then _ else _] => destruct b; [reflexivity|]
         end.
  reflexivity.
Qed.

Lemma misses_cons this Key Keys :
  misses this (Key :: Keys)
    = ((if missing this Key then 1 else 0) + misses this Keys)%N.
Proof.
  unfold misses. simpl. destruct (missing this Key); simpl; lia.
Qed.

Lemma misses_app this Keys1 Keys2 :
  misses this (Keys1 ++ Keys2) = (misses this Keys1 + misses this Keys2)%N.
Proof.
  unfold misses. rewrite List.filter_app, length_app. lia.
Qed.

Lemma misses_le this Keys : (misses this Keys <= N.of_nat (length Keys))%N.
Proof.
  unfold misses. pose proof (List.filter_length_le (missing this) Keys). lia.
Qed.

(** A lookup yields the entry or the zero vector, and counts a miss. *)
Lemma lookupVocab_value this Key s :
  exists s',
    Embedder.lookupVocab this Key s = Ok (entry_or_zero this Key, s') /\
    counter_only s s' /\
    VocabMissCounter s'
      = (VocabMissCounter s + (if missing this Key then 1 else 0))%N.
Proof.
  unfold Embedder.lookupVocab, entry_or_zero, missing.
  destruct (Vocab_find Key (Embedder.Vocabulary this)) as [v|]; simpl.
  - exists s. split_and!; [done|done|lia].
  - eexists. split_and!; [reflexivity|done|simpl; lia].
Qed.

Lemma length_foldl_plus (d : nat) (L : list Embedding) : forall Acc,
  length Acc = d -> Forall (fun v : Embedding => length v = d) L ->
  length (foldl plus Acc L) = d.
Proof.
  induction L as [|v L IH]; intros Acc Hlen Hall; simpl; [done|].
  apply Forall_cons in Hall as [Hv Hall].
  apply IH; [|done]. rewrite length_plus; congruence.
Qed.

Lemma counted_at_elem Block i I :
  (i, I) ∈ instructionsWithoutDebug Block <-> counted_at Block i = Some I.
Proof.
  unfold instructionsWithoutDebug, counted_at.
  rewrite list_elem_of_In, List.filter_In, <- list_elem_of_In. simpl.
  rewrite elem_of_lookup_imap. split.
  - intros [(i' & I' & [= <- <-] & Hlook) Hdbg]. rewrite Hlook.
    by destruct (isDebugOrPseudoInst I).
  - destruct (instructions Block !! i) as [I'|] eqn:Hlook; [|done].
    destruct (isDebugOrPseudoInst I') eqn:Hdbg; [done|].
    intros [= <-]. rewrite Hdbg. split; [|done]. by exists i, I'.
Qed.

Lemma instructionsWithoutDebug_shift (k : nat) (l : list Instruction) :
  (List.filter (fun NI : nat * Instruction => negb (isDebugOrPseudoInst NI.2))
               (imap (fun N I => (k + N, I)) l)).*2
    = List.filter (fun I => negb (isDebugOrPseudoInst I)) l /\
  NoDup (List.filter
           (fun NI : nat * Instruction => negb (isDebugOrPseudoInst NI.2))
           (imap (fun N I => (k + N, I)) l)).*1 /\
  forall n, n ∈ (List.filter
                   (fun NI : nat * Instruction =>
                      negb (isDebugOrPseudoInst NI.2))
                   (imap (fun N I => (k + N, I)) l)).*1 -> k <= n.
Proof.
  revert k. induction l as [|I l IH]; intros k.
  - simpl. split_and!; [done|apply NoDup_nil_2|by intros n ?%elem_of_nil].
  - cbn [imap List.filter snd].
    assert (Hext : imap ((fun N I => (k + N, I)) ∘ S) l
                   = imap (fun N I => (S k + N, I)) l).
    { apply imap_ext. intros n I' _. simpl. f_equal. lia. }
    rewrite Hext. destruct (IH (S k)) as (IH1 & IH2 & IH3).
    destruct (isDebugOrPseudoInst I); cbn [negb].
    + split_and!; [done|done|]. intros n Hn%IH3. lia.
    + rewrite !fmap_cons, IH1. cbn [fst snd]. split_and!; [done| |].
      * apply NoDup_cons. split; [|done]. intros Hin%IH3. lia.
      * intros n [->|Hn%IH3]%elem_of_cons; lia.
Qed.

Lemma instructionsWithoutDebug_snd Block :
  (instructionsWithoutDebug Block).*2 = countedInstructions Block.
Proof. apply (instructionsWithoutDebug_shift 0). Qed.

Lemma instructionsWithoutDebug_NoDup Block :
  NoDup (instructionsWithoutDebug Block).*1.
Proof. apply (instructionsWithoutDebug_shift 0). Qed.

Lemma misses_nil this : misses this [] = 0%N.
Proof. done. Qed.

Lemma lift_add_assign_mismatch (a b : Embedding) s :
  length a ≠ length b ->
  lift (Embedding_add_assign a b) s = Crash AssertionFailure.
Proof.
  intros Hlen. unfold lift, Embedding_add_assign. by rewrite decide_False.
Qed.

Lemma bind_Crash {A B : Type} (m : M A) (k : A -> M B) s f :
  m s = Crash f -> bind m k s = Crash f.
Proof. unfold bind. by intros ->. Qed.

Lemma uniform_fits this Key : uniform this -> fits this Key = true.
Proof.
  intros Huni. unfold fits, entry_or_zero. apply bool_decide_eq_true.
  destruct (Vocab_find Key (Embedder.Vocabulary this)) as [v|] eqn:Hfind; simpl.
  - apply Vocab_find_Some_elem in Hfind.
    unfold uniform in Huni. rewrite Forall_forall in Huni.
    apply (Huni _ Hfind).
  - apply length_replicate.
Qed.

Lemma uniform_forallb_fits this Keys :
  uniform this -> forallb (fits this) Keys = true.
Proof.
  intros Huni. apply forallb_forall. intros Key _. by apply uniform_fits.
Qed.

Section EmbeddingValues.

Variable this : Embedder.t.

Let d := N.to_nat (Embedder.Dimension this).

Lemma fits_length Key :
  fits this Key = true -> length (entry_or_zero this Key) = d.
Proof. unfold fits. by intros ?%bool_decide_eq_true. Qed.

(** One lookup and its addition: it fails exactly when what the lookup
    yields has not the dimension of the engine. *)
Lemma lookup_step_outcome Acc Key s :
  length Acc = d ->
  (fits this Key = true ->
   exists s',
     lookup_step this Acc Key s
       = Ok (plus Acc (entry_or_zero this Key), s') /\
     counter_only s s' /\
     VocabMissCounter s' = (VocabMissCounter s + misses this [Key])%N) /\
  (fits this Key = false ->
   lookup_step this Acc Key s = Crash AssertionFailure).
Proof.
  intros Hlen. unfold lookup_step.
  destruct (lookupVocab_value this Key s) as (s1 & Hrun & Hc & Hn).
  split; intros Hfit.
  - apply fits_length in Hfit.
    mstep Hrun. rewrite lift_add_assign by congruence.
    exists s1. split_and!; [done|done|].
    rewrite Hn, misses_cons, misses_nil. lia.
  - unfold fits in Hfit. apply bool_decide_eq_false in Hfit.
    mstep Hrun. apply lift_add_assign_mismatch. fold d in Hfit. congruence.
Qed.

Lemma lookups_outcome Keys : forall Acc s,
  length Acc = d ->
  (forallb (fits this) Keys = true ->
   exists s',
     for_each Keys (lookup_step this) Acc s
       = Ok (foldl plus Acc (map (entry_or_zero this) Keys), s') /\
     counter_only s s' /\
     VocabMissCounter s' = (VocabMissCounter s + misses this Keys)%N) /\
  (forallb (fits this) Keys = false ->
   for_each Keys (lookup_step this) Acc s = Crash AssertionFailure).
Proof.
  induction Keys as [|Key Keys IH]; intros Acc s Hlen; cbn [for_each forallb].
  - split; [|done]. intros _. exists s. split_and!; [done|done|].
    rewrite misses_nil. lia.
  - destruct (lookup_step_outcome Acc Key s Hlen) as [Hgood Hbad].
    destruct (fits this Key) eqn:Hfit; simpl.
    + destruct (Hgood eq_refl) as (s1 & Hrun & Hc1 & Hn1).
      destruct (IH (plus Acc (entry_or_zero this Key)) s1) as [IHgood IHbad].
      { rewrite length_plus; [done|]. by rewrite fits_length. }
      split; intros Hall.
      * destruct (IHgood Hall) as (s' & Hrest & Hc2 & Hn2).
        mstep Hrun. exists s'.
        split_and!; [done|by eapply counter_only_trans|].
        rewrite Hn2, Hn1, misses_cons, misses_cons, misses_nil. lia.
      * mstep Hrun. by apply IHbad.
    + split; [done|]. intros _. apply bind_Crash. by apply Hbad.
Qed.

Lemma operands_lookups Ops : forall Acc s,
  for_each Ops (SymbolicEmbedder.operand_step this) Acc s
    = for_each (map operand_key Ops) (lookup_step this) Acc s.
Proof.
  induction Ops as [|Op Ops IH]; intros Acc s; cbn [for_each map]; [done|].
  unfold SymbolicEmbedder.operand_step at 1, lookup_step at 1.
  rewrite getOperandEmbedding_key. unfold bind at 1 3.
  destruct (bind _ _ s) as [[v s1]|]; [|done]. apply IH.
Qed.

(** The vector of an instruction is what the lookups of its keys add up
    to, from the zero vector. *)
Lemma instruction_vector_lookups I s :
  SymbolicEmbedder.instruction_vector this I s
    = for_each (lookup_keys I) (lookup_step this) (Embedding_zero d) s.
Proof.
  unfold SymbolicEmbedder.instruction_vector, lookup_keys. fold d.
  cbn [for_each]. unfold lookup_step at 1 2.
  rewrite getTypeEmbedding_key. unfold bind.
  destruct (Embedder.lookupVocab this (getOpcodeName I) s) as [[o s1]|];
    [|done].
  destruct (lift (Embedding_add_assign (Embedding_zero d) o) s1)
    as [[a1 s2]|]; [|done].
  destruct (Embedder.lookupVocab this (type_key (Instruction_getType I)) s2)
    as [[t s3]|]; [|done].
  destruct (lift (Embedding_add_assign a1 t) s3) as [[a2 s4]|]; [|done].
  apply operands_lookups.
Qed.

Lemma instruction_vector_outcome I s :
  (forallb (fits this) (lookup_keys I) = true ->
   exists s',
     SymbolicEmbedder.instruction_vector this I s
       = Ok (instruction_embedding this I, s') /\
     counter_only s s' /\
     VocabMissCounter s'
       = (VocabMissCounter s + misses this (lookup_keys I))%N) /\
  (forallb (fits this) (lookup_keys I) = false ->
   SymbolicEmbedder.instruction_vector this I s = Crash AssertionFailure).
Proof.
  rewrite instruction_vector_lookups. unfold instruction_embedding. fold d.
  apply lookups_outcome, length_replicate.
Qed.

Lemma entries_length Keys :
  forallb (fits this) Keys = true ->
  Forall (fun v : Embedding => length v = d) (map (entry_or_zero this) Keys).
Proof.
  intros Hall. rewrite forallb_forall in Hall.
  apply Forall_forall. intros v (Key & -> & Hin)%list_elem_of_fmap.
  apply fits_length, Hall. by apply list_elem_of_In.
Qed.

Lemma instruction_embedding_length I :
  forallb (fits this) (lookup_keys I) = true ->
  length (instruction_embedding this I) = d.
Proof.
  intros Hall. unfold instruction_embedding. apply length_foldl_plus.
  - apply length_replicate.
  - by apply entries_length.
Qed.

Lemma forallb_concat_fits (L : list (list string)) :
  forallb (fits this) (concat L) = true <->
  forall Keys, Keys ∈ L -> forallb (fits this) Keys = true.
Proof.
  induction L as [|Keys L IH]; simpl.
  - split; [by intros _ ? ?%elem_of_nil|done].
  - rewrite forallb_app, andb_true_iff, IH. split.
    + intros [H1 H2] Keys' [->|Hin]%elem_of_cons; [done|by apply H2].
    + intros Hall. split; [apply Hall; by left|].
      intros Keys' Hin. apply Hall. by right.
Qed.

Lemma block_embedding_length Block :
  forallb (fits this) (block_keys Block) = true ->
  length (block_embedding this Block) = d.
Proof.
  intros Hall. unfold block_embedding. apply length_foldl_plus.
  - apply length_replicate.
  - apply Forall_forall. intros v (I & -> & Hin)%list_elem_of_fmap.
    apply instruction_embedding_length.
    unfold block_keys in Hall. rewrite forallb_concat_fits in Hall.
    apply Hall. apply list_elem_of_fmap. by exists I.
Qed.

Lemma instructions_outcome BB L : forall Acc s,
  NoDup L.*1 ->
  length Acc = d ->
  (forallb (fits this) (concat (map lookup_keys L.*2)) = true ->
   exists s',
     for_each L (SymbolicEmbedder.instruction_step this BB) Acc s
       = Ok (foldl plus Acc (map (instruction_embedding this) L.*2), s') /\
     BBVecMap s' = BBVecMap s /\
     FuncVector s' = FuncVector s /\
     VocabMissCounter s'
       = (VocabMissCounter s
          + misses this (concat (map lookup_keys L.*2)))%N /\
     (forall B i, B ≠ BB ->
        InstVecMap s' !! (B, i) = InstVecMap s !! (B, i)) /\
     (forall i I, (i, I) ∈ L ->
        InstVecMap s' !! (BB, i) = Some (instruction_embedding this I)) /\
     (forall i, i ∉ L.*1 ->
        InstVecMap s' !! (BB, i) = InstVecMap s !! (BB, i))) /\
  (forallb (fits this) (concat (map lookup_keys L.*2)) = false ->
   for_each L (SymbolicEmbedder.instruction_step this BB) Acc s
     = Crash AssertionFailure).
Proof.
  induction L as [|[n I] L IH]; intros Acc s Hnd Hlen; cbn [for_each].
  - split; [|done]. intros _. exists s. split_and!; try done.
    + rewrite misses_nil. lia.
    + by intros i I ?%elem_of_nil.
  - simpl in Hnd. apply NoDup_cons in Hnd as [Hfresh Hnd].
    rewrite fmap_cons. cbn [map concat snd]. rewrite forallb_app.
    destruct (instruction_vector_outcome I s) as [Hgood Hbad].
    unfold SymbolicEmbedder.instruction_step at 1 3. cbn [fst snd].
    destruct (forallb (fits this) (lookup_keys I)) eqn:Hfit; cbn [andb].
    + destruct (Hgood eq_refl) as (s1 & Hiv & Hc & Hn1).
      destruct Hc as (Hc1 & Hc2 & Hc3).
      pose proof (instruction_embedding_length I Hfit) as Hliv.
      destruct (IH (plus Acc (instruction_embedding this I))
                   (set_InstVecMap
                      (<[(BB, n):=instruction_embedding this I]>
                         (InstVecMap s1)) s1))
        as [IHgood IHbad]; [done| |].
      { rewrite length_plus; congruence. }
      split; intros Hall.
      * destruct (IHgood Hall)
          as (s' & Hrest & Hbb & Hfv & Hn2 & Hother & Hthis & Hkeep).
        simpl in Hbb, Hfv, Hn2, Hother, Hkeep.
        mstep Hiv. mstep (modify_Ok _ s1).
        mstep (lift_add_assign _ _
                 (set_InstVecMap
                    (<[(BB, n):=instruction_embedding this I]>
                       (InstVecMap s1)) s1)
                 (eq_trans Hlen (eq_sym Hliv))).
        exists s'. split_and!.
        -- exact Hrest.
        -- congruence.
        -- congruence.
        -- rewrite Hn2, Hn1, misses_app. lia.
        -- intros B i HB. rewrite Hother by done.
           rewrite lookup_insert_ne by congruence. by rewrite Hc1.
        -- intros i I' [[= -> ->]|Hin]%elem_of_cons; [|by apply Hthis].
           rewrite Hkeep by done. by rewrite lookup_insert_eq.
        -- intros i [Hne Hi]%not_elem_of_cons. simpl in Hne.
           rewrite Hkeep by done.
           rewrite lookup_insert_ne by congruence. by rewrite Hc1.
      * mstep Hiv. mstep (modify_Ok _ s1).
        mstep (lift_add_assign _ _
                 (set_InstVecMap
                    (<[(BB, n):=instruction_embedding this I]>
                       (InstVecMap s1)) s1)
                 (eq_trans Hlen (eq_sym Hliv))).
        by apply IHbad.
    + split; [done|]. intros _. do 2 apply bind_Crash. by apply Hbad.
Qed.

(** What [computeEmbeddings(BB)] leaves in the members, and when it
    fails. *)
Lemma computeEmbeddings_BB_outcome BB Block s :
  (forallb (fits this) (block_keys Block) = true ->
   exists s',
     SymbolicEmbedder.computeEmbeddings_BB this BB Block s = Ok (tt, s') /\
     BBVecMap s' = <[BB := block_embedding this Block]> (BBVecMap s) /\
     FuncVector s' = FuncVector s /\
     VocabMissCounter s'
       = (VocabMissCounter s + misses this (block_keys Block))%N /\
     (forall B i, B ≠ BB ->
        InstVecMap s' !! (B, i) = InstVecMap s !! (B, i)) /\
     (forall i,
        InstVecMap s' !! (BB, i) =
          match counted_at Block i with
          | Some Inst => Some (instruction_embedding this Inst)
          | None => InstVecMap s !! (BB, i)
          end)) /\
  (forallb (fits this) (block_keys Block) = false ->
   SymbolicEmbedder.computeEmbeddings_BB this BB Block s
     = Crash AssertionFailure).
Proof.
  unfold SymbolicEmbedder.computeEmbeddings_BB, block_keys. fold d.
  destruct (instructions_outcome BB (instructionsWithoutDebug Block)
              (Embedding_zero d) s)
    as [Hgood Hbad].
  { apply instructionsWithoutDebug_NoDup. }
  { apply length_replicate. }
  rewrite instructionsWithoutDebug_snd in Hgood, Hbad.
  split; intros Hall.
  - destruct (Hgood Hall)
      as (s1 & Hrun & Hbb & Hfv & Hn & Hother & Hthis & Hkeep).
    mstep Hrun.
    eexists. split; [reflexivity|]. simpl.
    split_and!; try done.
    + by rewrite Hbb.
    + intros i. destruct (counted_at Block i) as [I|] eqn:Hat.
      * apply Hthis. by apply counted_at_elem.
      * apply Hkeep. intros ((i' & I) & -> & Hin)%list_elem_of_fmap.
        apply counted_at_elem in Hin. simpl in Hat. congruence.
  - apply bind_Crash. by apply Hbad.
Qed.

Lemma block_step_outcome BB Block s :
  length (FuncVector s) = d ->
  (forallb (fits this) (block_keys Block) = true ->
   exists s',
     SymbolicEmbedder.block_step this tt (BB, Block) s = Ok (tt, s') /\
     BBVecMap s' = <[BB := block_embedding this Block]> (BBVecMap s) /\
     FuncVector s' = plus (FuncVector s) (block_embedding this Block) /\
     VocabMissCounter s'
       = (VocabMissCounter s + misses this (block_keys Block))%N /\
     (forall B i, B ≠ BB ->
        InstVecMap s' !! (B, i) = InstVecMap s !! (B, i)) /\
     (forall i,
        InstVecMap s' !! (BB, i) =
          match counted_at Block i with
          | Some Inst => Some (instruction_embedding this Inst)
          | None => InstVecMap s !! (BB, i)
          end)) /\
  (forallb (fits this) (block_keys Block) = false ->
   SymbolicEmbedder.block_step this tt (BB, Block) s
     = Crash AssertionFailure).
Proof.
  intros Hlen. unfold SymbolicEmbedder.block_step. cbn [fst snd].
  destruct (computeEmbeddings_BB_outcome BB Block s) as [Hgood Hbad].
  split; intros Hall.
  - destruct (Hgood Hall) as (s1 & Hrun & Hbb & Hfv & Hn & Hother & Hthis).
    mstep Hrun.
    assert (BBVecMap s1 !! BB = Some (block_embedding this Block)) as Hstored
      by (rewrite Hbb; apply lookup_insert_eq).
    mstep (BBVecMap_subscript_present _ _ _ Hstored).
    mstep (gets_Ok (load (Ref_BBVecMap_at BB)) s1).
    mstep (gets_Ok FuncVector s1).
    simpl. rewrite Hstored. simpl.
    pose proof (block_embedding_length Block Hall) as Hlb.
    mstep (lift_add_assign (FuncVector s1) (block_embedding this Block) s1
             ltac:(congruence)).
    eexists. split; [reflexivity|]. simpl.
    split_and!; try done. by rewrite Hfv.
  - apply bind_Crash. by apply Hbad.
Qed.

Lemma blocks_outcome L : forall s,
  NoDup L.*1 ->
  length (FuncVector s) = d ->
  (forallb (fits this) (concat (map block_keys L.*2)) = true ->
   exists s',
     for_each L (SymbolicEmbedder.block_step this) tt s = Ok (tt, s') /\
     FuncVector s' =
       foldl plus (FuncVector s) (map (block_embedding this) L.*2) /\
     VocabMissCounter s'
       = (VocabMissCounter s
          + misses this (concat (map block_keys L.*2)))%N /\
     (forall B Block, (B, Block) ∈ L ->
        BBVecMap s' !! B = Some (block_embedding this Block)) /\
     (forall B, B ∉ L.*1 -> BBVecMap s' !! B = BBVecMap s !! B) /\
     (forall B Block i, (B, Block) ∈ L ->
        InstVecMap s' !! (B, i) =
          match counted_at Block i with
          | Some Inst => Some (instruction_embedding this Inst)
          | None => InstVecMap s !! (B, i)
          end) /\
     (forall B i, B ∉ L.*1 ->
        InstVecMap s' !! (B, i) = InstVecMap s !! (B, i))) /\
  (forallb (fits this) (concat (map block_keys L.*2)) = false ->
   for_each L (SymbolicEmbedder.block_step this) tt s
     = Crash AssertionFailure).
Proof.
  induction L as [|[BB Block] L IH]; intros s Hnd Hlen; cbn [for_each].
  - split; [|done]. intros _. exists s. split_and!; try done.
    + rewrite misses_nil. lia.
    + by intros B Block ?%elem_of_nil.
    + by intros B Block i ?%elem_of_nil.
  - simpl in Hnd. apply NoDup_cons in Hnd as [Hfresh Hnd].
    rewrite fmap_cons. cbn [map concat snd]. rewrite forallb_app.
    destruct (block_step_outcome BB Block s Hlen) as [Hgood Hbad].
    destruct (forallb (fits this) (block_keys Block)) eqn:Hfit; cbn [andb].
    + destruct (Hgood eq_refl)
        as (s1 & Hrun & Hbb & Hfv & Hn1 & Hother & Hthis).
      destruct (IH s1 Hnd) as [IHgood IHbad].
      { rewrite Hfv, length_plus; [done|].
        by rewrite block_embedding_length. }
      split; intros Hall.
      * destruct (IHgood Hall)
          as (s' & Hrest & Hsum & Hn2 & Hset & Hkeep & Hiset & Hikeep).
        mstep Hrun. exists s'. split_and!; try done.
        -- by rewrite Hsum, Hfv.
        -- rewrite Hn2, Hn1, misses_app. lia.
        -- intros B Block' [[= -> ->]|Hin]%elem_of_cons; [|by eapply Hset].
           rewrite (Hkeep BB Hfresh), Hbb. apply lookup_insert_eq.
        -- intros B [HB Hn]%not_elem_of_cons.
           rewrite (Hkeep B Hn), Hbb. by apply lookup_insert_ne.
        -- intros B Block' i [[= -> ->]|Hin]%elem_of_cons.
           ++ rewrite (Hikeep BB i Hfresh). apply Hthis.
           ++ rewrite (Hiset B Block' i Hin).
              destruct (counted_at Block' i); [done|]. apply Hother.
              intros ->. apply Hfresh. apply list_elem_of_fmap.
              by exists (BB, Block').
        -- intros B i [HB Hn]%not_elem_of_cons.
           rewrite (Hikeep B i Hn). by apply Hother.
      * mstep Hrun. by apply IHbad.
    + split; [done|]. intros _. apply bind_Crash. by apply Hbad.
Qed.

End EmbeddingValues.

Lemma depth_first_snd_elem F B Block :
  isDeclaration F = false ->
  (B, Block) ∈ depth_first F <-> reachable F B /\ blocks F !! B = Some Block.
Proof.
  intros Hbody. by rewrite depth_first_elem, df_order_reachable.
Qed.

(** One run of [computeEmbeddings()] on a function with a body: the
    values it leaves in the members, and when it fails. *)
Lemma computeEmbeddings_outcome this s :
  isDeclaration (Embedder.F this) = false ->
  length (FuncVector s) = N.to_nat (Embedder.Dimension this) ->
  (forallb (fits this) (function_keys (Embedder.F this)) = true ->
   exists s',
     SymbolicEmbedder.computeEmbeddings this s = Ok (tt, s') /\
     FuncVector s' =
       foldl plus (FuncVector s)
             (map (block_embedding this) (walked_blocks (Embedder.F this))) /\
     VocabMissCounter s'
       = (VocabMissCounter s
          + misses this (function_keys (Embedder.F this)))%N /\
     (forall B Block,
        reachable (Embedder.F this) B ->
        blocks (Embedder.F this) !! B = Some Block ->
        BBVecMap s' !! B = Some (block_embedding this Block) /\
        forall i,
          InstVecMap s' !! (B, i) =
            match counted_at Block i with
            | Some Inst => Some (instruction_embedding this Inst)
            | None => InstVecMap s !! (B, i)
            end) /\
     (forall B,
        ¬ reachable (Embedder.F this) B ->
        BBVecMap s' !! B = BBVecMap s !! B /\
        forall i, InstVecMap s' !! (B, i) = InstVecMap s !! (B, i))) /\
  (forallb (fits this) (function_keys (Embedder.F this)) = false ->
   SymbolicEmbedder.computeEmbeddings this s = Crash AssertionFailure).
Proof.
  intros Hbody Hlen. unfold SymbolicEmbedder.computeEmbeddings.
  rewrite Hbody.
  pose proof (depth_first_fst _ Hbody) as Hfst.
  destruct (blocks_outcome this (depth_first (Embedder.F this)) s)
    as [Hgood Hbad];
    [rewrite Hfst; by apply df_order_NoDup|done|].
  split; [|done]. intros Hall.
  destruct (Hgood Hall)
    as (s' & Hrun & Hsum & Hn & Hset & Hkeep & Hiset & Hikeep).
  rewrite Hfst in *.
  exists s'. split_and!; try done.
  - intros B Block HB Hlook.
    assert ((B, Block) ∈ depth_first (Embedder.F this)) as Hin
      by by apply depth_first_snd_elem.
    split; [by apply Hset|]. intros i. by apply Hiset.
  - intros B HB. rewrite <- df_order_reachable in HB by done.
    split; [by apply Hkeep|]. intros i. by apply Hikeep.
Qed.

Lemma reachable_lookup F B :
  isDeclaration F = false -> reachable F B -> is_Some (blocks F !! B).
Proof.
  intros Hbody HB. apply lookup_lt_is_Some_2.
  apply df_order_lt; [done|]. by apply df_order_reachable.
Qed.

(* ===================================================================== *)
(** ** Blocks the walk does not reach *)
(* ===================================================================== *)

(** With enough fuel, the walk does not depend on the fuel. *)
Lemma df_walk_fuel F Fuel1 : forall Fuel2 Pending Visited,
  potential F Visited + length Pending <= Fuel1 ->
  potential F Visited + length Pending <= Fuel2 ->
  (forall B, B ∈ Pending -> B < length (blocks F)) ->
  df_walk F Fuel1 Pending Visited = df_walk F Fuel2 Pending Visited.
Proof.
  induction Fuel1 as [|Fuel1 IH]; intros Fuel2 Pending Visited H1 H2 Hlt.
  - destruct Pending as [|P Pending]; [|simpl in H1; lia].
    by destruct Fuel2.
  - destruct Pending as [|P Pending]; [by destruct Fuel2|].
    destruct Fuel2 as [|Fuel2]; [simpl in H2; lia|].
    simpl in *. case_bool_decide as HP.
    + apply IH; [lia|lia|]. intros B HB. apply Hlt. by right.
    + assert (P < length (blocks F)) as HPlt by (apply Hlt; by left).
      pose proof (potential_visit F Visited P HPlt HP) as Hpot.
      apply IH.
      * rewrite length_app. lia.
      * rewrite length_app. lia.
      * intros B [HB|HB]%elem_of_app; [by eapply successors_lt|].
        apply Hlt. by right.
Qed.

Section ReplaceBlock.

Variable F : Function.
Variable U : BasicBlockAddr.
Variable Block' : BasicBlock.
Hypothesis unreachable : ¬ reachable F U.

Let F' := replace_block F U Block'.

Lemma replace_block_length : length (blocks F') = length (blocks F).
Proof. apply length_insert. Qed.

Lemma replace_block_lookup B :
  reachable F B -> blocks F' !! B = blocks F !! B.
Proof.
  intros HB. apply list_lookup_insert_ne. by intros ->.
Qed.

Lemma replace_block_successors B :
  reachable F B -> successors F' B = successors F B.
Proof.
  intros HB. unfold successors.
  by rewrite replace_block_length, replace_block_lookup.
Qed.

Lemma replace_block_isDeclaration : isDeclaration F' = isDeclaration F.
Proof.
  unfold isDeclaration.
  pose proof replace_block_length as Hlen.
  destruct (blocks F'), (blocks F); done.
Qed.

Lemma replace_block_df_walk Fuel : forall Pending Visited,
  (forall B, B ∈ Pending -> reachable F B) ->
  df_walk F' Fuel Pending Visited = df_walk F Fuel Pending Visited.
Proof.
  induction Fuel as [|Fuel IH]; intros Pending Visited HP; simpl; [done|].
  destruct Pending as [|P Pending]; [done|].
  assert (reachable F P) as HPr by (apply HP; by left).
  rewrite (replace_block_successors P HPr).
  case_bool_decide.
  - apply IH. intros B HB. apply HP. by right.
  - apply IH. intros B [HB|HB]%elem_of_app.
    + by apply (reachable_step F P).
    + apply HP. by right.
Qed.

Lemma replace_block_df_order : df_order F' = df_order F.
Proof.
  destruct (isDeclaration F) eqn:Hbody.
  { assert (blocks F = []) as Hnil
      by (unfold isDeclaration in Hbody; by destruct (blocks F)).
    unfold df_order, df_fuel, F', replace_block, successors. simpl.
    by rewrite Hnil. }
  pose proof (entry_lt F Hbody) as Hentry.
  assert (Hbody' : isDeclaration F' = false)
    by by rewrite replace_block_isDeclaration.
  pose proof (entry_lt F' Hbody') as Hentry'.
  assert (Hfuel : forall G, potential G [] + length [0] <= df_fuel G).
  { intros G. rewrite potential_nil. unfold df_fuel. simpl. lia. }
  pose proof (Hfuel F) as Hb. pose proof (Hfuel F') as Hb'.
  unfold df_order.
  rewrite (df_walk_fuel F' (df_fuel F') (df_fuel F `max` df_fuel F') [0] []),
    (df_walk_fuel F (df_fuel F) (df_fuel F `max` df_fuel F') [0] []).
  - apply replace_block_df_walk.
    intros B ->%list_elem_of_singleton. by apply reachable_entry.
  - done.
  - lia.
  - by intros B ->%list_elem_of_singleton.
  - done.
  - lia.
  - by intros B ->%list_elem_of_singleton.
Qed.

Lemma replace_block_reachable B : reachable F' B <-> reachable F B.
Proof.
  destruct (isDeclaration F) eqn:Hbody.
  - split; intros HB; exfalso.
    + assert (isDeclaration F' = true) as Hd
        by by rewrite replace_block_isDeclaration.
      induction HB as [Hlt|B' Succ _ IH _]; [|done].
      unfold isDeclaration in Hd. destruct (blocks F'); [simpl in Hlt; lia|done].
    + induction HB as [Hlt|B' Succ _ IH _]; [|done].
      unfold isDeclaration in Hbody.
      destruct (blocks F); [simpl in Hlt; lia|done].
  - rewrite <- !df_order_reachable, replace_block_df_order;
      [done|done|by rewrite replace_block_isDeclaration].
Qed.

Lemma replace_block_depth_first : depth_first F' = depth_first F.
Proof.
  destruct (isDeclaration F) eqn:Hbody.
  { unfold depth_first. rewrite replace_block_df_order.
    assert (blocks F = []) as Hnil
      by (unfold isDeclaration in Hbody; by destruct (blocks F)).
    unfold F', replace_block. simpl. by rewrite Hnil. }
  unfold depth_first. rewrite replace_block_df_order.
  assert (Hreach : forall B, B ∈ df_order F -> reachable F B)
    by (intros B; by apply df_order_reachable).
  induction (df_order F) as [|B l IH]; [done|]. cbn [omap list_omap].
  rewrite (replace_block_lookup B) by (apply Hreach; by left).
  rewrite IH; [done|]. intros B' HB'. apply Hreach. by right.
Qed.

End ReplaceBlock.

(** The engine reads the function only through the walk. *)
Lemma computeEmbeddings_with_function this F' :
  isDeclaration F' = isDeclaration (Embedder.F this) ->
  depth_first F' = depth_first (Embedder.F this) ->
  SymbolicEmbedder.computeEmbeddings (with_function this F')
    = SymbolicEmbedder.computeEmbeddings this.
Proof.
  intros Hdecl Hwalk. unfold SymbolicEmbedder.computeEmbeddings. simpl.
  by rewrite Hdecl, Hwalk.
Qed.

Lemma call_with_function this F' a :
  isDeclaration F' = isDeclaration (Embedder.F this) ->
  depth_first F' = depth_first (Embedder.F this) ->
  call (with_function this F') tt a = call this tt a.
Proof.
  intros Hdecl Hwalk.
  pose proof (computeEmbeddings_with_function this F' Hdecl Hwalk) as Heq.
  destruct a; simpl;
    unfold Embedder.getInstVecMap, Embedder.getBBVecMap,
      Embedder.getFunctionVector; simpl;
    by rewrite ?Heq.
Qed.

(** The three accessors without argument never read a block that is not
    reachable from the entry: with any other block in its place, every
    sequence of calls of [getInstVecMap], [getBBVecMap] and
    [getFunctionVector] has the same outcome, the same vectors, the same
    maps and the same count of misses, from every state of the members;
    and the blocks that are reachable are the same.  ([getBBVector] reads
    the block it is given, reachable or not.) *)
Theorem unreachable_block_is_never_read this U Block' :
  ¬ reachable (Embedder.F this) U ->
  (forall B, reachable (replace_block (Embedder.F this) U Block') B
             <-> reachable (Embedder.F this) B) /\
  forall (l : list Accessor) s,
    calls (with_function this (replace_block (Embedder.F this) U Block')) l s
      = calls this l s.
Proof.
  intros HU. split; [intros B; by apply replace_block_reachable|].
  intros l. unfold calls.
  induction l as [|a l IH]; intros s; simpl; [done|].
  rewrite call_with_function;
    [|by apply replace_block_isDeclaration|by apply replace_block_depth_first].
  unfold bind. destruct (call this tt a s) as [[[] s1]|]; [|done].
  apply IH.
Qed.

Lemma unreachable_block_is_never_read_witness :
  (forall B,
     reachable (replace_block
                  (Embedder.F (Samples.Engine Samples.WithUnreachable))
                  2 Fixtures.Other) B
     <-> reachable (Embedder.F (Samples.Engine Samples.WithUnreachable)) B) /\
  forall (l : list Accessor) s,
    calls (with_function
             (Samples.Engine Samples.WithUnreachable)
             (replace_block
                (Embedder.F (Samples.Engine Samples.WithUnreachable))
                2 Fixtures.Other)) l s
      = calls (Samples.Engine Samples.WithUnreachable) l s.
Proof.
  apply (unreachable_block_is_never_read
           (Samples.Engine Samples.WithUnreachable) 2 Fixtures.Other).
  intros H%df_order_reachable; [|done].
  revert H. vm_compute. intros H.
  repeat (apply elem_of_cons in H as [H|H]; [done|]).
  by apply elem_of_nil in H.
Defined.

(* ===================================================================== *)
(** ** Further properties of the embedder *)
(* ===================================================================== *)

Lemma forallb_fits_iff this Keys :
  forallb (fits this) Keys = true <->
  forall Key v,
    Key ∈ Keys -> Vocab_find Key (Embedder.Vocabulary this) = Some v ->
    length v = N.to_nat (Embedder.Dimension this).
Proof.
  rewrite forallb_forall. unfold fits, entry_or_zero. split.
  - intros Hall Key v Hin%list_elem_of_In Hfind.
    specialize (Hall Key Hin). rewrite Hfind in Hall.
    by apply bool_decide_eq_true in Hall.
  - intros Hall Key Hin%list_elem_of_In. apply bool_decide_eq_true.
    destruct (Vocab_find Key (Embedder.Vocabulary this)) as [v|] eqn:Hfind.
    + by apply (Hall Key v).
    + apply length_replicate.
Qed.

(** The vectors of one block.  [computeEmbeddings(BB)] fails, on the
    assertion of [+=], exactly when a lookup for an instruction of the
    block that is not skipped finds an entry that has not the dimension of
    the engine.  Otherwise the vector of every such instruction is the
    sum, from the zero vector, of what its lookups yield, in the order
    opcode, type, operands, a key the vocabulary does not have yielding the
    zero vector; the vector of the block is the sum of these vectors in the
    order of the instructions; the counter of misses grows by the number of
    lookups whose key the vocabulary does not have; and nothing else
    changes. *)
Theorem block_vector_is_sum_of_lookups this BB Block s :
  ((forall Key v,
       Key ∈ block_keys Block ->
       Vocab_find Key (Embedder.Vocabulary this) = Some v ->
       length v = N.to_nat (Embedder.Dimension this)) ->
   exists s',
     SymbolicEmbedder.computeEmbeddings_BB this BB Block s = Ok (tt, s') /\
     BBVecMap s' = <[BB := block_embedding this Block]> (BBVecMap s) /\
     FuncVector s' = FuncVector s /\
     VocabMissCounter s'
       = (VocabMissCounter s + misses this (block_keys Block))%N /\
     (misses this (block_keys Block)
        <= N.of_nat (length (block_keys Block)))%N /\
     (forall B i, B ≠ BB ->
        InstVecMap s' !! (B, i) = InstVecMap s !! (B, i)) /\
     (forall i,
        InstVecMap s' !! (BB, i) =
          match counted_at Block i with
          | Some Inst => Some (instruction_embedding this Inst)
          | None => InstVecMap s !! (BB, i)
          end)) /\
  ((exists Key v,
       Key ∈ block_keys Block /\
       Vocab_find Key (Embedder.Vocabulary this) = Some v /\
       length v ≠ N.to_nat (Embedder.Dimension this)) ->
   SymbolicEmbedder.computeEmbeddings_BB this BB Block s
     = Crash AssertionFailure).
Proof.
  destruct (computeEmbeddings_BB_outcome this BB Block s) as [Hgood Hbad].
  split.
  - intros Hall%forallb_fits_iff.
    destruct (Hgood Hall) as (s' & Hrun & Hbb & Hfv & Hn & Hother & Hthis).
    exists s'. split_and!; try done. apply misses_le.
  - intros (Key & v & Hin & Hfind & Hlen). apply Hbad.
    destruct (forallb (fits this) (block_keys Block)) eqn:Hall; [|done].
    rewrite forallb_fits_iff in Hall. by specialize (Hall Key v Hin Hfind).
Qed.

(** The first request to a newly built engine, for a function with a
    body and a vocabulary of uniform dimension: the function vector is the
    sum, from the zero vector, of the vectors of the blocks in the order
    of the walk; every reachable block has its vector in the block map and
    each of its instructions that is not skipped has its vector in the
    instruction map; the two maps hold nothing else; and the counter of
    misses has grown by the number of lookups that missed. *)
Theorem new_engine_embeds_function Opts F Vocabulary Counter this s0 :
  isDeclaration F = false ->
  SymbolicEmbedder.ctor Opts F Vocabulary Counter = Ok (this, s0) ->
  uniform this ->
  exists s1,
    Embedder.getFunctionVector this s0 = Ok (Ref_FuncVector, s1) /\
    load Ref_FuncVector s1 = function_embedding this /\
    VocabMissCounter s1 = (Counter + misses this (function_keys F))%N /\
    (forall B Block,
       reachable F B -> blocks F !! B = Some Block ->
       load Ref_BBVecMap s1 !! B = Some (block_embedding this Block) /\
       forall i,
         load Ref_InstVecMap s1 !! (B, i)
           = instruction_embedding this <$> counted_at Block i) /\
    (forall B,
       ¬ reachable F B ->
       load Ref_BBVecMap s1 !! B = None /\
       forall i, load Ref_InstVecMap s1 !! (B, i) = None).
Proof.
  intros Hbody Hctor Huni.
  destruct (ctor_inv _ _ _ _ _ _ Hctor) as (k & First & _ & HF & _ & _ & ->).
  subst F.
  destruct (computeEmbeddings_outcome this
              (mkStore Counter ∅ ∅
                 (Embedding_zero (N.to_nat (Embedder.Dimension this))))
              Hbody (length_replicate _ _)) as [Hgood _].
  destruct (Hgood (uniform_forallb_fits _ _ Huni))
    as (s1 & Hrun & Hsum & Hn & Hreach & Hunreach).
  exists s1. unfold Embedder.getFunctionVector.
  rewrite (bind_Ok _ _ _ _ _ Hrun). split_and!; [done|done|done| |].
  - intros B Block HB Hlook.
    destruct (Hreach B Block HB Hlook) as [Hbb Hinst]. split; [done|].
    intros i. simpl. rewrite Hinst. simpl.
    destruct (counted_at Block i); [done|]. apply lookup_empty.
  - intros B HB. destruct (Hunreach B HB) as [Hbb Hinst]. split.
    + simpl. by rewrite Hbb.
    + intros i. simpl. by rewrite Hinst.
Qed.

Lemma new_engine_embeds_function_witness :
  exists s1,
    Embedder.getFunctionVector (Samples.Engine Samples.WithUnreachable)
                               Samples.Fresh = Ok (Ref_FuncVector, s1) /\
    load Ref_FuncVector s1
      = function_embedding (Samples.Engine Samples.WithUnreachable) /\
    VocabMissCounter s1
      = (0 + misses (Samples.Engine Samples.WithUnreachable)
                    (function_keys Samples.WithUnreachable))%N /\
    (forall B Block,
       reachable Samples.WithUnreachable B ->
       blocks Samples.WithUnreachable !! B = Some Block ->
       load Ref_BBVecMap s1 !! B
         = Some (block_embedding (Samples.Engine Samples.WithUnreachable)
                                 Block) /\
       forall i,
         load Ref_InstVecMap s1 !! (B, i)
           = instruction_embedding (Samples.Engine Samples.WithUnreachable)
               <$> counted_at Block i) /\
    (forall B,
       ¬ reachable Samples.WithUnreachable B ->
       load Ref_BBVecMap s1 !! B = None /\
       forall i, load Ref_InstVecMap s1 !! (B, i) = None).
Proof.
  apply (new_engine_embeds_function
           Samples.Opts Samples.WithUnreachable Samples.Vocabulary 0
           (Samples.Engine Samples.WithUnreachable) Samples.Fresh).
  - reflexivity.
  - reflexivity.
  - repeat constructor.
Defined.

(** The embedding of the examples, computed: the vectors of [add], of
    its block and of the function with the unreachable block, with no
    miss; one miss for an instruction of unknown opcode; and the failed
    assertion when the vocabulary has entries of two sizes. *)
Example embedding_of_the_examples :
  instruction_embedding (Samples.Engine Samples.SingleBlock) Samples.AddInst
    = [1%float; 3%float] /\
  block_embedding (Samples.Engine Samples.SingleBlock) Fixtures.WithDebug
    = [1%float; 3%float] /\
  function_embedding (Samples.Engine Samples.WithUnreachable)
    = [2%float; 6%float] /\
  misses (Samples.Engine Samples.WithUnreachable)
         (function_keys Samples.WithUnreachable) = 0%N /\
  lookup_keys Fixtures.FooInst = ["foo"; "integerTy"; "variable"] /\
  misses (Samples.Engine Samples.SingleBlock)
         (lookup_keys Fixtures.FooInst) = 1%N /\
  instruction_embedding (Samples.Engine Samples.SingleBlock) Fixtures.FooInst
    = [0%float; 2%float] /\
  exists this s0,
    SymbolicEmbedder.ctor Samples.Opts Samples.SingleBlock
                          Fixtures.RaggedVocabulary 0 = Ok (this, s0) /\
    Embedder.Dimension this = 3%N /\
    fits this "integerTy" = false /\
    Embedder.getFunctionVector this s0 = Crash AssertionFailure.
Proof.
  split_and!; try (vm_compute; reflexivity).
  eexists _, _. split; [reflexivity|].
  split_and!; vm_compute; reflexivity.
Qed.

(** Instructions that [instructionsWithoutDebug] skips do not count: two
    blocks with the same instructions once the skipped ones are left out
    get the same vector and the same number of misses, wherever they
    are. *)
Theorem skipped_instructions_do_not_count this BB BB' Block Block' s :
  uniform this ->
  countedInstructions Block = countedInstructions Block' ->
  exists v s1 s1',
    SymbolicEmbedder.computeEmbeddings_BB this BB Block s = Ok (tt, s1) /\
    SymbolicEmbedder.computeEmbeddings_BB this BB' Block' s = Ok (tt, s1') /\
    BBVecMap s1 !! BB = Some v /\
    BBVecMap s1' !! BB' = Some v /\
    VocabMissCounter s1 = VocabMissCounter s1'.
Proof.
  intros Huni Hsame.
  destruct (computeEmbeddings_BB_outcome this BB Block s) as [Hgood _].
  destruct (computeEmbeddings_BB_outcome this BB' Block' s) as [Hgood' _].
  destruct (Hgood (uniform_forallb_fits _ _ Huni))
    as (s1 & Hrun & Hbb & _ & Hn & _).
  destruct (Hgood' (uniform_forallb_fits _ _ Huni))
    as (s1' & Hrun' & Hbb' & _ & Hn' & _).
  exists (block_embedding this Block), s1, s1'.
  split_and!; [done|done| | |].
  - rewrite Hbb. apply lookup_insert_eq.
  - rewrite Hbb'. unfold block_embedding. rewrite Hsame.
    apply lookup_insert_eq.
  - rewrite Hn, Hn'. unfold block_keys. by rewrite Hsame.
Qed.

Lemma skipped_instructions_do_not_count_witness :
  exists v s1 s1',
    SymbolicEmbedder.computeEmbeddings_BB
      (Samples.Engine Samples.SingleBlock) 0 Fixtures.Plain Samples.Fresh
      = Ok (tt, s1) /\
    SymbolicEmbedder.computeEmbeddings_BB
      (Samples.Engine Samples.SingleBlock) 1 Fixtures.WithDebug Samples.Fresh
      = Ok (tt, s1') /\
    BBVecMap s1 !! 0 = Some v /\
    BBVecMap s1' !! 1 = Some v /\
    VocabMissCounter s1 = VocabMissCounter s1'.
Proof.
  apply (skipped_instructions_do_not_count
           (Samples.Engine Samples.SingleBlock) 0 1
           Fixtures.Plain Fixtures.WithDebug Samples.Fresh).
  - repeat constructor.
  - reflexivity.
Defined.

Lemma computeEmbeddings_total this s :
  uniform this ->
  length (FuncVector s) = N.to_nat (Embedder.Dimension this) ->
  exists s',
    SymbolicEmbedder.computeEmbeddings this s = Ok (tt, s') /\
    length (FuncVector s') = N.to_nat (Embedder.Dimension this) /\
    (VocabMissCounter s <= VocabMissCounter s')%N.
Proof.
  intros Huni Hlen.
  destruct (isDeclaration (Embedder.F this)) eqn:Hbody.
  - exists s. rewrite computeEmbeddings_declaration by done.
    split_and!; [done|done|lia].
  - destruct (computeEmbeddings_outcome this s Hbody Hlen) as [Hgood _].
    destruct (Hgood (uniform_forallb_fits _ _ Huni))
      as (s' & Hrun & Hsum & Hn & _).
    exists s'. split_and!; [done| |lia].
    rewrite Hsum. apply length_foldl_plus; [done|].
    apply Forall_forall. intros v (Block & -> & _)%list_elem_of_fmap.
    apply block_embedding_length. by apply uniform_forallb_fits.
Qed.

Lemma getBBVector_total this BB Block s :
  uniform this ->
  exists s',
    Embedder.getBBVector this BB Block s = Ok (Ref_BBVecMap_at BB, s') /\
    FuncVector s' = FuncVector s /\
    (VocabMissCounter s <= VocabMissCounter s')%N /\
    is_Some (BBVecMap s' !! BB) /\
    (is_Some (BBVecMap s !! BB) -> s' = s).
Proof.
  intros Huni. unfold Embedder.getBBVector.
  mstep (gets_Ok (fun s => BBVecMap s !! BB) s).
  destruct (BBVecMap s !! BB) as [v|] eqn:Hlook.
  - exists s. split_and!; [done|done|lia|by rewrite Hlook|done].
  - destruct (computeEmbeddings_BB_outcome this BB Block s) as [Hgood _].
    destruct (Hgood (uniform_forallb_fits _ _ Huni))
      as (s' & Hrun & Hbb & Hfv & Hn & _).
    assert (BBVecMap s' !! BB = Some (block_embedding this Block)) as Hstored
      by (rewrite Hbb; apply lookup_insert_eq).
    simpl. mstep Hrun. rewrite (BBVecMap_subscript_present _ _ _ Hstored).
    exists s'. split_and!; [done|done|lia|by rewrite Hstored|].
    by intros [? ?].
Qed.

Lemma request_total this r s :
  uniform this ->
  length (FuncVector s) = N.to_nat (Embedder.Dimension this) ->
  exists s',
    request this tt r s = Ok (tt, s') /\
    length (FuncVector s') = N.to_nat (Embedder.Dimension this) /\
    (VocabMissCounter s <= VocabMissCounter s')%N.
Proof.
  intros Huni Hlen.
  destruct (computeEmbeddings_total this s Huni Hlen)
    as (s' & Hrun & Hlen' & Hn).
  destruct r as [| | |BB Block]; simpl.
  - unfold Embedder.getInstVecMap, bind, gets, ret; simpl.
    case_bool_decide; rewrite ?Hrun; [by exists s'|].
    exists s. split_and!; [done|done|lia].
  - unfold Embedder.getBBVecMap, bind, gets, ret; simpl.
    case_bool_decide; rewrite ?Hrun; [by exists s'|].
    exists s. split_and!; [done|done|lia].
  - unfold Embedder.getFunctionVector, bind, ret; simpl.
    rewrite Hrun. by exists s'.
  - destruct (getBBVector_total this BB Block s Huni)
      as (s1 & Hget & Hfv & Hn1 & _).
    rewrite (bind_Ok _ _ _ _ _ Hget). exists s1.
    split_and!; [done|congruence|done].
Qed.

(** On a vocabulary of uniform dimension the engine does not fail: every
    sequence of requests, [getBBVector] for whatever block included,
    returns, whatever was computed before; the function vector keeps the
    dimension of the engine, and the counter of misses does not
    decrease. *)
Theorem requests_never_fail this (l : list Request) s :
  uniform this ->
  length (FuncVector s) = N.to_nat (Embedder.Dimension this) ->
  exists s',
    requests this l s = Ok (tt, s') /\
    length (FuncVector s') = N.to_nat (Embedder.Dimension this) /\
    (VocabMissCounter s <= VocabMissCounter s')%N.
Proof.
  intros Huni. unfold requests. revert s.
  induction l as [|r l IH]; intros s Hlen; simpl.
  - exists s. split_and!; [done|done|lia].
  - destruct (request_total this r s Huni Hlen) as (s1 & Hrun & Hlen1 & Hn1).
    rewrite (bind_Ok _ _ _ _ _ Hrun).
    destruct (IH s1 Hlen1) as (s' & Hrest & Hlen' & Hn').
    exists s'. split_and!; [done|done|lia].
Qed.

Lemma requests_never_fail_witness :
  exists s',
    requests (Samples.Engine Samples.TwoBlocks)
             [Request_getBBVector 1 Fixtures.WithDebug;
              Request_getInstVecMap;
              Request_getFunctionVector;
              Request_getBBVector 7 Fixtures.Other;
              Request_getBBVecMap;
              Request_getFunctionVector] Samples.Fresh = Ok (tt, s') /\
    length (FuncVector s')
      = N.to_nat (Embedder.Dimension (Samples.Engine Samples.TwoBlocks)) /\
    (VocabMissCounter Samples.Fresh <= VocabMissCounter s')%N.
Proof.
  apply (requests_never_fail (Samples.Engine Samples.TwoBlocks) _
           Samples.Fresh).
  - repeat constructor.
  - reflexivity.
Defined.

(** [getBBVector] answers from the block map: once it has returned for a
    block, a further request for that block changes nothing and designates
    the same vector, whatever the block holds by then. *)
Theorem getBBVector_answers_from_cache this BB Block s :
  uniform this ->
  exists s1,
    Embedder.getBBVector this BB Block s = Ok (Ref_BBVecMap_at BB, s1) /\
    is_Some (BBVecMap s1 !! BB) /\
    forall Block',
      Embedder.getBBVector this BB Block' s1 = Ok (Ref_BBVecMap_at BB, s1).
Proof.
  intros Huni.
  destruct (getBBVector_total this BB Block s Huni)
    as (s1 & Hget & _ & _ & Hsome & _).
  exists s1. split_and!; [done|done|].
  intros Block'.
  destruct (getBBVector_total this BB Block' s1 Huni)
    as (s2 & Hget' & _ & _ & _ & Hsame).
  by rewrite (Hsame Hsome) in Hget'.
Qed.

Lemma getBBVector_answers_from_cache_witness :
  exists s1,
    Embedder.getBBVector (Samples.Engine Samples.TwoBlocks) 0 Fixtures.Plain
                         Samples.Fresh = Ok (Ref_BBVecMap_at 0, s1) /\
    is_Some (BBVecMap s1 !! 0) /\
    forall Block',
      Embedder.getBBVector (Samples.Engine Samples.TwoBlocks) 0 Block' s1
        = Ok (Ref_BBVecMap_at 0, s1).
Proof.
  apply (getBBVector_answers_from_cache
           (Samples.Engine Samples.TwoBlocks) 0 Fixtures.Plain Samples.Fresh).
  repeat constructor.
Defined.

(** After [getBBVector] on an engine whose block map was empty, the block
    map is not empty any more, so that [getBBVecMap] computes nothing: it
    returns the map with the one block that was requested.  When that
    block has an instruction that is not skipped and the instruction map
    was empty, [getInstVecMap] computes nothing either and returns the map
    with the instructions of that block only. *)
Theorem maps_after_getBBVector_are_partial this BB Block s :
  uniform this ->
  BBVecMap s = ∅ ->
  exists s1,
    Embedder.getBBVector this BB Block s = Ok (Ref_BBVecMap_at BB, s1) /\
    Embedder.getBBVecMap this s1 = Ok (Ref_BBVecMap, s1) /\
    load Ref_BBVecMap s1 = {[BB := block_embedding this Block]} /\
    (InstVecMap s = ∅ ->
     countedInstructions Block ≠ [] ->
     Embedder.getInstVecMap this s1 = Ok (Ref_InstVecMap, s1) /\
     forall B i, B ≠ BB -> load Ref_InstVecMap s1 !! (B, i) = None).
Proof.
  intros Huni Hempty. unfold Embedder.getBBVector.
  mstep (gets_Ok (fun s => BBVecMap s !! BB) s).
  rewrite Hempty, lookup_empty.
  destruct (computeEmbeddings_BB_outcome this BB Block s) as [Hgood _].
  destruct (Hgood (uniform_forallb_fits _ _ Huni))
    as (s1 & Hrun & Hbb & Hfv & Hn & Hother & Hthis).
  rewrite Hempty in Hbb.
  assert (BBVecMap s1 !! BB = Some (block_embedding this Block)) as Hstored
    by (rewrite Hbb; apply lookup_insert_eq).
  simpl. mstep Hrun. rewrite (BBVecMap_subscript_present _ _ _ Hstored).
  exists s1. split_and!; [done| |done|].
  - unfold Embedder.getBBVecMap, bind, gets, ret.
    rewrite bool_decide_eq_false_2; [done|].
    rewrite Hbb. apply insert_non_empty.
  - intros Hiempty Hcounted.
    assert (exists i Inst, counted_at Block i = Some Inst) as (i & Inst & Hat).
    { rewrite <- instructionsWithoutDebug_snd in Hcounted.
      destruct (instructionsWithoutDebug Block) as [|[i Inst] L] eqn:HL;
        [done|].
      exists i, Inst. apply counted_at_elem. rewrite HL. by left. }
    split.
    + unfold Embedder.getInstVecMap, bind, gets, ret.
      rewrite bool_decide_eq_false_2; [done|].
      intros Hnone. specialize (Hthis i). rewrite Hat, Hnone in Hthis.
      by rewrite lookup_empty in Hthis.
    + intros B i' HB. simpl. rewrite (Hother B i' HB), Hiempty.
      apply lookup_empty.
Qed.

Lemma maps_after_getBBVector_are_partial_witness :
  exists s1,
    Embedder.getBBVector (Samples.Engine Samples.TwoBlocks) 1 Fixtures.Plain
                         Samples.Fresh = Ok (Ref_BBVecMap_at 1, s1) /\
    Embedder.getBBVecMap (Samples.Engine Samples.TwoBlocks) s1
      = Ok (Ref_BBVecMap, s1) /\
    load Ref_BBVecMap s1
      = {[1 := block_embedding (Samples.Engine Samples.TwoBlocks)
                               Fixtures.Plain]} /\
    (InstVecMap Samples.Fresh = ∅ ->
     countedInstructions Fixtures.Plain ≠ [] ->
     Embedder.getInstVecMap (Samples.Engine Samples.TwoBlocks) s1
       = Ok (Ref_InstVecMap, s1) /\
     forall B i, B ≠ 1 -> load Ref_InstVecMap s1 !! (B, i) = None).
Proof.
  apply (maps_after_getBBVector_are_partial
           (Samples.Engine Samples.TwoBlocks) 1 Fixtures.Plain Samples.Fresh).
  - repeat constructor.
  - reflexivity.
Defined.

(** The order of the printer, function vector first and the two maps
    after: for a function with a body, [getBBVecMap] after
    [getFunctionVector] computes nothing and changes nothing, and so does
    [getInstVecMap] when a reachable block has an instruction that is not
    skipped. *)
Theorem maps_after_getFunctionVector_are_cached this s :
  uniform this ->
  isDeclaration (Embedder.F this) = false ->
  length (FuncVector s) = N.to_nat (Embedder.Dimension this) ->
  exists s1,
    Embedder.getFunctionVector this s = Ok (Ref_FuncVector, s1) /\
    Embedder.getBBVecMap this s1 = Ok (Ref_BBVecMap, s1) /\
    forall B Block i Inst,
      reachable (Embedder.F this) B ->
      blocks (Embedder.F this) !! B = Some Block ->
      counted_at Block i = Some Inst ->
      Embedder.getInstVecMap this s1 = Ok (Ref_InstVecMap, s1).
Proof.
  intros Huni Hbody Hlen.
  destruct (computeEmbeddings_outcome this s Hbody Hlen) as [Hgood _].
  destruct (Hgood (uniform_forallb_fits _ _ Huni))
    as (s1 & Hrun & _ & _ & Hreach & _).
  exists s1. unfold Embedder.getFunctionVector.
  rewrite (bind_Ok _ _ _ _ _ Hrun). split_and!; [done| |].
  - unfold Embedder.getBBVecMap, bind, gets, ret.
    rewrite bool_decide_eq_false_2; [done|].
    pose proof (entry_lt _ Hbody) as Hentry.
    destruct (lookup_lt_is_Some_2 _ _ Hentry) as [Block Hlook].
    destruct (Hreach 0 Block (reachable_entry _ Hentry) Hlook) as [Hbb _].
    intros Hnone. rewrite Hnone in Hbb. by rewrite lookup_empty in Hbb.
  - intros B Block i Inst HB Hlook Hat.
    unfold Embedder.getInstVecMap, bind, gets, ret.
    rewrite bool_decide_eq_false_2; [done|].
    destruct (Hreach B Block HB Hlook) as [_ Hinst].
    specialize (Hinst i). rewrite Hat in Hinst.
    intros Hnone. rewrite Hnone in Hinst. by rewrite lookup_empty in Hinst.
Qed.

Lemma maps_after_getFunctionVector_are_cached_witness :
  exists s1,
    Embedder.getFunctionVector (Samples.Engine Samples.TwoBlocks)
                               Samples.Fresh = Ok (Ref_FuncVector, s1) /\
    Embedder.getBBVecMap (Samples.Engine Samples.TwoBlocks) s1
      = Ok (Ref_BBVecMap, s1) /\
    forall B Block i Inst,
      reachable (Embedder.F (Samples.Engine Samples.TwoBlocks)) B ->
      blocks (Embedder.F (Samples.Engine Samples.TwoBlocks)) !! B
        = Some Block ->
      counted_at Block i = Some Inst ->
      Embedder.getInstVecMap (Samples.Engine Samples.TwoBlocks) s1
        = Ok (Ref_InstVecMap, s1).
Proof.
  apply (maps_after_getFunctionVector_are_cached
           (Samples.Engine Samples.TwoBlocks) Samples.Fresh).
  - repeat constructor.
  - reflexivity.
  - reflexivity.
Defined.

(** A second [getFunctionVector] computes everything again: the block
    map and the instruction map come out as they were after the first
    request, the misses are counted a second time, and the vectors of the
    blocks are added to the function vector once more. *)
Theorem recomputation_repeats_maps_and_misses this s :
  uniform this ->
  isDeclaration (Embedder.F this) = false ->
  length (FuncVector s) = N.to_nat (Embedder.Dimension this) ->
  exists s1 s2,
    Embedder.getFunctionVector this s = Ok (Ref_FuncVector, s1) /\
    Embedder.getFunctionVector this s1 = Ok (Ref_FuncVector, s2) /\
    load Ref_BBVecMap s2 = load Ref_BBVecMap s1 /\
    load Ref_InstVecMap s2 = load Ref_InstVecMap s1 /\
    VocabMissCounter s1
      = (VocabMissCounter s
         + misses this (function_keys (Embedder.F this)))%N /\
    VocabMissCounter s2
      = (VocabMissCounter s1
         + misses this (function_keys (Embedder.F this)))%N /\
    load Ref_FuncVector s2
      = foldl plus
          (foldl plus (load Ref_FuncVector s)
             (map (block_embedding this) (walked_blocks (Embedder.F this))))
          (map (block_embedding this) (walked_blocks (Embedder.F this))).
Proof.
  intros Huni Hbody Hlen.
  pose proof (uniform_forallb_fits this (function_keys (Embedder.F this)) Huni)
    as Hfits.
  destruct (computeEmbeddings_total this s Huni Hlen) as (s1' & Hrun' & Hlen1 & _).
  destruct (computeEmbeddings_outcome this s Hbody Hlen) as [Hgood _].
  destruct (Hgood Hfits) as (s1 & Hrun1 & Hsum1 & Hn1 & Hreach1 & Hunreach1).
  rewrite Hrun1 in Hrun'. injection Hrun' as <-.
  destruct (computeEmbeddings_outcome this s1 Hbody Hlen1) as [Hgood2 _].
  destruct (Hgood2 Hfits) as (s2 & Hrun2 & Hsum2 & Hn2 & Hreach2 & Hunreach2).
  exists s1, s2. unfold Embedder.getFunctionVector.
  rewrite (bind_Ok _ _ _ _ _ Hrun1), (bind_Ok _ _ _ _ _ Hrun2).
  split_and!; [done|done| | |done|done|].
  - apply map_eq. intros B. simpl.
    destruct (classic_reachable (Embedder.F this) Hbody B) as [HB|HB].
    + destruct (reachable_lookup _ B Hbody HB) as [Block Hlook].
      destruct (Hreach1 B Block HB Hlook) as [-> _].
      by destruct (Hreach2 B Block HB Hlook) as [-> _].
    + by destruct (Hunreach2 B HB) as [-> _].
  - apply map_eq. intros [B i]. simpl.
    destruct (classic_reachable (Embedder.F this) Hbody B) as [HB|HB].
    + destruct (reachable_lookup _ B Hbody HB) as [Block Hlook].
      destruct (Hreach1 B Block HB Hlook) as [_ Hinst1].
      destruct (Hreach2 B Block HB Hlook) as [_ Hinst2].
      rewrite Hinst2. destruct (counted_at Block i) as [Inst|] eqn:Hat; [|done].
      by rewrite Hinst1, Hat.
    + destruct (Hunreach2 B HB) as [_ Hinst2]. by rewrite Hinst2.
  - simpl. by rewrite Hsum2, Hsum1.
Qed.

Lemma recomputation_repeats_maps_and_misses_witness :
  exists s1 s2,
    Embedder.getFunctionVector (Samples.Engine Samples.WithUnreachable)
                               Samples.Fresh = Ok (Ref_FuncVector, s1) /\
    Embedder.getFunctionVector (Samples.Engine Samples.WithUnreachable) s1
      = Ok (Ref_FuncVector, s2) /\
    load Ref_BBVecMap s2 = load Ref_BBVecMap s1 /\
    load Ref_InstVecMap s2 = load Ref_InstVecMap s1 /\
    VocabMissCounter s1
      = (VocabMissCounter Samples.Fresh
         + misses (Samples.Engine Samples.WithUnreachable)
             (function_keys
                (Embedder.F (Samples.Engine Samples.WithUnreachable))))%N /\
    VocabMissCounter s2
      = (VocabMissCounter s1
         + misses (Samples.Engine Samples.WithUnreachable)
             (function_keys
                (Embedder.F (Samples.Engine Samples.WithUnreachable))))%N /\
    load Ref_FuncVector s2
      = foldl plus
          (foldl plus (load Ref_FuncVector Samples.Fresh)
             (map (block_embedding (Samples.Engine Samples.WithUnreachable))
                  (walked_blocks
                     (Embedder.F (Samples.Engine Samples.WithUnreachable)))))
          (map (block_embedding (Samples.Engine Samples.WithUnreachable))
               (walked_blocks
                  (Embedder.F (Samples.Engine Samples.WithUnreachable)))).
Proof.
  apply (recomputation_repeats_maps_and_misses
           (Samples.Engine Samples.WithUnreachable) Samples.Fresh).
  - repeat constructor.
  - reflexivity.
  - reflexivity.
Defined.

(** The engine does not read its weights: two engines for the same
    function, with the same vocabulary and dimension, answer every sequence
    of requests alike, whatever weights they were built with.  The weights
    act when the vocabulary is loaded, not when vectors are computed. *)
Theorem engine_ignores_weights Opts Opts' F Vocabulary Counter this s0 :
  SymbolicEmbedder.ctor Opts F Vocabulary Counter = Ok (this, s0) ->
  exists this',
    SymbolicEmbedder.ctor Opts' F Vocabulary Counter = Ok (this', s0) /\
    forall (l : list Request) s, requests this' l s = requests this l s.
Proof.
  intros Hctor.
  destruct (ctor_inv _ _ _ _ _ _ Hctor) as (k & First & Hb & HF & HV & HD & ->).
  exists (Embedder.mk F Vocabulary (unsigned_of_size (length First))
            (ir2vec.OpcWeight Opts') (ir2vec.TypeWeight Opts')
            (ir2vec.ArgWeight Opts')).
  split.
  - unfold SymbolicEmbedder.ctor, Embedder.ctor. rewrite Hb. simpl.
    by rewrite HD.
  - destruct this as [F0 V0 D0 wo wt wa]. simpl in HF, HV, HD. subst F0 V0 D0.
    intros l. unfold requests.
    induction l as [|r l IH]; intros s; cbn [for_each]; [done|].
    assert (request
              (Embedder.mk F Vocabulary (unsigned_of_size (length First))
                 (ir2vec.OpcWeight Opts') (ir2vec.TypeWeight Opts')
                 (ir2vec.ArgWeight Opts')) tt r
            = request
                (Embedder.mk F Vocabulary (unsigned_of_size (length First))
                   wo wt wa) tt r) as ->
      by by destruct r.
    unfold bind. destruct (request _ tt r s) as [[[] s1]|]; [|done].
    apply IH.
Qed.

Lemma engine_ignores_weights_witness :
  exists this',
    SymbolicEmbedder.ctor
      (ir2vec.mkOptions "" 2%float 3%float 4%float)
      Samples.TwoBlocks Samples.Vocabulary 0 = Ok (this', Samples.Fresh) /\
    forall (l : list Request) s,
      requests this' l s = requests (Samples.Engine Samples.TwoBlocks) l s.
Proof.
  apply (engine_ignores_weights Samples.Opts
           (ir2vec.mkOptions "" 2%float 3%float 4%float)
           Samples.TwoBlocks Samples.Vocabulary 0
           (Samples.Engine Samples.TwoBlocks) Samples.Fresh).
  reflexivity.
Defined.

(* ===================================================================== *)
(** ** Further properties of the vocabulary analysis *)
(* ===================================================================== *)

Lemma Vocab_find_insert_range_keeps (V R : Vocab) k v :
  Vocab_find k V = Some v -> Vocab_find k (Vocab_insert_range V R) = Some v.
Proof. intros Hfind. by rewrite Vocab_find_insert_range, Hfind. Qed.

(** How [readVocabulary] fails.  A file that cannot be read gives the
    file error with the path; a content that does not parse gives the
    error of the parser; a document that is not an object gives the
    invalid-argument error; and whatever the error, the member
    [Vocabulary] is as it was before the call.  A successful call keeps
    every entry the member had. *)
Theorem readVocabulary_failure_modes :
  (forall H Opts V0 EC,
      getFileOrSTDIN H (ir2vec.VocabFile Opts) = inl EC ->
      IR2VecVocabAnalysis.readVocabulary H Opts V0
        = Ok (FileError (ir2vec.VocabFile Opts) EC, V0)) /\
  (forall H Opts V0 Content Msg,
      getFileOrSTDIN H (ir2vec.VocabFile Opts) = inr Content ->
      json_parse H Content = inl Msg ->
      IR2VecVocabAnalysis.readVocabulary H Opts V0
        = Ok (ParseError Msg, V0)) /\
  (forall H Opts V0 Content Doc,
      getFileOrSTDIN H (ir2vec.VocabFile Opts) = inr Content ->
      json_parse H Content = inr Doc ->
      json.getAsObject Doc = None ->
      IR2VecVocabAnalysis.readVocabulary H Opts V0
        = Ok (StringError invalid_argument "JSON root is not an object",
              V0)) /\
  (forall H Opts V0 Err V',
      IR2VecVocabAnalysis.readVocabulary H Opts V0 = Ok (Err, V') ->
      Error_to_bool Err = true -> V' = V0) /\
  (forall H Opts V0 V' k v,
      IR2VecVocabAnalysis.readVocabulary H Opts V0
        = Ok (Error_success, V') ->
      Vocab_find k V0 = Some v -> Vocab_find k V' = Some v).
Proof.
  split_and!.
  - intros H Opts V0 EC Hfile.
    unfold IR2VecVocabAnalysis.readVocabulary. by rewrite Hfile.
  - intros H Opts V0 Content Msg Hfile Hparse.
    unfold IR2VecVocabAnalysis.readVocabulary. by rewrite Hfile, Hparse.
  - intros H Opts V0 Content Doc Hfile Hparse Hroot.
    unfold IR2VecVocabAnalysis.readVocabulary,
      IR2VecVocabAnalysis.parseVocabSection.
    by rewrite Hfile, Hparse, Hroot.
  - intros H Opts V0 Err V'.
    unfold IR2VecVocabAnalysis.readVocabulary.
    destruct (getFileOrSTDIN H _) as [EC|Content]; [by intros [= <- <-]|].
    destruct (json_parse H Content) as [Msg|Doc]; [by intros [= <- <-]|].
    destruct (IR2VecVocabAnalysis.parseVocabSection "Opcodes" Doc [] 0)
      as [[[E1 Opc] D1]|]; simpl; [|done].
    destruct (Error_to_bool E1); [by intros [= <- <-]|].
    destruct (IR2VecVocabAnalysis.parseVocabSection "Types" Doc [] 0)
      as [[[E2 Ty] D2]|]; simpl; [|done].
    destruct (Error_to_bool E2); [by intros [= <- <-]|].
    destruct (IR2VecVocabAnalysis.parseVocabSection "Arguments" Doc [] 0)
      as [[[E3 Arg] D3]|]; simpl; [|done].
    destruct (Error_to_bool E3); [by intros [= <- <-]|].
    destruct ((D1 =? D2)%N && (D2 =? D3)%N); simpl.
    + by intros [= <- <-].
    + by intros [= <- <-].
  - intros H Opts V0 V' k v Hrun Hfind.
    apply readVocabulary_success in Hrun
      as (Content & Doc & Opc & Ty & Arg & Dim & _ & _ & _ & _ & _
          & _ & _ & _ & ->).
    by do 3 apply Vocab_find_insert_range_keeps.
Qed.

(** What [run] hands out.  A vocabulary the analysis was built with is
    returned as it is, valid, without a look at the options or the file;
    without a vocabulary and without a path the result is the invalid one,
    with the fixed message and again without a look at the file.  Whenever
    [run] returns, either the result is valid, nothing was emitted, the
    vocabulary has an entry, [getVocabulary] and [getDimension] return and
    an engine can be built against it; or the result is the invalid one,
    one error was emitted, and [getVocabulary] and [getDimension] fail
    their assertion. *)
Theorem run_result_is_valid_or_reported :
  (forall H Opts V,
      V ≠ [] ->
      IR2VecVocabAnalysis.run H Opts V = Ok (IR2VecVocabResult_of V, [])) /\
  (forall H Opts,
      ir2vec.VocabFile Opts = "" ->
      IR2VecVocabAnalysis.run H Opts []
        = Ok (IR2VecVocabResult_invalid,
              [Diag_message "IR2Vec vocabulary file path not specified"])) /\
  (forall H Opts V R Diags,
      IR2VecVocabAnalysis.run H Opts V = Ok (R, Diags) ->
      (Valid R = true /\ Diags = [] /\
       Result_Vocabulary R ≠ [] /\
       getVocabulary R = Ok (Result_Vocabulary R) /\
       (exists Dim, getDimension R = Ok Dim) /\
       (forall Opts' F Counter,
           exists this s0,
             SymbolicEmbedder.ctor Opts' F (Result_Vocabulary R) Counter
               = Ok (this, s0))) \/
      (R = IR2VecVocabResult_invalid /\ (exists D, Diags = [D]) /\
       getVocabulary R = Crash AssertionFailure /\
       getDimension R = Crash AssertionFailure)).
Proof.
  assert (Hvalid : forall V, V ≠ [] ->
    Valid (IR2VecVocabResult_of V) = true /\ (@nil Diagnostic) = [] /\
    Result_Vocabulary (IR2VecVocabResult_of V) ≠ [] /\
    getVocabulary (IR2VecVocabResult_of V)
      = Ok (Result_Vocabulary (IR2VecVocabResult_of V)) /\
    (exists Dim, getDimension (IR2VecVocabResult_of V) = Ok Dim) /\
    (forall Opts' F Counter,
        exists this s0,
          SymbolicEmbedder.ctor Opts' F
            (Result_Vocabulary (IR2VecVocabResult_of V)) Counter
            = Ok (this, s0))).
  { intros V HV. split_and!; try done.
    - unfold getDimension. simpl. destruct V as [|[k v] V]; [done|].
      simpl. by eexists.
    - intros Opts' F Counter. by apply ctor_nonempty. }
  split_and!.
  - intros H Opts V HV. unfold IR2VecVocabAnalysis.run.
    by destruct V.
  - intros H Opts Hpath. unfold IR2VecVocabAnalysis.run. simpl.
    by rewrite Hpath.
  - intros H Opts V R Diags. unfold IR2VecVocabAnalysis.run.
    destruct (Vocab_empty V) eqn:Hempty; simpl.
    + destruct (String.eqb (ir2vec.VocabFile Opts) "").
      { intros [= <- <-]. right. split_and!; try done. by eexists. }
      destruct (IR2VecVocabAnalysis.readVocabulary H Opts V)
        as [[Err V']|] eqn:Hread; simpl; [|done].
      destruct Err; simpl; intros [= <- <-];
        try (right; split_and!; try done; by eexists).
      left. apply Hvalid.
      destruct V; [|done].
      apply readVocabulary_success in Hread
        as (Content & Doc & Opc & Ty & Arg & Dim & _ & _ & _ & _ & _
            & _ & _ & AArg & ->).
      apply Vocab_insert_range_nonempty. right.
      pose proof (accepted_nonempty _ _ AArg). by destruct Arg.
    + intros [= <- <-]. left. apply Hvalid. by destruct V.
Qed.

(* ===================================================================== *)
(** ** The order of the keys *)
(* ===================================================================== *)

Lemma Ascii_compare_Lt_trans (a b c : Ascii.ascii) :
  Ascii.compare a b = Lt -> Ascii.compare b c = Lt -> Ascii.compare a c = Lt.
Proof.
  unfold Ascii.compare. rewrite !N.compare_lt_iff. lia.
Qed.

Lemma String_compare_Lt_trans (s1 : string) : forall s2 s3,
  String.compare s1 s2 = Lt -> String.compare s2 s3 = Lt ->
  String.compare s1 s3 = Lt.
Proof.
  induction s1 as [|c1 s1 IH]; intros [|c2 s2] [|c3 s3]; simpl; try done.
  destruct (Ascii.compare c1 c2) eqn:H12; [| |done].
  - apply Ascii.compare_eq_iff in H12 as ->.
    destruct (Ascii.compare c2 c3); [apply IH|done|done].
  - destruct (Ascii.compare c2 c3) eqn:H23; [| |done].
    + apply Ascii.compare_eq_iff in H23 as <-. by rewrite H12.
    + by rewrite (Ascii_compare_Lt_trans _ _ _ H12 H23).
Qed.

Lemma String_ltb_trans (s1 s2 s3 : string) :
  String.ltb s1 s2 = true -> String.ltb s2 s3 = true ->
  String.ltb s1 s3 = true.
Proof.
  unfold String.ltb.
  destruct (String.compare s1 s2) eqn:H12; try done.
  destruct (String.compare s2 s3) eqn:H23; try done.
  by rewrite (String_compare_Lt_trans _ _ _ H12 H23).
Qed.

Lemma String_ltb_irrefl (s : string) : String.ltb s s = false.
Proof.
  unfold String.ltb. pose proof (String.compare_antisym s s) as Hanti.
  destruct (String.compare s s); simpl in Hanti; congruence.
Qed.

(** Of two different keys one is below the other. *)
Lemma String_ltb_total (s1 s2 : string) :
  String.ltb s1 s2 = false -> String.eqb s2 s1 = false ->
  String.ltb s2 s1 = true.
Proof.
  unfold String.ltb. intros Hlt Hne. rewrite String.compare_antisym.
  destruct (String.compare s1 s2) eqn:Hcmp; [|done|done].
  apply String.compare_eq_iff in Hcmp as ->.
  by rewrite String.eqb_refl in Hne.
Qed.

Lemma key_sorted_emplace Key E (V : Vocab) :
  key_sorted V -> Vocab_find Key V = None ->
  key_sorted (Vocab_emplace Key E V).
Proof.
  unfold key_sorted.
  induction V as [|[k v] V IH]; intros Hsorted Hfind; simpl.
  - by repeat constructor.
  - simpl in Hfind. destruct (String.eqb k Key) eqn:Hk; [done|].
    apply StronglySorted_inv in Hsorted as [Hsorted Hall].
    destruct (String.ltb Key k) eqn:Hlt.
    + constructor; [by constructor|].
      constructor; [done|].
      eapply List.Forall_impl; [|exact Hall].
      intros Entry HEntry. unfold key_lt in *. simpl in *.
      by eapply String_ltb_trans.
    + constructor; [by apply IH|].
      apply Forall_forall. intros Entry [->|Hin]%elem_of_Vocab_emplace.
      * unfold key_lt. simpl. by apply String_ltb_total.
      * rewrite List.Forall_forall in Hall. apply Hall.
        by apply list_elem_of_In.
Qed.

Lemma key_sorted_insert_range (R V : Vocab) :
  key_sorted V -> key_sorted (Vocab_insert_range V R).
Proof.
  revert V. induction R as [|[Key E] R IH]; intros V Hsorted; [done|].
  unfold Vocab_insert_range in *. simpl. apply IH.
  unfold Vocab_insert. simpl.
  destruct (Vocab_find Key V) eqn:Hfind; [done|].
  by apply key_sorted_emplace.
Qed.

Lemma key_sorted_NoDup (V : Vocab) : key_sorted V -> NoDup V.*1.
Proof.
  unfold key_sorted. induction 1 as [|[k v] V Hsorted IH Hall]; simpl.
  - apply NoDup_nil_2.
  - apply NoDup_cons. split; [|done].
    intros ([k' v'] & Hk & Hin)%list_elem_of_fmap. simpl in Hk. subst k'.
    rewrite List.Forall_forall in Hall.
    specialize (Hall _ (proj1 (list_elem_of_In _ _) Hin)).
    unfold key_lt in Hall. simpl in Hall.
    by rewrite String_ltb_irrefl in Hall.
Qed.

(** The vocabulary [readVocabulary] has loaded into the empty member
    holds its entries in strictly increasing order of their keys, so that
    no key occurs twice and the first entry, the one that gives the
    dimension, is that of the least key; this is the order in which the
    printer of the vocabulary writes the entries. *)
Theorem loaded_vocabulary_is_sorted_by_key H Opts V' :
  IR2VecVocabAnalysis.readVocabulary H Opts [] = Ok (Error_success, V') ->
  key_sorted V' /\
  NoDup V'.*1 /\
  (exists k First V'',
      V' = (k, First) :: V'' /\
      Vocab_begin V' = Some (k, First) /\
      forall Entry, Entry ∈ V'' -> String.ltb k Entry.1 = true) /\
  IR2VecVocabPrinterPass.run (IR2VecVocabResult_of V')
    = Ok (flat_map
            (fun Entry : string * Embedding =>
               [Out_text "Key: "; Out_text Entry.1; Out_text ": "]
               ++ Embedding_print Entry.2)
            V').
Proof.
  intros Hrun.
  apply readVocabulary_success in Hrun
    as (Content & Doc & Opc & Ty & Arg & Dim & _ & _ & _ & _ & _
        & _ & _ & AArg & ->).
  set (V' := Vocab_insert_range _ _).
  assert (key_sorted V') as Hsorted.
  { do 3 apply key_sorted_insert_range. constructor. }
  assert (V' ≠ []) as Hne.
  { apply Vocab_insert_range_nonempty. right.
    pose proof (accepted_nonempty _ _ AArg). by destruct Arg. }
  split_and!; [done|by apply key_sorted_NoDup| |done].
  destruct V' as [|[k First] V'']; [done|].
  exists k, First, V''. split_and!; [done|done|].
  apply StronglySorted_inv in Hsorted as [_ Hall].
  rewrite List.Forall_forall in Hall.
  intros Entry Hin. apply (Hall Entry). by apply list_elem_of_In.
Qed.

Lemma loaded_vocabulary_is_sorted_by_key_witness :
  key_sorted Samples.Merged /\
  NoDup Samples.Merged.*1 /\
  (exists k First V'',
      Samples.Merged = (k, First) :: V'' /\
      Vocab_begin Samples.Merged = Some (k, First) /\
      forall Entry, Entry ∈ V'' -> String.ltb k Entry.1 = true) /\
  IR2VecVocabPrinterPass.run (IR2VecVocabResult_of Samples.Merged)
    = Ok (flat_map
            (fun Entry : string * Embedding =>
               [Out_text "Key: "; Out_text Entry.1; Out_text ": "]
               ++ Embedding_print Entry.2)
            Samples.Merged).
Proof.
  apply (loaded_vocabulary_is_sorted_by_key
           (Samples.host Samples.Doc) Samples.Opts Samples.Merged).
  reflexivity.
Defined.

(* ===================================================================== *)
(** ** Properties of the printer passes *)
(* ===================================================================== *)

Lemma flat_map_ext_elem {A B : Type} (f g : A -> list B) (l : list A) :
  (forall x, x ∈ l -> f x = g x) -> flat_map f l = flat_map g l.
Proof.
  induction l as [|x l IH]; intros Hext; simpl; [done|].
  rewrite (Hext x) by by left. f_equal. apply IH.
  intros y Hy. apply Hext. by right.
Qed.

Lemma Embedder_create_engine Opts Vocab F Counter :
  Vocab ≠ [] ->
  Embedder_create Opts Symbolic F Vocab Counter
    = Ok (Some (engine_of Opts Vocab F,
                mkStore Counter ∅ ∅
                  (Embedding_zero
                     (N.to_nat
                        (Embedder.Dimension (engine_of Opts Vocab F)))))).
Proof.
  intros Hne. unfold Embedder_create, SymbolicEmbedder.ctor, Embedder.ctor,
    engine_of.
  by destruct Vocab as [|[k First] Vocab].
Qed.

Lemma depth_first_declaration F :
  isDeclaration F = true -> depth_first F = [].
Proof.
  intros Hdecl. unfold depth_first.
  assert (blocks F = []) as ->
    by (unfold isDeclaration in Hdecl; by destruct (blocks F)).
  induction (df_order F) as [|B l IH]; [done|].
  cbn [omap list_omap]. by rewrite lookup_nil.
Qed.

(** A run of [computeEmbeddings()] that starts with an empty instruction
    map leaves in the maps what the printer is to find. *)
Lemma computeEmbeddings_expected this s :
  uniform this ->
  isDeclaration (Embedder.F this) = false ->
  length (FuncVector s) = N.to_nat (Embedder.Dimension this) ->
  InstVecMap s = ∅ ->
  exists s',
    SymbolicEmbedder.computeEmbeddings this s = Ok (tt, s') /\
    FuncVector s' =
      foldl plus (FuncVector s)
            (map (block_embedding this) (walked_blocks (Embedder.F this))) /\
    length (FuncVector s') = N.to_nat (Embedder.Dimension this) /\
    (VocabMissCounter s <= VocabMissCounter s')%N /\
    (forall Inst, InstVecMap s' !! Inst = expected_InstVec this Inst) /\
    (BBVecMap s = ∅ -> forall BB, BBVecMap s' !! BB = expected_BBVec this BB).
Proof.
  intros Huni Hbody Hlen Hiempty.
  destruct (computeEmbeddings_total this s Huni Hlen)
    as (s'' & Hrun' & Hlen' & Hle).
  destruct (computeEmbeddings_outcome this s Hbody Hlen) as [Hgood _].
  destruct (Hgood (uniform_forallb_fits _ _ Huni))
    as (s' & Hrun & Hsum & Hn & Hreach & Hunreach).
  rewrite Hrun in Hrun'. injection Hrun' as <-.
  exists s'. split_and!; [done|done|done|done| |].
  - intros [B i]. unfold expected_InstVec. simpl.
    destruct (blocks (Embedder.F this) !! B) as [Block|] eqn:Hlook.
    + case_bool_decide as HB.
      * apply df_order_reachable in HB; [|done].
        destruct (Hreach B Block HB Hlook) as [_ Hinst]. rewrite Hinst.
        destruct (counted_at Block i); [done|].
        rewrite Hiempty. apply lookup_empty.
      * rewrite df_order_reachable in HB by done.
        destruct (Hunreach B HB) as [_ Hinst]. rewrite Hinst, Hiempty.
        apply lookup_empty.
    + assert (¬ reachable (Embedder.F this) B) as HB.
      { intros [Block Hsome]%reachable_lookup; [|done]. congruence. }
      destruct (Hunreach B HB) as [_ Hinst]. rewrite Hinst, Hiempty.
      apply lookup_empty.
  - intros Hbempty B. unfold expected_BBVec.
    destruct (blocks (Embedder.F this) !! B) as [Block|] eqn:Hlook.
    + case_bool_decide as HB.
      * apply df_order_reachable in HB; [|done].
        by destruct (Hreach B Block HB Hlook) as [Hbb _].
      * rewrite df_order_reachable in HB by done.
        destruct (Hunreach B HB) as [Hbb _]. rewrite Hbb, Hbempty.
        apply lookup_empty.
    + assert (¬ reachable (Embedder.F this) B) as HB.
      { intros [Block Hsome]%reachable_lookup; [|done]. congruence. }
      destruct (Hunreach B HB) as [Hbb _]. rewrite Hbb, Hbempty.
      apply lookup_empty.
Qed.

Lemma print_blocks_ext F (find find' : BasicBlockAddr -> option Embedding) :
  (forall BB, find BB = find' BB) ->
  IR2VecPrinterPass.print_blocks F find
    = IR2VecPrinterPass.print_blocks F find'.
Proof.
  intros Hext. unfold IR2VecPrinterPass.print_blocks.
  apply flat_map_ext_elem. intros BB _. by rewrite Hext.
Qed.

Lemma print_instructions_ext F
    (find find' : InstructionAddr -> option Embedding) :
  (forall Inst, find Inst = find' Inst) ->
  IR2VecPrinterPass.print_instructions F find
    = IR2VecPrinterPass.print_instructions F find'.
Proof.
  intros Hext. unfold IR2VecPrinterPass.print_instructions.
  apply flat_map_ext_elem. intros BB _.
  apply flat_map_ext_elem. intros NI _. by rewrite Hext.
Qed.

(** What the printer writes for one function. *)
Lemma print_function_report Opts Vocab OS Counter F :
  Vocab ≠ [] ->
  uniform (engine_of Opts Vocab (Function_of F)) ->
  exists Counter',
    IR2VecPrinterPass.print_function Opts Vocab OS Counter F
      = Ok (OS ++ report Opts Vocab F, Counter') /\
    (Counter <= Counter')%N.
Proof.
  intros Hne Huni. unfold IR2VecPrinterPass.print_function.
  rewrite (Embedder_create_engine _ _ _ _ Hne). cbn [outcome_bind].
  set (this := engine_of Opts Vocab (Function_of F)) in *.
  set (s0 := mkStore Counter ∅ ∅ _).
  assert (length (FuncVector s0) = N.to_nat (Embedder.Dimension this))
    as Hlen0 by apply length_replicate.
  unfold report. fold this.
  destruct (isDeclaration (Embedder.F this)) eqn:Hbody.
  - assert (blocks (Function_of F) = []) as Hnil.
    { unfold isDeclaration in Hbody. simpl in Hbody.
      by destruct (blocks (Function_of F)). }
    assert (Hcompute : forall s,
              SymbolicEmbedder.computeEmbeddings this s = Ok (tt, s))
      by (intros s; by apply computeEmbeddings_declaration).
    assert (Embedder.getFunctionVector this s0 = Ok (Ref_FuncVector, s0))
      as ->.
    { unfold Embedder.getFunctionVector, bind, ret. simpl.
      by rewrite Hcompute. }
    cbn [outcome_bind].
    assert (Embedder.getBBVecMap this s0 = Ok (Ref_BBVecMap, s0)) as ->.
    { unfold Embedder.getBBVecMap, bind, gets, ret. simpl.
      by rewrite Hcompute. }
    cbn [outcome_bind].
    assert (Embedder.getInstVecMap this s0 = Ok (Ref_InstVecMap, s0)) as ->.
    { unfold Embedder.getInstVecMap, bind, gets, ret. simpl.
      by rewrite Hcompute. }
    cbn [outcome_bind].
    exists Counter. split; [|lia].
    f_equal. f_equal.
    assert (Hblocks : forall find,
              IR2VecPrinterPass.print_blocks F find = [])
      by (intros find; unfold IR2VecPrinterPass.print_blocks;
          by rewrite Hnil).
    assert (Hinsts : forall find,
              IR2VecPrinterPass.print_instructions F find = [])
      by (intros find; unfold IR2VecPrinterPass.print_instructions;
          by rewrite Hnil).
    rewrite !Hblocks, !Hinsts.
    assert (function_embedding this = load Ref_FuncVector s0) as ->.
    { unfold function_embedding, walked_blocks.
      rewrite (depth_first_declaration _ Hbody). reflexivity. }
    rewrite <- !app_assoc. reflexivity.
  - destruct (computeEmbeddings_expected this s0 Huni Hbody Hlen0 eq_refl)
      as (s1 & Hrun & Hsum & Hlen1 & Hle1 & Hinst1 & Hbb1).
    specialize (Hbb1 eq_refl).
    unfold Embedder.getFunctionVector at 1.
    rewrite (bind_Ok _ _ _ _ _ Hrun). unfold ret. cbn [outcome_bind load].
    assert (Embedder.getBBVecMap this s1 = Ok (Ref_BBVecMap, s1)) as ->.
    { unfold Embedder.getBBVecMap, bind, gets, ret.
      rewrite bool_decide_eq_false_2; [done|].
      pose proof (entry_lt _ Hbody) as Hentry.
      destruct (lookup_lt_is_Some_2 _ _ Hentry) as [Block Hlook].
      intros Hnone. specialize (Hbb1 0). rewrite Hnone in Hbb1.
      unfold expected_BBVec in Hbb1. rewrite Hlook in Hbb1.
      rewrite bool_decide_eq_true_2 in Hbb1; [by rewrite lookup_empty in Hbb1|].
      apply df_order_reachable; [done|]. by apply reachable_entry. }
    cbn [outcome_bind load].
    assert (exists s2,
              Embedder.getInstVecMap this s1 = Ok (Ref_InstVecMap, s2) /\
              (VocabMissCounter s1 <= VocabMissCounter s2)%N /\
              forall Inst, InstVecMap s2 !! Inst = expected_InstVec this Inst)
      as (s2 & -> & Hle2 & Hinst2).
    { unfold Embedder.getInstVecMap, bind, gets, ret.
      case_bool_decide as Hiempty.
      - destruct (computeEmbeddings_expected this s1 Huni Hbody Hlen1 Hiempty)
          as (s2 & Hrun2 & _ & _ & Hle2 & Hinst2 & _).
        simpl. rewrite Hrun2. by exists s2.
      - exists s1. split_and!; [done|lia|done]. }
    cbn [outcome_bind load].
    exists (VocabMissCounter s2). split; [|simpl in Hle1; lia].
    f_equal. f_equal.
    rewrite (print_blocks_ext F _ (expected_BBVec this)) by done.
    rewrite (print_instructions_ext F _ (expected_InstVec this)) by done.
    rewrite Hsum. unfold function_embedding.
    rewrite <- !app_assoc. reflexivity.
Qed.

Lemma print_functions_report Opts Vocab M : forall OS Counter,
  Vocab ≠ [] ->
  (forall F, uniform (engine_of Opts Vocab F)) ->
  exists Counter',
    IR2VecPrinterPass.print_functions Opts Vocab M OS Counter
      = Ok (OS ++ flat_map (report Opts Vocab) M, Counter') /\
    (Counter <= Counter')%N.
Proof.
  induction M as [|F M IH]; intros OS Counter Hne Huni; simpl.
  - exists Counter. rewrite app_nil_r. split; [done|lia].
  - destruct (print_function_report Opts Vocab OS Counter F Hne (Huni _))
      as (Counter1 & -> & Hle1).
    simpl.
    destruct (IH (OS ++ report Opts Vocab F) Counter1 Hne Huni)
      as (Counter' & -> & Hle').
    exists Counter'. rewrite <- app_assoc. split; [done|lia].
Qed.

(** The printer of the embeddings, on a valid result whose vocabulary has
    an entry and is of uniform dimension: it returns, and what it writes is
    the concatenation, in the order of the module, of one report per
    function.  The report of a function depends on that function and the
    vocabulary only.  It has the function vector, which is the sum of the
    vectors of the blocks in the order of the walk; then, in the order of
    the function, the blocks the walk yields, each with the sum of the
    vectors of its instructions; then the instructions of these blocks that
    are not skipped, each with the sum of what its lookups yield.  Blocks
    that are not reachable and skipped instructions are not written.  The
    statistic does not decrease. *)
Theorem printer_writes_one_report_per_function Opts Result M Counter :
  Valid Result = true ->
  Result_Vocabulary Result ≠ [] ->
  (forall F, uniform (engine_of Opts (Result_Vocabulary Result) F)) ->
  exists Counter',
    IR2VecPrinterPass.run Opts Result M Counter
      = Ok (flat_map (report Opts (Result_Vocabulary Result)) M, Counter') /\
    (Counter <= Counter')%N.
Proof.
  intros Hvalid Hne Huni. unfold IR2VecPrinterPass.run, getVocabulary.
  rewrite Hvalid. cbn [outcome_bind].
  destruct (print_functions_report Opts (Result_Vocabulary Result) M []
              Counter Hne Huni) as (Counter' & Hrun & Hle).
  exists Counter'. by split.
Qed.

(** The function with an unreachable third block, in a module of its
    own: the printer writes the function vector, the two reachable blocks
    and their two instructions, and nothing for the third block. *)
Example printer_prints_reachable_code :
  IR2VecPrinterPass.run Samples.Opts
    (IR2VecVocabResult_of Samples.Vocabulary)
    [mkModuleFunction "f" Samples.WithUnreachable
       (fun BB => if Nat.eqb BB 0 then "entry" else "bb")] 0
  = Ok ([Out_text "IR2Vec embeddings for function "; Out_text "f";
         Out_text (":" +:+ LF); Out_text "Function vector: "]
        ++ Embedding_print [2%float; 6%float]
        ++ [Out_text ("Basic block vectors:" +:+ LF);
            Out_text "Basic block: "; Out_text "entry";
            Out_text (":" +:+ LF)]
        ++ Embedding_print [1%float; 3%float]
        ++ [Out_text "Basic block: "; Out_text "bb"; Out_text (":" +:+ LF)]
        ++ Embedding_print [1%float; 3%float]
        ++ [Out_text ("Instruction vectors:" +:+ LF);
            Out_text "Instruction: "; Out_Instruction Samples.AddInst]
        ++ Embedding_print [1%float; 3%float]
        ++ [Out_text "Instruction: "; Out_Instruction Samples.AddInst]
        ++ Embedding_print [1%float; 3%float],
        0%N).
Proof. vm_compute. reflexivity. Qed.

Lemma printer_writes_one_report_per_function_witness :
  exists Counter',
    IR2VecPrinterPass.run Samples.Opts
      (IR2VecVocabResult_of Samples.Vocabulary) Fixtures.TwoFunctions 0
      = Ok (flat_map
              (report Samples.Opts
                 (Result_Vocabulary (IR2VecVocabResult_of Samples.Vocabulary)))
              Fixtures.TwoFunctions,
            Counter') /\
    (0 <= Counter')%N.
Proof.
  apply (printer_writes_one_report_per_function
           Samples.Opts (IR2VecVocabResult_of Samples.Vocabulary)
           Fixtures.TwoFunctions 0).
  - reflexivity.
  - discriminate.
  - intros F. repeat constructor.
Defined.

(** A vocabulary that [readVocabulary] has loaded into the empty member
    has an entry, and every engine built against it finds it of uniform
    dimension. *)
Lemma readVocabulary_uniform H Opts V' :
  IR2VecVocabAnalysis.readVocabulary H Opts [] = Ok (Error_success, V') ->
  V' ≠ [] /\ forall Opts' F, uniform (engine_of Opts' V' F).
Proof.
  intros Hrun.
  apply readVocabulary_success in Hrun
    as (Content & Doc & Opc & Ty & Arg & Dim & _ & _ & _ & _ & _
        & AOpc & ATy & AArg & ->).
  set (V' := Vocab_insert_range _ _).
  assert (Hall : Forall (fun Entry : string * Embedding =>
                           N.of_nat (length Entry.2) = Dim) V').
  { apply Forall_forall. intros Entry Hin.
    pose proof (accepted_scaled _ _ (ir2vec.OpcWeight Opts) AOpc) as HO.
    pose proof (accepted_scaled _ _ (ir2vec.TypeWeight Opts) ATy) as HT.
    pose proof (accepted_scaled _ _ (ir2vec.ArgWeight Opts) AArg) as HA.
    rewrite Forall_forall in HO, HT, HA.
    apply elem_of_Vocab_insert_range in Hin as [Hin|Hin]; [|by apply HA].
    apply elem_of_Vocab_insert_range in Hin as [Hin|Hin]; [|by apply HT].
    apply elem_of_Vocab_insert_range in Hin as [Hin|Hin]; [|by apply HO].
    by apply elem_of_nil in Hin. }
  assert (V' ≠ []) as Hne.
  { apply Vocab_insert_range_nonempty. right.
    pose proof (accepted_nonempty _ _ AArg). by destruct Arg. }
  split; [done|]. intros Opts' F. unfold uniform, engine_of. simpl.
  destruct V' as [|[k First] V'']; [done|]. simpl.
  assert (unsigned_of_size (length First) = Dim) as ->.
  { apply Forall_cons in Hall as [Hfirst _]. simpl in Hfirst.
    unfold unsigned_of_size. rewrite Hfirst.
    apply N.mod_small. by eapply accepted_lt. }
  eapply Forall_impl; [exact Hall|]. simpl. intros Entry <-. lia.
Qed.

(** From the analysis to the printers.  When [run] has loaded the
    vocabulary from the file without emitting an error, the printer of the
    embeddings returns on every module and writes one report per function,
    and the printer of the vocabulary writes one line per entry of the
    vocabulary, in the order of the keys.  When [run] has emitted an error,
    both printers fail their assertion and write nothing. *)
Theorem printers_after_run H Opts Result Diags M Counter :
  IR2VecVocabAnalysis.run H Opts [] = Ok (Result, Diags) ->
  (Diags = [] ->
   (exists Counter',
      IR2VecPrinterPass.run Opts Result M Counter
        = Ok (flat_map (report Opts (Result_Vocabulary Result)) M,
              Counter') /\
      (Counter <= Counter')%N) /\
   IR2VecVocabPrinterPass.run Result
     = Ok (flat_map
             (fun Entry : string * Embedding =>
                [Out_text "Key: "; Out_text Entry.1; Out_text ": "]
                ++ Embedding_print Entry.2)
             (Result_Vocabulary Result))) /\
  (Diags ≠ [] ->
   IR2VecPrinterPass.run Opts Result M Counter = Crash AssertionFailure /\
   IR2VecVocabPrinterPass.run Result = Crash AssertionFailure).
Proof.
  unfold IR2VecVocabAnalysis.run. simpl.
  destruct (String.eqb (ir2vec.VocabFile Opts) "").
  { intros [= <- <-]. split; [done|]. by intros _. }
  destruct (IR2VecVocabAnalysis.readVocabulary H Opts [])
    as [[Err V']|] eqn:Hread; simpl; [|done].
  destruct Err; simpl; intros [= <- <-]; try (split; [done|]; by intros _).
  split; [|done]. intros _.
  destruct (readVocabulary_uniform H Opts V' Hread) as [Hne Huni].
  split; [|done].
  unfold IR2VecPrinterPass.run, getVocabulary. cbn [Valid outcome_bind].
  destruct (print_functions_report Opts V' M [] Counter Hne (Huni Opts))
    as (Counter' & Hrun & Hle).
  exists Counter'. by split.
Qed.

Lemma printers_after_run_witness :
  (@nil Diagnostic = [] ->
   (exists Counter',
      IR2VecPrinterPass.run Samples.Opts (IR2VecVocabResult_of Samples.Merged)
        Fixtures.TwoFunctions 0
        = Ok (flat_map
                (report Samples.Opts
                   (Result_Vocabulary (IR2VecVocabResult_of Samples.Merged)))
                Fixtures.TwoFunctions,
              Counter') /\
      (0 <= Counter')%N) /\
   IR2VecVocabPrinterPass.run (IR2VecVocabResult_of Samples.Merged)
     = Ok (flat_map
             (fun Entry : string * Embedding =>
                [Out_text "Key: "; Out_text Entry.1; Out_text ": "]
                ++ Embedding_print Entry.2)
             (Result_Vocabulary (IR2VecVocabResult_of Samples.Merged)))) /\
  (@nil Diagnostic ≠ [] ->
   IR2VecPrinterPass.run Samples.Opts (IR2VecVocabResult_of Samples.Merged)
     Fixtures.TwoFunctions 0 = Crash AssertionFailure /\
   IR2VecVocabPrinterPass.run (IR2VecVocabResult_of Samples.Merged)
     = Crash AssertionFailure).
Proof.
  apply (printers_after_run (Samples.host Samples.Doc) Samples.Opts
           (IR2VecVocabResult_of Samples.Merged) [] Fixtures.TwoFunctions 0).
  reflexivity.
Defined.

(* ===================================================================== *)
(** ** The order of the members of a document *)
(* ===================================================================== *)

Lemma json_get_None (Members : list (string * json.Value)) Key :
  json.get Key Members = None <-> Key ∉ Members.*1.
Proof.
  induction Members as [|[k v] Members IH]; simpl.
  - split; [intros _; apply not_elem_of_nil|done].
  - rewrite not_elem_of_cons. destruct (String.eqb k Key) eqn:Hk.
    + apply String.eqb_eq in Hk as ->. split; [done|]. by intros [? _].
    + apply String.eqb_neq in Hk. rewrite IH. split; [|by intros [_ ?]].
      intros Hn. split; [congruence|done].
Qed.

Lemma json_get_Some_elem (Members : list (string * json.Value)) Key V :
  json.get Key Members = Some V -> (Key, V) ∈ Members.
Proof.
  induction Members as [|[k v] Members IH]; simpl; [done|].
  destruct (String.eqb k Key) eqn:Hk.
  - apply String.eqb_eq in Hk as ->. intros [= ->]. by left.
  - intros Hget. right. by apply IH.
Qed.

Lemma json_get_elem (Members : list (string * json.Value)) Key V :
  NoDup Members.*1 -> (Key, V) ∈ Members -> json.get Key Members = Some V.
Proof.
  induction Members as [|[k v] Members IH]; simpl; intros Hnd Hin.
  - by apply elem_of_nil in Hin.
  - apply NoDup_cons in Hnd as [Hfresh Hnd].
    apply elem_of_cons in Hin as [[= -> ->]|Hin].
    + by rewrite String.eqb_refl.
    + destruct (String.eqb k Key) eqn:Hk; [|by apply IH].
      apply String.eqb_eq in Hk as ->. exfalso. apply Hfresh.
      apply list_elem_of_fmap. by exists (Key, V).
Qed.

Lemma Vocab_find_None (V : Vocab) Key :
  Vocab_find Key V = None <-> Key ∉ V.*1.
Proof.
  induction V as [|[k v] V IH]; simpl.
  - split; [intros _; apply not_elem_of_nil|done].
  - rewrite not_elem_of_cons. destruct (String.eqb k Key) eqn:Hk.
    + apply String.eqb_eq in Hk as ->. split; [done|]. by intros [? _].
    + apply String.eqb_neq in Hk. rewrite IH. split; [|by intros [_ ?]].
      intros Hn. split; [congruence|done].
Qed.

Lemma Vocab_find_subscript Key k (V : Vocab) :
  Vocab_find k (Vocab_subscript Key V) =
    if String.eqb Key k then Some (default [] (Vocab_find Key V))
    else Vocab_find k V.
Proof.
  unfold Vocab_subscript.
  destruct (String.eqb Key k) eqn:Hk.
  - apply String.eqb_eq in Hk as <-.
    destruct (Vocab_find Key V) as [v|] eqn:Hfind; simpl; [done|].
    by apply Vocab_find_emplace_eq.
  - apply String.eqb_neq in Hk.
    destruct (Vocab_find Key V) as [v|] eqn:Hfind; [done|].
    by apply Vocab_find_emplace_ne.
Qed.

Lemma Vocab_find_store Key E k (V : Vocab) :
  Vocab_find k (Vocab_store Key E V) =
    if String.eqb Key k then (fun _ => E) <$> Vocab_find Key V
    else Vocab_find k V.
Proof.
  induction V as [|[k' v] V IH]; simpl.
  - by destruct (String.eqb Key k).
  - destruct (String.eqb k' Key) eqn:Hk'; simpl.
    + apply String.eqb_eq in Hk' as ->.
      by destruct (String.eqb Key k).
    + rewrite IH. destruct (String.eqb Key k) eqn:Hk; [|done].
      apply String.eqb_eq in Hk as ->. by rewrite Hk'.
Qed.

Lemma key_sorted_subscript Key (V : Vocab) :
  key_sorted V -> key_sorted (Vocab_subscript Key V).
Proof.
  intros Hsorted. unfold Vocab_subscript.
  destruct (Vocab_find Key V) eqn:Hfind; [done|].
  by apply key_sorted_emplace.
Qed.

Lemma key_sorted_store Key E (V : Vocab) :
  key_sorted V -> key_sorted (Vocab_store Key E V).
Proof.
  unfold key_sorted. induction 1 as [|[k v] V Hsorted IH Hall]; simpl.
  - constructor.
  - destruct (String.eqb k Key); [by constructor|].
    constructor; [done|].
    clear IH Hsorted. induction V as [|[k' v'] V IHV]; simpl; [done|].
    apply List.Forall_cons_iff in Hall as [Hhead Hall].
    destruct (String.eqb k' Key); constructor; auto.
Qed.

(** Two vocabularies in key order that answer every [find] alike are
    the same. *)
Lemma key_sorted_ext (V1 : Vocab) : forall V2 : Vocab,
  key_sorted V1 -> key_sorted V2 ->
  (forall Key, Vocab_find Key V1 = Vocab_find Key V2) ->
  V1 = V2.
Proof.
  assert (Hbelow : forall (k : string) (v : Embedding) (V : Vocab),
            List.Forall (key_lt (k, v)) V -> Vocab_find k V = None).
  { intros k v V Hall. apply Vocab_find_None.
    intros ([k' v'] & Hk & Hin)%list_elem_of_fmap. simpl in Hk. subst k'.
    rewrite List.Forall_forall in Hall.
    specialize (Hall _ (proj1 (list_elem_of_In _ _) Hin)).
    unfold key_lt in Hall. simpl in Hall.
    by rewrite String_ltb_irrefl in Hall. }
  assert (Habove : forall (k k' : string) (v v' : Embedding) (V : Vocab),
            List.Forall (key_lt (k, v)) V -> Vocab_find k' V = Some v' ->
            String.ltb k k' = true).
  { intros k k' v v' V Hall Hfind.
    apply Vocab_find_Some_elem in Hfind.
    rewrite List.Forall_forall in Hall.
    apply (Hall (k', v')). by apply list_elem_of_In. }
  unfold key_sorted.
  induction V1 as [|[k1 v1] V1 IH]; intros [|[k2 v2] V2] Hs1 Hs2 Hext.
  - done.
  - specialize (Hext k2). simpl in Hext. by rewrite String.eqb_refl in Hext.
  - specialize (Hext k1). simpl in Hext. by rewrite String.eqb_refl in Hext.
  - apply StronglySorted_inv in Hs1 as [Hs1 Hall1].
    apply StronglySorted_inv in Hs2 as [Hs2 Hall2].
    assert (k1 = k2) as <-.
    { pose proof (Hext k1) as H1. pose proof (Hext k2) as H2.
      simpl in H1, H2. rewrite String.eqb_refl in H1, H2.
      destruct (String.eqb k2 k1) eqn:H21; [by apply String.eqb_eq in H21|].
      rewrite String.eqb_sym, H21 in H2.
      symmetry in H1.
      pose proof (Habove _ _ _ _ _ Hall2 H1) as Hlt21.
      pose proof (Habove _ _ _ _ _ Hall1 H2) as Hlt12.
      pose proof (String_ltb_trans _ _ _ Hlt12 Hlt21) as Hcycle.
      by rewrite String_ltb_irrefl in Hcycle. }
    assert (v1 = v2) as <-.
    { specialize (Hext k1). simpl in Hext.
      rewrite String.eqb_refl in Hext. congruence. }
    f_equal. apply IH; [done|done|].
    intros Key. specialize (Hext Key). simpl in Hext.
    destruct (String.eqb k1 Key) eqn:Hk; [|done].
    apply String.eqb_eq in Hk as <-.
    by rewrite (Hbelow _ _ _ Hall1), (Hbelow _ _ _ Hall2).
Qed.

(** What the decoder of a section leaves: when every member decodes, the
    map in key order that has, for each member, what the member decodes
    to. *)
Lemma fromJSON_members_outcome (Members : list (string * json.Value)) :
  forall Out : Vocab,
  NoDup Members.*1 ->
  key_sorted Out ->
  (Forall (fun Member : string * json.Value =>
             is_Some (json.fromJSON_vector Member.2)) Members ->
   exists T,
     json.fromJSON_members Members Out = (true, T) /\
     key_sorted T /\
     forall Key,
       Vocab_find Key T =
         match json.get Key Members with
         | Some E => json.fromJSON_vector E
         | None => Vocab_find Key Out
         end) /\
  (¬ Forall (fun Member : string * json.Value =>
               is_Some (json.fromJSON_vector Member.2)) Members ->
   (json.fromJSON_members Members Out).1 = false).
Proof.
  induction Members as [|[k E] Members IH]; intros Out Hnd Hsorted; simpl.
  - split; [|by intros []]. intros _. by exists Out.
  - simpl in Hnd. apply NoDup_cons in Hnd as [Hfresh Hnd].
    unfold json.fromJSON_Embedding.
    destruct (json.fromJSON_vector E) as [v|] eqn:Hdec.
    + set (Out2 := Vocab_store k v (Vocab_subscript k Out)).
      assert (key_sorted Out2) as Hsorted2
        by by apply key_sorted_store, key_sorted_subscript.
      destruct (IH Out2 Hnd Hsorted2) as [IHgood IHbad].
      split.
      * intros [_ Hall]%Forall_cons.
        destruct (IHgood Hall) as (T & Hrun & HT & Hfind).
        exists T. split_and!; [done|done|].
        intros Key. rewrite Hfind.
        destruct (String.eqb k Key) eqn:Hk.
        -- apply String.eqb_eq in Hk as <-.
           rewrite (proj2 (json_get_None Members k) Hfresh).
           unfold Out2.
           rewrite Vocab_find_store, String.eqb_refl, Vocab_find_subscript,
             String.eqb_refl.
           by rewrite Hdec.
        -- destruct (json.get Key Members); [done|].
           unfold Out2.
           by rewrite Vocab_find_store, Hk, Vocab_find_subscript, Hk.
      * intros Hnot. apply IHbad. intros Hall. apply Hnot.
        apply Forall_cons. split; [simpl; by rewrite Hdec|done].
    + split; [|done].
      intros [[? Hsome] _]%Forall_cons. simpl in Hsome. congruence.
Qed.

Lemma reordered_fromJSON_vector E E' :
  reordered E E' -> json.fromJSON_vector E = json.fromJSON_vector E'.
Proof. by intros [|]. Qed.

Lemma permuted_get {R : json.Value -> json.Value -> Prop}
    (Members Members' : list (string * json.Value)) Key :
  Members.*1 ≡ₚ Members'.*1 ->
  (forall Key V V',
      json.get Key Members = Some V -> json.get Key Members' = Some V' ->
      R V V') ->
  match json.get Key Members, json.get Key Members' with
  | Some V, Some V' => R V V'
  | None, None => True
  | _, _ => False
  end.
Proof.
  intros Hperm Hval.
  destruct (json.get Key Members) as [V|] eqn:Hget,
           (json.get Key Members') as [V'|] eqn:Hget'.
  - by apply (Hval Key).
  - apply json_get_None in Hget'. apply Hget'. rewrite <- Hperm.
    apply json_get_Some_elem in Hget.
    apply list_elem_of_fmap. by exists (Key, V).
  - apply json_get_None in Hget. apply Hget. rewrite Hperm.
    apply json_get_Some_elem in Hget'.
    apply list_elem_of_fmap. by exists (Key, V').
  - done.
Qed.

Lemma permuted_all_decode (Members Members' : list (string * json.Value)) :
  NoDup Members'.*1 ->
  Members.*1 ≡ₚ Members'.*1 ->
  (forall Key V V',
      json.get Key Members = Some V -> json.get Key Members' = Some V' ->
      json.fromJSON_vector V = json.fromJSON_vector V') ->
  Forall (fun Member : string * json.Value =>
            is_Some (json.fromJSON_vector Member.2)) Members ->
  Forall (fun Member : string * json.Value =>
            is_Some (json.fromJSON_vector Member.2)) Members'.
Proof.
  intros Hnd' Hperm Hval Hall.
  rewrite Forall_forall in Hall. apply Forall_forall.
  intros [k E'] Hin. simpl.
  pose proof (json_get_elem _ _ _ Hnd' Hin) as Hget'.
  pose proof (permuted_get _ _ k Hperm Hval) as Hrel.
  rewrite Hget' in Hrel.
  destruct (json.get k Members) as [E|] eqn:Hget; [|done].
  rewrite <- Hrel.
  apply (Hall (k, E)). by apply json_get_Some_elem.
Qed.

(** The decoder of a section does not depend on the order of the
    members: it succeeds on both documents or on neither, and with the
    same map. *)
Lemma reordered_fromJSON_map SectionValue SectionValue' T0 :
  reordered SectionValue SectionValue' ->
  (json.fromJSON_map SectionValue T0).1
    = (json.fromJSON_map SectionValue' T0).1 /\
  ((json.fromJSON_map SectionValue T0).1 = true ->
   json.fromJSON_map SectionValue T0 = json.fromJSON_map SectionValue' T0).
Proof.
  intros [V|Members Members' Hnd Hperm Hval]; [done|].
  unfold json.fromJSON_map. simpl.
  assert (NoDup Members'.*1) as Hnd' by by rewrite <- Hperm.
  assert (key_sorted []) as Hnil by constructor.
  assert (Hdec : forall Key V V',
            json.get Key Members = Some V -> json.get Key Members' = Some V' ->
            json.fromJSON_vector V = json.fromJSON_vector V').
  { intros Key V V' Hget Hget'.
    by apply reordered_fromJSON_vector, (Hval Key). }
  destruct (fromJSON_members_outcome Members [] Hnd Hnil) as [Hgood Hbad].
  destruct (fromJSON_members_outcome Members' [] Hnd' Hnil)
    as [Hgood' Hbad'].
  destruct (decide (Forall (fun Member : string * json.Value =>
                              is_Some (json.fromJSON_vector Member.2))
                           Members)) as [Hall|Hnot].
  - pose proof (permuted_all_decode _ _ Hnd' Hperm Hdec Hall) as Hall'.
    destruct (Hgood Hall) as (T & -> & HT & Hfind).
    destruct (Hgood' Hall') as (T' & -> & HT' & Hfind').
    split; [done|]. intros _. f_equal.
    apply key_sorted_ext; [done|done|].
    intros Key. rewrite Hfind, Hfind'.
    pose proof (permuted_get _ _ Key Hperm Hdec) as Hrel.
    by destruct (json.get Key Members), (json.get Key Members').
  - rewrite (Hbad Hnot).
    assert (¬ Forall (fun Member : string * json.Value =>
                        is_Some (json.fromJSON_vector Member.2)) Members')
      as Hnot'.
    { intros Hall'. apply Hnot.
      apply (permuted_all_decode Members' Members); [done|done| |done].
      intros Key V' V Hget' Hget. symmetry. by apply (Hdec Key). }
    by rewrite (Hbad' Hnot').
Qed.

Lemma reordered_parseVocabSection Key Doc Doc' T0 D0 :
  reordered Doc Doc' ->
  match IR2VecVocabAnalysis.parseVocabSection Key Doc T0 D0,
        IR2VecVocabAnalysis.parseVocabSection Key Doc' T0 D0 with
  | Ok (Err, T, Dim), Ok (Err', T', Dim') =>
      Err = Err' /\ (Error_to_bool Err = false -> T = T' /\ Dim = Dim')
  | Crash f, Crash f' => f = f'
  | _, _ => False
  end.
Proof.
  intros [V|Members Members' Hnd Hperm Hval].
  { by destruct (IR2VecVocabAnalysis.parseVocabSection Key V T0 D0)
      as [[[Err T] Dim]|f]. }
  unfold IR2VecVocabAnalysis.parseVocabSection. simpl.
  pose proof (permuted_get _ _ Key Hperm Hval) as Hrel.
  destruct (json.get Key Members) as [SectionValue|],
           (json.get Key Members') as [SectionValue'|]; try done.
  destruct (reordered_fromJSON_map _ _ T0 Hrel) as [Hflag Hsame].
  destruct (json.fromJSON_map SectionValue T0) as [Decoded T] eqn:Hmap.
  destruct (json.fromJSON_map SectionValue' T0) as [Decoded' T'] eqn:Hmap'.
  simpl in Hflag, Hsame. subst Decoded'.
  destruct Decoded; simpl; [|done].
  injection (Hsame eq_refl) as <-.
  destruct (Vocab_begin T) as [[k First]|]; [|done].
  destruct (unsigned_of_size (length First) =? 0)%N; [done|].
  by destruct (negb _).
Qed.

(** [readVocabulary] does not depend on the order in which the objects of
    the document list their members: for two documents that differ in
    that order only, it returns the same error or the same vocabulary, or
    runs into the same fault, and so does [run]. *)
Theorem readVocabulary_ignores_member_order
    H H' Opts V0 Content Content' Doc Doc' :
  getFileOrSTDIN H (ir2vec.VocabFile Opts) = inr Content ->
  json_parse H Content = inr Doc ->
  getFileOrSTDIN H' (ir2vec.VocabFile Opts) = inr Content' ->
  json_parse H' Content' = inr Doc' ->
  reordered Doc Doc' ->
  IR2VecVocabAnalysis.readVocabulary H Opts V0
    = IR2VecVocabAnalysis.readVocabulary H' Opts V0 /\
  IR2VecVocabAnalysis.run H Opts V0 = IR2VecVocabAnalysis.run H' Opts V0.
Proof.
  intros Hfile Hparse Hfile' Hparse' Hrel.
  assert (IR2VecVocabAnalysis.readVocabulary H Opts V0
          = IR2VecVocabAnalysis.readVocabulary H' Opts V0) as Hread.
  { unfold IR2VecVocabAnalysis.readVocabulary.
    rewrite Hfile, Hparse, Hfile', Hparse'.
    pose proof (reordered_parseVocabSection "Opcodes" _ _ [] 0%N Hrel) as H1.
    pose proof (reordered_parseVocabSection "Types" _ _ [] 0%N Hrel) as H2.
    pose proof (reordered_parseVocabSection "Arguments" _ _ [] 0%N Hrel)
      as H3.
    destruct (IR2VecVocabAnalysis.parseVocabSection "Opcodes" Doc [] 0)
      as [[[E1 Opc] D1]|f1],
      (IR2VecVocabAnalysis.parseVocabSection "Opcodes" Doc' [] 0)
      as [[[E1' Opc'] D1']|f1']; try done; simpl; [|by subst].
    destruct H1 as [<- H1].
    destruct (Error_to_bool E1); [done|].
    destruct (H1 eq_refl) as [<- <-].
    destruct (IR2VecVocabAnalysis.parseVocabSection "Types" Doc [] 0)
      as [[[E2 Ty] D2]|f2],
      (IR2VecVocabAnalysis.parseVocabSection "Types" Doc' [] 0)
      as [[[E2' Ty'] D2']|f2']; try done; simpl; [|by subst].
    destruct H2 as [<- H2].
    destruct (Error_to_bool E2); [done|].
    destruct (H2 eq_refl) as [<- <-].
    destruct (IR2VecVocabAnalysis.parseVocabSection "Arguments" Doc [] 0)
      as [[[E3 Arg] D3]|f3],
      (IR2VecVocabAnalysis.parseVocabSection "Arguments" Doc' [] 0)
      as [[[E3' Arg'] D3']|f3']; try done; simpl; [|by subst].
    destruct H3 as [<- H3].
    destruct (Error_to_bool E3); [done|].
    by destruct (H3 eq_refl) as [<- <-]. }
  split; [done|].
  unfold IR2VecVocabAnalysis.run. by rewrite Hread.
Qed.

(** The keys of a list of members given in full are distinct. *)
Ltac distinct_keys :=
  cbn [fmap list_fmap fst];
  repeat (apply NoDup_cons; split;
          [ let H := fresh in
            intros H;
            repeat (apply elem_of_cons in H as [H|H]; [discriminate H|]);
            by apply elem_of_nil in H
          | ]);
  apply NoDup_nil_2.

Lemma readVocabulary_ignores_member_order_witness :
  IR2VecVocabAnalysis.readVocabulary
    (Samples.host Fixtures.TwoTypes) Samples.Opts []
    = IR2VecVocabAnalysis.readVocabulary
        (Samples.host Fixtures.TwoTypesReordered) Samples.Opts [] /\
  IR2VecVocabAnalysis.run (Samples.host Fixtures.TwoTypes) Samples.Opts []
    = IR2VecVocabAnalysis.run
        (Samples.host Fixtures.TwoTypesReordered) Samples.Opts [].
Proof.
  apply (readVocabulary_ignores_member_order
           (Samples.host Fixtures.TwoTypes)
           (Samples.host Fixtures.TwoTypesReordered)
           Samples.Opts [] "" "" Fixtures.TwoTypes Fixtures.TwoTypesReordered
           eq_refl eq_refl eq_refl eq_refl).
  apply reordered_Object.
  - unfold Fixtures.TwoTypesRoot. distinct_keys.
  - apply perm_swap.
  - intros Key V V'. unfold Fixtures.TwoTypesRoot, Fixtures.TypesMembers.
    cbn [json.get].
    destruct (String.eqb "Opcodes" Key) eqn:HO.
    { apply String.eqb_eq in HO as <-. cbn.
      intros [= <-] [= <-]. apply reordered_same. }
    destruct (String.eqb "Types" Key) eqn:HT.
    { intros [= <-] [= <-]. apply reordered_Object.
      - distinct_keys.
      - apply perm_swap.
      - intros Key' W W'. cbn [json.get].
        destruct (String.eqb "integerTy" Key') eqn:HI.
        { apply String.eqb_eq in HI as <-. cbn.
          intros [= <-] [= <-]. apply reordered_same. }
        destruct (String.eqb "floatTy" Key') eqn:HF; [|done].
        intros [= <-] [= <-]. apply reordered_same. }
    destruct (String.eqb "Arguments" Key) eqn:HA; [|done].
    intros [= <-] [= <-]. apply reordered_same.
Defined.

Lemma mapM_fromJSON_double (a : list json.Value) (l : list float) :
  mapM json.fromJSON_double a = Some l <-> a = map json.Number l.
Proof.
  rewrite mapM_Some. split.
  - intros Hall. induction Hall as [|E x a l Hx Hall IH]; [done|].
    simpl. rewrite IH. by destruct E; simplify_eq/=.
  - intros ->. induction l as [|x l IH]; by constructor.
Qed.

Lemma fromJSON_vector_Some (E : json.Value) (l : list float) :
  json.fromJSON_vector E = Some l <-> E = json.Array (map json.Number l).
Proof.
  destruct E as [|b|d|s|a|o]; simpl; try (split; discriminate).
  rewrite mapM_fromJSON_double. split; [by intros ->|by intros [= ->]].
Qed.

(** Decoding a section.  For a section that is an object without a
    repeated key: when every member is an array of numbers, the section
    decodes, and the decoded map has, under the key of each member, exactly
    the numbers of its array, and nothing else; when some member is not an
    array of numbers, [parseVocabSection] returns the error that the
    section cannot be parsed, and leaves the dimension as it was. *)
Theorem section_decodes_to_its_numbers Key RootObj Members :
  json.get Key RootObj = Some (json.Object Members) ->
  NoDup Members.*1 ->
  (Forall (fun Member : string * json.Value =>
             exists l, Member.2 = json.Array (map json.Number l)) Members ->
   exists T,
     decoded_section Key (json.Object RootObj) = Some T /\
     (forall k l,
        Vocab_find k T = Some l <->
        json.get k Members = Some (json.Array (map json.Number l)))) /\
  (¬ Forall (fun Member : string * json.Value =>
               exists l, Member.2 = json.Array (map json.Number l)) Members ->
   decoded_section Key (json.Object RootObj) = None /\
   forall T0 D0,
     exists T,
       IR2VecVocabAnalysis.parseVocabSection Key (json.Object RootObj) T0 D0
         = Ok (StringError illegal_byte_sequence
                 ("Unable to parse '" +:+ Key +:+ "' section from vocabulary"),
               T, D0)).
Proof.
  intros Hget Hnd.
  assert (Hiff : Forall (fun Member : string * json.Value =>
                           exists l, Member.2 = json.Array (map json.Number l))
                        Members
                 <-> Forall (fun Member : string * json.Value =>
                               is_Some (json.fromJSON_vector Member.2))
                            Members).
  { apply Forall_iff. intros [k E]. simpl. split.
    - intros (l & ->). exists l. by apply fromJSON_vector_Some.
    - intros (l & Hl). exists l. by apply fromJSON_vector_Some. }
  rewrite Hiff.
  assert (key_sorted []) as Hnil by constructor.
  destruct (fromJSON_members_outcome Members [] Hnd Hnil) as [Hgood Hbad].
  unfold decoded_section, IR2VecVocabAnalysis.parseVocabSection. simpl.
  rewrite Hget. unfold json.fromJSON_map. simpl.
  split; intros Hall.
  - destruct (Hgood Hall) as (T & -> & _ & Hfind).
    exists T. split; [done|]. intros k l. rewrite Hfind.
    destruct (json.get k Members) as [E|]; simpl.
    + rewrite fromJSON_vector_Some. split; [by intros ->|by intros [= ->]].
    + done.
  - specialize (Hbad Hall).
    destruct (json.fromJSON_members Members []) as [Decoded T].
    simpl in Hbad. subst Decoded. split; [done|].
    intros T0 D0. by exists T.
Qed.

Lemma section_decodes_to_its_numbers_witness :
  exists T,
    decoded_section "Types" (json.Object Fixtures.TwoTypesRoot) = Some T /\
    (forall k l,
       Vocab_find k T = Some l <->
       json.get k Fixtures.TypesMembers
         = Some (json.Array (map json.Number l))).
Proof.
  refine (proj1 (section_decodes_to_its_numbers
                   "Types" Fixtures.TwoTypesRoot Fixtures.TypesMembers
                   eq_refl _) _).
  - unfold Fixtures.TypesMembers. distinct_keys.
  - repeat constructor.
    + by exists [2%float; 4%float].
    + by exists [6%float; 8%float].
Defined.
(* ===================================================================== *)
(** ** The vocabulary reader on a document with a defect *)
(* ===================================================================== *)

(** Where the reader with checked iterators returns, the reader without
    returns the same. *)
Lemma Unchecked_parseVocabSection_agrees Stray Key Doc T0 D0 r :
  IR2VecVocabAnalysis.parseVocabSection Key Doc T0 D0 = Ok r ->
  Unchecked.parseVocabSection Stray Key Doc T0 D0 = r.
Proof.
  unfold IR2VecVocabAnalysis.parseVocabSection, Unchecked.parseVocabSection.
  destruct (json.getAsObject Doc) as [RootObj|]; [|by intros [= <-]].
  destruct (json.get Key RootObj) as [SectionValue|]; [|by intros [= <-]].
  destruct (json.fromJSON_map SectionValue T0) as [Decoded T1].
  destruct Decoded; simpl; [|by intros [= <-]].
  destruct (Vocab_begin T1) as [[k First]|]; [|done].
  destruct (unsigned_of_size (length First) =? 0)%N; [by intros [= <-]|].
  destruct (forallb _ T1); simpl; by intros [= <-].
Qed.

Lemma Unchecked_readVocabulary_agrees Stray H Opts V0 r :
  IR2VecVocabAnalysis.readVocabulary H Opts V0 = Ok r ->
  Unchecked.readVocabulary Stray H Opts V0 = r.
Proof.
  unfold IR2VecVocabAnalysis.readVocabulary, Unchecked.readVocabulary.
  destruct (getFileOrSTDIN H _) as [EC|Content]; [by intros [= <-]|].
  destruct (json_parse H Content) as [Msg|Doc]; [by intros [= <-]|].
  destruct (IR2VecVocabAnalysis.parseVocabSection "Opcodes" Doc [] 0)
    as [[[E1 Opc] D1]|] eqn:H1; simpl; [|done].
  rewrite (Unchecked_parseVocabSection_agrees Stray _ _ _ _ _ H1).
  destruct (Error_to_bool E1); [by intros [= <-]|].
  destruct (IR2VecVocabAnalysis.parseVocabSection "Types" Doc [] 0)
    as [[[E2 Ty] D2]|] eqn:H2; simpl; [|done].
  rewrite (Unchecked_parseVocabSection_agrees Stray _ _ _ _ _ H2).
  destruct (Error_to_bool E2); [by intros [= <-]|].
  destruct (IR2VecVocabAnalysis.parseVocabSection "Arguments" Doc [] 0)
    as [[[E3 Arg] D3]|] eqn:H3; simpl; [|done].
  rewrite (Unchecked_parseVocabSection_agrees Stray _ _ _ _ _ H3).
  destruct (Error_to_bool E3); [by intros [= <-]|].
  destruct ((D1 =? D2)%N && (D2 =? D3)%N); simpl; by intros [= <-].
Qed.

(** The reader with checked iterators stops only at the read of the first
    entry of a section that has none. *)
Lemma parseVocabSection_Crash Key Doc D0 f :
  IR2VecVocabAnalysis.parseVocabSection Key Doc [] D0 = Crash f ->
  f = UndefinedBehaviour /\ decoded_section Key Doc = Some [].
Proof.
  unfold IR2VecVocabAnalysis.parseVocabSection, decoded_section.
  destruct (json.getAsObject Doc) as [RootObj|]; [|done].
  destruct (json.get Key RootObj) as [SectionValue|]; [|done].
  destruct (json.fromJSON_map SectionValue []) as [Decoded T1].
  destruct Decoded; simpl; [|done].
  destruct T1 as [|[k First] T1]; simpl; [by intros [= <-]|].
  destruct (unsigned_of_size (length First) =? 0)%N; [done|].
  by destruct (negb _).
Qed.

Lemma readVocabulary_Crash H Opts V0 f :
  IR2VecVocabAnalysis.readVocabulary H Opts V0 = Crash f ->
  f = UndefinedBehaviour /\
  exists Content Doc Key,
    getFileOrSTDIN H (ir2vec.VocabFile Opts) = inr Content /\
    json_parse H Content = inr Doc /\
    Key ∈ sections /\ decoded_section Key Doc = Some [].
Proof.
  unfold IR2VecVocabAnalysis.readVocabulary.
  destruct (getFileOrSTDIN H _) as [EC|Content] eqn:Hfile; [done|].
  destruct (json_parse H Content) as [Msg|Doc] eqn:Hparse; [done|].
  destruct (IR2VecVocabAnalysis.parseVocabSection "Opcodes" Doc [] 0)
    as [[[E1 Opc] D1]|f1] eqn:H1; simpl.
  2: { intros [= <-]. apply parseVocabSection_Crash in H1 as [-> ?].
       split; [done|]. exists Content, Doc, "Opcodes".
       split_and!; [done|done|apply Opcodes_section|done]. }
  destruct (Error_to_bool E1); [done|].
  destruct (IR2VecVocabAnalysis.parseVocabSection "Types" Doc [] 0)
    as [[[E2 Ty] D2]|f2] eqn:H2; simpl.
  2: { intros [= <-]. apply parseVocabSection_Crash in H2 as [-> ?].
       split; [done|]. exists Content, Doc, "Types".
       split_and!; [done|done|apply Types_section|done]. }
  destruct (Error_to_bool E2); [done|].
  destruct (IR2VecVocabAnalysis.parseVocabSection "Arguments" Doc [] 0)
    as [[[E3 Arg] D3]|f3] eqn:H3; simpl.
  2: { intros [= <-]. apply parseVocabSection_Crash in H3 as [-> ?].
       split; [done|]. exists Content, Doc, "Arguments".
       split_and!; [done|done|apply Arguments_section|done]. }
  destruct (Error_to_bool E3); [done|].
  by destruct (negb _).
Qed.

(** What the reader without checked iterators has checked of a section
    it accepts with the dimension [Dim]: the section decodes, [Dim] is
    not zero, every entry has [Dim] elements, and [Dim] is the dimension
    of the section if the section has one. *)
Lemma Unchecked_parseVocabSection_success Stray Key Doc D0 T Dim :
  Unchecked.parseVocabSection Stray Key Doc [] D0 = (Error_success, T, Dim) ->
  decoded_section Key Doc = Some T /\
  Dim ≠ 0%N /\
  Forall (fun Entry : string * Embedding => N.of_nat (length Entry.2) = Dim)
         T /\
  (forall D, section_dimension T = Some D -> D = Dim).
Proof.
  unfold Unchecked.parseVocabSection, decoded_section, section_dimension.
  destruct (json.getAsObject Doc) as [RootObj|]; [|done].
  destruct (json.get Key RootObj) as [SectionValue|]; [|done].
  destruct (json.fromJSON_map SectionValue []) as [Decoded T1].
  destruct Decoded; simpl; [|done].
  set (D1 := match Vocab_begin T1 with
             | Some (_, First) => unsigned_of_size (length First)
             | None => unsigned_of_size (Stray Key)
             end).
  destruct (D1 =? 0)%N eqn:Hzero; [done|].
  destruct (forallb _ T1) eqn:Hall; simpl; [|done].
  intros [= <- <-]. split_and!.
  - done.
  - by apply N.eqb_neq.
  - by apply forallb_dimension.
  - subst D1. destruct (Vocab_begin T1) as [[k First]|]; [|done].
    by intros D [= <-].
Qed.

(** The reader without checked iterators returns an error and leaves the
    member [Vocabulary] as it was, or it returns success and has accepted
    the three sections of the document with one dimension. *)
Lemma Unchecked_readVocabulary_cases Stray H Opts V0 :
  exists Err V',
    Unchecked.readVocabulary Stray H Opts V0 = (Err, V') /\
    ((Error_to_bool Err = true /\ V' = V0) \/
     (exists Content Doc Dim,
         getFileOrSTDIN H (ir2vec.VocabFile Opts) = inr Content /\
         json_parse H Content = inr Doc /\
         Dim ≠ 0%N /\
         forall Key, Key ∈ sections ->
           exists T,
             decoded_section Key Doc = Some T /\
             Forall (fun Entry : string * Embedding =>
                       N.of_nat (length Entry.2) = Dim) T /\
             (forall D, section_dimension T = Some D -> D = Dim))).
Proof.
  unfold Unchecked.readVocabulary.
  destruct (getFileOrSTDIN H _) as [EC|Content] eqn:Hfile;
    [by eexists _, _; eauto|].
  destruct (json_parse H Content) as [Msg|Doc] eqn:Hparse;
    [by eexists _, _; eauto|].
  destruct (Unchecked.parseVocabSection Stray "Opcodes" Doc [] 0)
    as [[E1 Opc] D1] eqn:H1.
  destruct (Error_to_bool E1) eqn:HE1; [by eexists _, _; eauto|].
  destruct (Unchecked.parseVocabSection Stray "Types" Doc [] 0)
    as [[E2 Ty] D2] eqn:H2.
  destruct (Error_to_bool E2) eqn:HE2; [by eexists _, _; eauto|].
  destruct (Unchecked.parseVocabSection Stray "Arguments" Doc [] 0)
    as [[E3 Arg] D3] eqn:H3.
  destruct (Error_to_bool E3) eqn:HE3; [by eexists _, _; eauto|].
  destruct ((D1 =? D2)%N && (D2 =? D3)%N) eqn:Hdims; simpl;
    [|by eexists _, _; eauto].
  apply andb_true_iff in Hdims as [H12%N.eqb_eq H23%N.eqb_eq].
  subst D2 D3.
  destruct E1; [|done..]. destruct E2; [|done..]. destruct E3; [|done..].
  apply Unchecked_parseVocabSection_success in H1 as (? & ? & ? & ?).
  apply Unchecked_parseVocabSection_success in H2 as (? & ? & ? & ?).
  apply Unchecked_parseVocabSection_success in H3 as (? & ? & ? & ?).
  eexists _, _. split; [done|]. right.
  exists Content, Doc, D1. split_and!; [done..|].
  intros Key HKey. unfold sections in HKey.
  repeat (apply elem_of_cons in HKey as [->|HKey]); eauto.
  by apply elem_of_nil in HKey.
Qed.

(** No document with a defect has three sections that pass the checks
    with one dimension. *)
Lemma rejected_not_accepted Doc Dim :
  rejected Doc ->
  Dim ≠ 0%N ->
  (forall Key, Key ∈ sections ->
     exists T,
       decoded_section Key Doc = Some T /\
       Forall (fun Entry : string * Embedding =>
                 N.of_nat (length Entry.2) = Dim) T /\
       (forall D, section_dimension T = Some D -> D = Dim)) ->
  False.
Proof.
  intros Hrej Hnz Hall.
  destruct Hrej as [Key HKey Hnone|Key T HKey Hdec Hzero
                   |Key T D Entry HKey Hdec HD Hin Hlen
                   |K1 K2 T1 T2 D1 D2 HK1 HK2 Hd1 Hd2 HD1 HD2 Hdiff];
    try (destruct (Hall Key HKey) as (T' & Hdec' & Hlens & Hdim)).
  - congruence.
  - rewrite Hdec in Hdec'. injection Hdec' as <-.
    by rewrite <- (Hdim _ Hzero) in Hnz.
  - rewrite Hdec in Hdec'. injection Hdec' as <-.
    rewrite (Hdim _ HD) in Hlen.
    rewrite Forall_forall in Hlens. by apply Hlen, Hlens.
  - destruct (Hall K1 HK1) as (T1' & Hd1' & _ & Hdim1).
    destruct (Hall K2 HK2) as (T2' & Hd2' & _ & Hdim2).
    rewrite Hd1 in Hd1'. injection Hd1' as <-.
    rewrite Hd2 in Hd2'. injection Hd2' as <-.
    apply Hdiff. by rewrite (Hdim1 _ HD1), (Hdim2 _ HD2).
Qed.

(** C7: loading a document with one of the defects [rejected] lists (a
    section that is missing or does not decode, a section of dimension
    zero, a section with an entry whose length is not the length of its
    first entry, two sections of different dimensions) returns an error
    and leaves the member [Vocabulary] as it was, and [run] hands out the
    invalid result with that error emitted.  This holds whatever the read
    of the first entry of a section without entry yields.  With checked
    iterators the run either returns that same error, the member as it
    was, or it ends at that read, which only one of the three sections
    decoding to the empty map brings about; it never returns success. *)
Theorem defective_vocabulary_is_rejected H Opts Content Doc :
  getFileOrSTDIN H (ir2vec.VocabFile Opts) = inr Content ->
  json_parse H Content = inr Doc ->
  rejected Doc ->
  (forall Stray V0,
      exists Err,
        Unchecked.readVocabulary Stray H Opts V0 = (Err, V0) /\
        Error_to_bool Err = true /\
        (ir2vec.VocabFile Opts ≠ "" ->
         Unchecked.run Stray H Opts []
           = (IR2VecVocabResult_invalid, [Diag_reading Err]))) /\
  (forall Stray V0,
      IR2VecVocabAnalysis.readVocabulary H Opts V0
        = Ok (Unchecked.readVocabulary Stray H Opts V0) \/
      (IR2VecVocabAnalysis.readVocabulary H Opts V0
         = Crash UndefinedBehaviour /\
       exists Key, Key ∈ sections /\ decoded_section Key Doc = Some [])).
Proof.
  intros Hfile Hparse Hrej.
  assert (Hread : forall Stray V0,
            exists Err,
              Unchecked.readVocabulary Stray H Opts V0 = (Err, V0) /\
              Error_to_bool Err = true).
  { intros Stray V0.
    destruct (Unchecked_readVocabulary_cases Stray H Opts V0)
      as (Err & V' & Hrun & [[HErr ->]|Hacc]); [by exists Err|].
    exfalso.
    destruct Hacc as (Content' & Doc' & Dim & Hfile' & Hparse' & Hnz & Hall).
    rewrite Hfile in Hfile'. injection Hfile' as <-.
    rewrite Hparse in Hparse'. injection Hparse' as <-.
    by apply (rejected_not_accepted Doc Dim). }
  split.
  - intros Stray V0. destruct (Hread Stray V0) as (Err & Hrun & HErr).
    exists Err. split_and!; [done|done|].
    intros Hpath. unfold Unchecked.run. simpl.
    apply String.eqb_neq in Hpath. rewrite Hpath.
    destruct (Hread Stray []) as (Err' & Hrun' & HErr').
    (* the error does not depend on the member *)
    assert (Err' = Err) as ->.
    { revert Hrun Hrun'. unfold Unchecked.readVocabulary.
      rewrite Hfile, Hparse.
      destruct (Unchecked.parseVocabSection Stray "Opcodes" Doc [] 0)
        as [[E1 Opc] D1].
      destruct (Error_to_bool E1); [congruence|].
      destruct (Unchecked.parseVocabSection Stray "Types" Doc [] 0)
        as [[E2 Ty] D2].
      destruct (Error_to_bool E2); [congruence|].
      destruct (Unchecked.parseVocabSection Stray "Arguments" Doc [] 0)
        as [[E3 Arg] D3].
      destruct (Error_to_bool E3); [congruence|].
      destruct (negb _); [congruence|].
      intros [= <- _]. done. }
    by rewrite Hrun', HErr.
  - intros Stray V0.
    destruct (IR2VecVocabAnalysis.readVocabulary H Opts V0) as [r|f] eqn:Hrun.
    + left. by rewrite (Unchecked_readVocabulary_agrees Stray _ _ _ _ Hrun).
    + right. apply readVocabulary_Crash in Hrun
        as (-> & Content' & Doc' & Key & Hfile' & Hparse' & HKey & Hempty).
      rewrite Hfile in Hfile'. injection Hfile' as <-.
      rewrite Hparse in Hparse'. injection Hparse' as <-.
      split; [done|]. by exists Key.
Qed.

(** The document whose [Opcodes] section is the empty object and whose
    [Types] section is missing: whatever the read of the first entry of
    [Opcodes] yields, loading returns an error and no vocabulary. *)
Lemma defective_vocabulary_is_rejected_witness :
  (forall Stray V0,
      exists Err,
        Unchecked.readVocabulary
          Stray (Samples.host Samples.EmptyOpcodesDoc) Samples.Opts V0
          = (Err, V0) /\
        Error_to_bool Err = true /\
        (ir2vec.VocabFile Samples.Opts ≠ "" ->
         Unchecked.run
           Stray (Samples.host Samples.EmptyOpcodesDoc) Samples.Opts []
           = (IR2VecVocabResult_invalid, [Diag_reading Err]))) /\
  (forall Stray V0,
      IR2VecVocabAnalysis.readVocabulary
        (Samples.host Samples.EmptyOpcodesDoc) Samples.Opts V0
        = Ok (Unchecked.readVocabulary
                Stray (Samples.host Samples.EmptyOpcodesDoc) Samples.Opts V0)
      \/
      (IR2VecVocabAnalysis.readVocabulary
         (Samples.host Samples.EmptyOpcodesDoc) Samples.Opts V0
         = Crash UndefinedBehaviour /\
       exists Key,
         Key ∈ sections /\
         decoded_section Key Samples.EmptyOpcodesDoc = Some [])).
Proof.
  apply (defective_vocabulary_is_rejected
           (Samples.host Samples.EmptyOpcodesDoc) Samples.Opts ""
           Samples.EmptyOpcodesDoc eq_refl eq_refl).
  apply (rejected_missing _ "Types").
  - unfold sections. right. by left.
  - reflexivity.
Defined.

(** On that document the two errors the reader without checked iterators
    can return: the zero dimension of [Opcodes] when the read yields a
    size that is zero as an [unsigned], the missing [Types] section
    otherwise. *)
Example empty_section_errors :
  Unchecked.readVocabulary
    (fun _ => 0) (Samples.host Samples.EmptyOpcodesDoc) Samples.Opts []
    = (StringError illegal_byte_sequence
         "Dimension of 'Opcodes' section of the vocabulary is zero", []) /\
  Unchecked.readVocabulary
    (fun _ => 7) (Samples.host Samples.EmptyOpcodesDoc) Samples.Opts []
    = (StringError invalid_argument
         "Missing 'Types' section in vocabulary file", []).
Proof. split; reflexivity. Qed.

(** A member of the document that is none of the three sections is never
    read, empty object or not: the ragged [Types] section is reported. *)
Example unrelated_member_is_not_read :
  decoded_section "Comment" Fixtures.RaggedWithComment = Some [] /\
  IR2VecVocabAnalysis.readVocabulary
    (Samples.host Fixtures.RaggedWithComment) Samples.Opts []
    = Ok (StringError illegal_byte_sequence
            "All vectors in the 'Types' section of the vocabulary are not of the same dimension",
          []) /\
  IR2VecVocabAnalysis.run
    (Samples.host Fixtures.RaggedWithComment) Samples.Opts []
    = Ok (IR2VecVocabResult_invalid,
          [Diag_reading
             (StringError illegal_byte_sequence
                "All vectors in the 'Types' section of the vocabulary are not of the same dimension")]).
Proof. split_and!; reflexivity. Qed.

(* ===================================================================== *)
(** ** The function vector and the blocks the walk reaches *)
(* ===================================================================== *)

Section EngineState.

Variable this : Embedder.t.
Hypothesis Huni : uniform this.
Hypothesis Hbody : isDeclaration (Embedder.F this) = false.






End EngineState.




